(** * A shallow embedding of [strategy.py]
    (class [SemiconductorRegimeLongShort], a QuantConnect algorithm)

    Conventions of the embedding.

    - Python floats are idealised as real numbers ([R]): rounding is not
      modelled, so a comparison of two computed values can fall on the other
      side in binary64 when they differ by a rounding error ([series_std] on a
      constant series, [ratio_indicator] on a ratio next to its mean).  The
      non-finite values that pandas and numpy produce are kept as data: a
      table cell is a [num], a real or one of [+inf], [-inf], [NaN].  The
      range of binary64 is modelled where the volatility targeter depends on
      it: a daily return and a rolling variance beyond the largest finite
      double are infinities ([float_range], [float_std]).  There is no signed
      zero.  Where a property names a number, the same computation is run in
      binary64 ([Binary64]).
    - Comparisons of reals are the boolean functions [Rltb], [Rleb]; they are
      decided in proofs with [lra].
    - A pandas [Series] of floats is a [list num]; a [Series] indexed by
      symbols is an association list, in index order; a [DataFrame] is a
      number of rows and its columns in order, each under its label.
    - A Python [dict] is an insertion-ordered association list ([dict_set]).
    - An uncaught Python exception is the [Raise] case of [result].
    - The effects of [Rebalance] (orders and log records) are the list of
      [action]s it emits; the one attribute it assigns is the state. *)

From Stdlib Require Import Reals Lra Lia ZArith.
From Stdlib Require PrimFloat FloatOps SpecFloat Uint63.
From stdpp Require Import base decidable option list sorting strings gmap.

Local Open Scope R_scope.

(** ** Real comparisons as booleans *)

Definition Rltb (x y : R) : bool := if Rlt_dec x y then true else false.
Definition Rleb (x y : R) : bool := if Rle_dec x y then true else false.

Global Instance R_eq_dec : EqDecision R := Req_dec_T.

(** ** Exceptions *)

Inductive exn := IndexError | KeyError | ZeroDivisionError.

Inductive result (A : Type) :=
  | Ok (a : A)
  | Raise (e : exn).
Arguments Ok {A} a.
Arguments Raise {A} e.

(** The error monad; stdpp's notation [x ← m; k] is its bind. *)
Global Instance result_ret : MRet result := fun _ a => Ok a.
Global Instance result_bind : MBind result := fun _ _ f m =>
  match m with
  | Ok a => f a
  | Raise e => Raise e
  end.

(** [xs.iloc[-1]]: out of bounds on an empty sequence. *)
Definition iloc_last {A} (xs : list A) : result A :=
  match last xs with
  | Some x => Ok x
  | None => Raise IndexError
  end.

(** ** numpy scalars *)

(** [np.clip(x, lo, hi)] is [minimum(maximum(x, lo), hi)]. *)
Definition clip (x lo hi : R) : R := Rmin (Rmax x lo) hi.

(** [int(f * n)] for the fractions [0.40], [0.30], [0.25], [0.50] of the
    source, written [pct / 100]: the floor of the exact product. *)
Definition int_frac (pct n : nat) : nat := (pct * n / 100)%nat.

(** The same scalars in binary64, as Python computes them, to check the
    idealisation where a claim names a number. *)
Module Binary64.
Import PrimFloat FloatOps SpecFloat.
#[local] Set Warnings "-inexact-float".
Local Open Scope float_scope.

(** [int(x)]: truncation toward zero. *)
Definition int_of_float (x : float) : Z :=
  match Prim2SF x with
  | S754_finite s m e =>
      let mag :=
        (if (0 <=? e)%Z then Z.pos m * 2 ^ e else Z.pos m / 2 ^ (- e))%Z in
      if s then (- mag)%Z else mag
  | _ => 0%Z
  end.

Definition float_of_nat (n : nat) : float :=
  of_uint63 (Uint63.of_Z (Z.of_nat n)).

(** [int(f * n)] *)
Definition int_frac64 (f : float) (n : nat) : Z :=
  int_of_float (f * float_of_nat n).

Definition maximum (a b : float) : float := if ltb a b then b else a.
Definition minimum (a b : float) : float := if ltb b a then b else a.

(** [np.clip(x, lo, hi)] *)
Definition clip64 (x lo hi : float) : float := minimum (maximum x lo) hi.

(** The products, quotients and clips that the claims name. *)
Definition fractions_agree (n : nat) : bool :=
  (int_frac64 0.40 n =? Z.of_nat (int_frac 40 n))%Z &&
  (int_frac64 0.30 n =? Z.of_nat (int_frac 30 n))%Z &&
  (int_frac64 0.25 n =? Z.of_nat (int_frac 25 n))%Z &&
  (int_frac64 0.50 n =? Z.of_nat (int_frac 50 n))%Z.

Definition neutral_budget_at_min_scale : float := clip64 (0.80 * 0.20) 0.0 1.30.

Definition bear_weight : float := clip64 (- 0.8 / float_of_nat 5) (- 0.12) 0.

Definition bull_weight : float := clip64 (1.0 / float_of_nat 4) 0 0.12.

Definition budget_below_min_gross : bool :=
  ltb neutral_budget_at_min_scale 0.20.

Definition scenario_weights_at_cap : bool :=
  eqb bear_weight (- 0.12) && eqb bull_weight 0.12.
End Binary64.

(** A float of a pandas object. *)
Inductive num := Fin (r : R) | PInf | NInf | NaN.

Definition isnan (x : num) : bool :=
  match x with NaN => true | _ => false end.

Definition isinf (x : num) : bool :=
  match x with PInf | NInf => true | _ => false end.

Definition num_neg (x : num) : num :=
  match x with
  | Fin r => Fin (- r)
  | PInf => NInf
  | NInf => PInf
  | NaN => NaN
  end.

(** The infinity with the sign of [r]; [NaN] at zero. *)
Definition inf_of_sign (r : R) : num :=
  if Rltb 0 r then PInf else if Rltb r 0 then NInf else NaN.

(** The largest finite binary64, [(2 - 2^-52) * 2^1023]. *)
Definition float_max_Z : Z := Eval vm_compute in (2 ^ 1024 - 2 ^ 971)%Z.

Definition float_max : R := IZR float_max_Z.

(** A result computed in the reals, in the range of binary64: beyond
    [float_max] it is the infinity of its sign. *)
Definition float_range (x : num) : num :=
  match x with
  | Fin r => if Rltb float_max (Rabs r) then inf_of_sign r else Fin r
  | _ => x
  end.

Definition num_add (x y : num) : num :=
  match x, y with
  | NaN, _ | _, NaN => NaN
  | Fin a, Fin b => Fin (a + b)
  | PInf, NInf | NInf, PInf => NaN
  | PInf, _ | _, PInf => PInf
  | NInf, _ | _, NInf => NInf
  end.

Definition num_sub (x y : num) : num := num_add x (num_neg y).

Definition num_mul (x y : num) : num :=
  match x, y with
  | NaN, _ | _, NaN => NaN
  | Fin a, Fin b => Fin (a * b)
  | Fin a, PInf | PInf, Fin a => inf_of_sign a
  | Fin a, NInf | NInf, Fin a => inf_of_sign (- a)
  | PInf, PInf | NInf, NInf => PInf
  | PInf, NInf | NInf, PInf => NaN
  end.

(** Division of float64 arrays: a zero divisor gives an infinity, or [NaN] for
    [0/0]. *)
Definition num_div (x y : num) : num :=
  match x, y with
  | NaN, _ | _, NaN => NaN
  | Fin a, Fin b =>
      if Rltb b 0 || Rltb 0 b then Fin (a / b) else inf_of_sign a
  | Fin _, (PInf | NInf) => Fin 0
  | PInf, Fin b => if Rltb b 0 then NInf else PInf
  | NInf, Fin b => if Rltb b 0 then PInf else NInf
  | (PInf | NInf), (PInf | NInf) => NaN
  end.

(** [x > y] on floats: false as soon as one side is [NaN]. *)
Definition num_gt (x y : num) : bool :=
  match x, y with
  | NaN, _ | _, NaN => false
  | Fin a, Fin b => Rltb b a
  | PInf, (Fin _ | NInf) => true
  | Fin _, NInf => true
  | _, _ => false
  end.

Definition num_lt (x y : num) : bool := num_gt y x.

(** ** Python dictionaries

    Insertion-ordered: assigning to a key that is present keeps its
    position. *)

Section dict.
Context {K V : Type} `{EqDecision K}.

Fixpoint dict_get (d : list (K * V)) (k : K) : option V :=
  match d with
  | [] => None
  | (k', v) :: d' => if decide (k = k') then Some v else dict_get d' k
  end.

(** [d[k] = v] *)
Fixpoint dict_set (d : list (K * V)) (k : K) (v : V) : list (K * V) :=
  match d with
  | [] => [(k, v)]
  | (k', v') :: d' =>
      if decide (k = k') then (k, v) :: d' else (k', v') :: dict_set d' k v
  end.

(** [for s in ks: d[s] = v] *)
Definition dict_set_all (d : list (K * V)) (ks : list K) (v : V)
  : list (K * V) :=
  foldl (fun acc s => dict_set acc s v) d ks.

Definition dict_keys (d : list (K * V)) : list K := d.*1.
End dict.

(** ** pandas objects *)

Abbreviation symbol := string (only parsing).

Definition as_fin (x : num) : option R :=
  match x with Fin r => Some r | _ => None end.

(** [.replace([np.inf, -np.inf], np.nan)] *)
Definition replace_inf (x : num) : num := if isinf x then NaN else x.

(** [.dropna()] on a sequence of floats. *)
Definition dropna (xs : list num) : list num :=
  filter (fun x => isnan x = false) xs.

(** [.ffill()]: a [NaN] takes the last value before it that is not [NaN]. *)
Fixpoint ffill_from (prev : num) (xs : list num) : list num :=
  match xs with
  | [] => []
  | x :: xs' =>
      let y := if isnan x then prev else x in
      y :: ffill_from y xs'
  end.

Definition ffill (xs : list num) : list num := ffill_from NaN xs.

(** [.bfill()] *)
Definition bfill (xs : list num) : list num := reverse (ffill (reverse xs)).

(** [.shift(p)] *)
Definition shift (p : nat) (xs : list num) : list num :=
  take (length xs) (replicate p NaN ++ xs).

(** [.pct_change(p)]: pandas pads the gaps forward, then divides by the
    shifted sequence and subtracts one; a quotient out of the range of
    binary64 is an infinity. *)
Definition pct_change (p : nat) (xs : list num) : list num :=
  let ys := ffill xs in
  zip_with (fun cur prev => num_sub (float_range (num_div cur prev)) (Fin 1))
    ys (shift p ys).

Definition Rsum (rs : list R) : R := foldr Rplus 0 rs.

Definition Rmean (rs : list R) : R := Rsum rs / INR (length rs).

(** Sample standard deviation ([ddof=1]). *)
Definition Rstd (rs : list R) : R :=
  let mu := Rmean rs in
  sqrt (Rsum (map (fun x => (x - mu) * (x - mu)) rs) / (INR (length rs) - 1)).

(** The sum of the squared deviations from the mean, from which the variance
    is computed. *)
Definition sum_sq_dev (rs : list R) : R :=
  let mu := Rmean rs in
  Rsum (map (fun x => (x - mu) * (x - mu)) rs).

(** The sample deviation of a rolling window in binary64: when the sum of the
    squared deviations is beyond [float_max] the variance is [+inf], and so
    is its square root. *)
Definition float_std (rs : list R) : num :=
  if Rltb float_max (sum_sq_dev rs) then PInf else Fin (Rstd rs).

(** The trailing window of [.rolling(w)] at the last row, when it is
    complete: [w] observations, none of them [NaN] or infinite (the rolling
    aggregations read an infinity as [NaN], and [min_periods] is [w]). *)
Definition window_last (w : nat) (xs : list num) : option (list R) :=
  let win := drop (length xs - w) xs in
  if decide (length win = w) then mapM as_fin win else None.

(** The last row of [.rolling(w).mean()], before [.iloc[-1]]. *)
Definition rolling_mean_at_last (w : nat) (xs : list num) : num :=
  match window_last w xs with
  | Some rs => if decide (w = 0%nat) then NaN else Fin (Rmean rs)
  | None => NaN
  end.

(** The last row of [.rolling(w).std()]: [NaN] when the window is not
    complete, else the deviation of the window, [+inf] when its variance
    overflows.  The window is aggregated afresh, as pandas does for the first
    complete window; from one row to the next pandas updates running sums,
    with the rounding errors that go with them. *)
Definition rolling_std_at_last (w : nat) (xs : list num) : num :=
  match window_last w xs with
  | Some rs => if decide (w <= 1)%nat then NaN else float_std rs
  | None => NaN
  end.

(** [xs.rolling(w).mean().iloc[-1]] *)
Definition rolling_mean_last (w : nat) (xs : list num) : result num :=
  match xs with
  | [] => Raise IndexError
  | _ => Ok (rolling_mean_at_last w xs)
  end.

(** [xs.rolling(w).std().iloc[-1]] *)
Definition rolling_std_last (w : nat) (xs : list num) : result num :=
  match xs with
  | [] => Raise IndexError
  | _ => Ok (rolling_std_at_last w xs)
  end.

(** [Series.mean()]: [NaN] entries are skipped, infinities are not. *)
Definition series_mean (xs : list num) : num :=
  let vals := dropna xs in
  num_div (foldr num_add (Fin 0) vals) (Fin (INR (length vals))).

(** [Series.std()] ([ddof=1], [NaN] entries skipped): [NaN] with fewer than
    two values or with an infinite one.  The deviation is the one of the
    reals: it is 0 on every constant series, where binary64 can leave a
    deviation of the size of a rounding error. *)
Definition series_std (xs : list num) : num :=
  match mapM as_fin (dropna xs) with
  | Some rs => if decide (length rs <= 1)%nat then NaN else Fin (Rstd rs)
  | None => NaN
  end.

(** A [DataFrame] of closes: [df_rows] dates, columns in order. *)
Record DataFrame := {
  df_rows : nat;
  df_columns : list (symbol * list num)
}.

Definition df_wf (t : DataFrame) : Prop :=
  NoDup (df_columns t).*1 /\
  Forall (fun c => length c.2 = df_rows t) (df_columns t).

(** [sym in close.columns] *)
Definition has_column (t : DataFrame) (sym : symbol) : bool :=
  bool_decide (sym ∈ (df_columns t).*1).

(** [close[sym]] *)
Definition getitem (t : DataFrame) (sym : symbol) : result (list num) :=
  match dict_get (df_columns t) sym with
  | Some c => Ok c
  | None => Raise KeyError
  end.

(** [close[[s for s in labels if s in close.columns]]] *)
Definition select_present (t : DataFrame) (labels : list symbol) : DataFrame :=
  {| df_rows := df_rows t;
     df_columns :=
       omap (fun s => pair s <$> dict_get (df_columns t) s) labels |}.

(** [.iloc[-1]] of a table computed column by column from [t]: the last row,
    one entry per column, in column order. *)
Definition last_row (t : DataFrame) (f : list num -> num)
  : result (list (symbol * num)) :=
  if decide (df_rows t = 0%nat) then Raise IndexError
  else Ok (map (fun c => (c.1, f c.2)) (df_columns t)).

(** [Series.nlargest(k)] and [Series.nsmallest(k)] with [keep='first'], for
    [k] below the length: the first [k] entries of the stable sort, so that
    among equal values the earlier index entry comes first. *)
Fixpoint insert_by (le : R -> R -> bool) (x : symbol * R)
    (l : list (symbol * R)) : list (symbol * R) :=
  match l with
  | [] => [x]
  | y :: l' => if le x.2 y.2 then x :: l else y :: insert_by le x l'
  end.

Definition stable_sort (le : R -> R -> bool) (l : list (symbol * R))
  : list (symbol * R) :=
  foldr (insert_by le) [] l.

Definition nsmallest (k : nat) (score : list (symbol * R))
  : list (symbol * R) :=
  take k (stable_sort Rleb score).

Definition nlargest (k : nat) (score : list (symbol * R))
  : list (symbol * R) :=
  take k (stable_sort (fun a b => Rleb b a) score).

(** ** The algorithm's attributes ([Initialize]) *)

Record Config := {
  mom_lookback : nat;
  vol_score_window : nat;
  vol_target_window : nat;
  regime_ma : nat;
  target_annual_vol : R;
  max_gross : R;
  min_gross : R;
  min_names_each_side : nat;
  max_weight_per_name : R;
  gross_bull : R;
  gross_mixed : R;
  gross_neutral : R;
  gross_bear : R;
  soxx : symbol;
  spy : symbol;
  ief : symbol;
  shy : symbol;
  semis : list symbol
}.

(** The values [Initialize] assigns ([rebalance_mode] only selects the
    schedule of [Rebalance]). *)
Definition initial_config : Config := {|
  mom_lookback := 126;
  vol_score_window := 60;
  vol_target_window := 20;
  regime_ma := 200;
  target_annual_vol := 0.10;
  max_gross := 1.30;
  min_gross := 0.20;
  min_names_each_side := 4;
  max_weight_per_name := 0.12;
  gross_bull := 1.10;
  gross_mixed := 1.00;
  gross_neutral := 0.80;
  gross_bear := 0.90;
  soxx := "SOXX";
  spy := "SPY";
  ief := "IEF";
  shy := "SHY";
  semis := ["NVDA"; "AMD"; "AVGO"; "QCOM"; "TXN"; "INTC"; "MU"; "ADI";
            "ON"; "MCHP"; "NXPI"; "MRVL"; "KLAC"; "LRCX"; "AMAT"; "TER"]
|}.

(** An entry of [self.Securities]; [Price] may be [None]. *)
Record Security := {
  IsTradable : bool;
  HasData : bool;
  Price : option R
}.

Section algorithm.
Variable self : Config.
Variable Securities : gmap symbol Security.

Definition _is_tradeable (sym : symbol) : bool :=
  match Securities !! sym with
  | None => false
  | Some sec =>
      IsTradable sec && HasData sec &&
      match Price sec with
      | None => false
      | Some p => Rltb 0 p
      end
  end.

(** [sd is None or np.isnan(sd) or sd < 1e-12] *)
Definition zscore_degenerate (sd : num) : bool :=
  isnan sd || num_lt sd (Fin 1e-12).

Definition _zscore (x : list num) : list num :=
  let mu := series_mean x in
  let sd := series_std x in
  if zscore_degenerate sd then map (fun v => num_mul v (Fin 0)) x
  else map (fun v => num_div (num_sub v mu) sd) x.

(** The finite ratios [(a / b).replace([np.inf, -np.inf], np.nan).dropna()]
    of two columns of one table. *)
Definition finite_ratio (a b : list num) : list num :=
  dropna (map replace_inf (zip_with num_div a b)).

(** [1 if (not np.isnan(ma) and xs.iloc[-1] > ma) else 0], where [ma] is
    [xs.rolling(w).mean().iloc[-1] if len(xs) > w else np.nan]; the
    conjunction does not read [xs.iloc[-1]] when [ma] is [NaN].  The latest
    value and the mean are compared in the reals. *)
Definition ratio_indicator (w : nat) (xs : list num) : result Z :=
  ma ← (if decide (w < length xs)%nat then rolling_mean_last w xs
        else Ok NaN);
  if isnan ma then Ok 0%Z
  else
    latest ← iloc_last xs;
    Ok (if num_gt latest ma then 1%Z else 0%Z).

Definition _compute_regime_score (close : DataFrame) : result Z :=
  let needed := [soxx self; spy self; ief self; shy self] in
  if existsb (fun sym => negb (has_column close sym)) needed then Ok 1%Z
  else
    soxx ← getitem close (soxx self);
    spy ← getitem close (spy self);
    ief ← getitem close (ief self);
    shy ← getitem close (shy self);
    soxx_ma ← rolling_mean_last (regime_ma self) soxx;
    latest ← iloc_last soxx;
    let c1 := if num_gt latest soxx_ma then 1%Z else 0%Z in
    c2 ← ratio_indicator (regime_ma self) (finite_ratio soxx spy);
    c3 ← ratio_indicator (regime_ma self) (finite_ratio ief shy);
    Ok (c1 + c2 + c3)%Z.

(** [self.target_annual_vol / max(ann, 1e-3)] with
    [ann = vol * np.sqrt(252)]: the scale before it is clipped. *)
Definition vol_scale_raw (vol : R) : R :=
  let ann := vol * sqrt 252 in
  target_annual_vol self / Rmax ann 1e-3.

(** [soxx_close.pct_change().rolling(self.vol_target_window).std().iloc[-1]] *)
Definition latest_target_vol (soxx_close : list num) : result num :=
  let r := pct_change 1 soxx_close in
  rolling_std_last (vol_target_window self) r.

(** What follows the computation of [vol]. The test
    [vol is None or np.isnan(vol) or vol < 1e-8] sends [NaN], any real below
    [1e-8] and [-inf] to the neutral scale; it lets [+inf] through, for which
    [ann] is [+inf] and [scale] is [T / inf = 0.0]. *)
Definition scale_of_vol (vol : num) : R :=
  match vol with
  | NaN | NInf => 1.0
  | Fin v =>
      if Rltb v 1e-8 then 1.0
      else clip (vol_scale_raw v) (min_gross self) (max_gross self)
  | PInf => clip 0 (min_gross self) (max_gross self)
  end.

Definition _vol_target_scale (soxx_close : list num) : result R :=
  vol ← latest_target_vol soxx_close;
  Ok (scale_of_vol vol).

(** Risk-adjusted momentum; the result is the score [Series] after
    [.replace([np.inf, -np.inf], np.nan).dropna()], finite values in index
    order. *)
Definition _alpha_scores (eq_close : DataFrame)
  : result (list (symbol * R)) :=
  mom ← last_row eq_close
          (fun c => default NaN (last (pct_change (mom_lookback self) c)));
  vol ← last_row eq_close
          (fun c =>
             rolling_std_at_last (vol_score_window self) (pct_change 1 c));
  let mom_z := _zscore mom.*2 in
  let vol_z := _zscore vol.*2 in
  let score :=
    zip_with (fun m v => num_sub m (num_mul (Fin 0.5) v)) mom_z vol_z in
  Ok (omap (fun p => pair p.1 <$> as_fin p.2) (zip mom.*1 score)).

(** [g / len(names)] *)
Definition per_name (g : R) (names : list symbol) : result R :=
  match names with
  | [] => Raise ZeroDivisionError
  | _ => Ok (g / INR (length names))
  end.

Definition _build_targets (score : list (symbol * R)) (regime : Z)
    (gross : R) : result (list (symbol * R)) :=
  if decide (length score < 2 * min_names_each_side self)%nat then Ok []
  else
    let score := filter (fun p => _is_tradeable p.1 = true) score in
    if decide (length score < 2 * min_names_each_side self)%nat then Ok []
    else
      let n := length score in
      let target : list (symbol * R) := [] in
      if decide (regime = 3%Z) then
        let k := Nat.max (min_names_each_side self) (int_frac 40 n) in
        let longs := (nlargest k score).*1 in
        q ← per_name gross longs;
        let w := clip q 0 (max_weight_per_name self) in
        Ok (dict_set_all target longs w)
      else if decide (regime = 2%Z) then
        let k := Nat.max (min_names_each_side self) (int_frac 30 n) in
        let longs := (nlargest k score).*1 in
        let shorts := (nsmallest k score).*1 in
        let long_g := gross * 0.50 in
        let short_g := gross * 0.50 in
        ql ← per_name long_g longs;
        let lw := clip ql 0 (max_weight_per_name self) in
        qs ← per_name (- short_g) shorts;
        let sw := clip qs (- max_weight_per_name self) 0 in
        Ok (dict_set_all (dict_set_all target longs lw) shorts sw)
      else if decide (regime = 1%Z) then
        let k := Nat.max (min_names_each_side self) (int_frac 25 n) in
        let longs := (nlargest k score).*1 in
        let shorts := (nsmallest k score).*1 in
        let long_g := gross * 0.50 in
        let short_g := gross * 0.50 in
        ql ← per_name long_g longs;
        let lw := clip ql 0 (max_weight_per_name self) in
        qs ← per_name (- short_g) shorts;
        let sw := clip qs (- max_weight_per_name self) 0 in
        Ok (dict_set_all (dict_set_all target longs lw) shorts sw)
      else
        let k := Nat.max (min_names_each_side self) (int_frac 50 n) in
        let shorts := (nsmallest k score).*1 in
        q ← per_name (- gross) shorts;
        let sw := clip q (- max_weight_per_name self) 0 in
        Ok (dict_set_all target shorts sw).
End algorithm.

(** ** The rebalance cycle *)

(** A calendar date, as its ordinal. *)
Abbreviation date := Z (only parsing).

(** What [self.History(symbols, lb, Resolution.Daily)], asked for the basket
    and the four reference instruments, and the reshape
    [hist["close"].unstack(level=0).sort_index()] give in a cycle: an empty
    frame, a frame whose reshape raises [e], or the table of closes (of at
    least one row, since the frame is not empty). *)
Inductive HistoryOutcome :=
  | HistEmpty
  | HistReshapeFails (e : string)
  | HistCloses (raw : DataFrame).

(** ["{:.2f}".format(g)], as the number of hundredths that the text shows:
    the integer nearest to [100 * g], the even one of the two when [100 * g]
    lies half-way between them. *)
Definition format_2f (g : R) : Z :=
  let x := g * 100 in
  let lo := Int_part x in
  let frac := x - IZR lo in
  if Rltb frac 0.5 then lo
  else if Rltb 0.5 frac then (lo + 1)%Z
  else if Z.even lo then lo else (lo + 1)%Z.

(** The messages of [self.Log]. The last one shows the regime, the gross
    budget with two decimals ([gross_2f], in hundredths) and the number of
    names. *)
Inductive LogRecord :=
  | NoHistory
  | ReshapeFailed (e : string)
  | Rebalanced (regime : Z) (gross_2f : Z) (names : nat).

Inductive action :=
  | Liquidate (sym : symbol)
  | SetHoldings (sym : symbol) (w : R)
  | Log (r : LogRecord).

(** What a cycle reads from the engine. [Portfolio] lists the holdings with
    their [Invested] flag, in the order of [self.Portfolio.Keys]. *)
Record Env := {
  IsWarmingUp : bool;
  Time_date : date;
  History : HistoryOutcome;
  Portfolio : list (symbol * bool);
  Securities : gmap symbol Security
}.

(** The attribute that [Rebalance] assigns. *)
Record State := {
  _last_rebalance_date : option date
}.

(** A cycle ends with a state, the actions emitted, and the exception that
    escaped, if one did. *)
Record Outcome := {
  state_after : State;
  actions : list action;
  raised : option exn
}.

Section rebalance.
Variable self : Config.

(** [.ffill().bfill()] on every column. *)
Definition fill (raw : DataFrame) : DataFrame :=
  {| df_rows := df_rows raw;
     df_columns := map (fun c => (c.1, bfill (ffill c.2))) (df_columns raw) |}.

Definition base_gross (regime : Z) : R :=
  if decide (regime = 3%Z) then gross_bull self
  else if decide (regime = 2%Z) then gross_mixed self
  else if decide (regime = 1%Z) then gross_neutral self
  else gross_bear self.

(** [float(np.clip(base_gross * gross_scale, 0.0, self.max_gross))] *)
Definition gross_budget (regime : Z) (gross_scale : R) : R :=
  clip (base_gross regime * gross_scale) 0.0 (max_gross self).

(** From the table of closes to the target weights: the regime, the gross
    budget and the target dictionary. *)
Definition compute_targets (secs : gmap symbol Security) (close : DataFrame)
  : result (Z * R * list (symbol * R)) :=
  regime ← _compute_regime_score self close;
  soxx_close ← getitem close (soxx self);
  gross_scale ← _vol_target_scale self soxx_close;
  let gross := gross_budget regime gross_scale in
  let eq_close := select_present close (semis self) in
  score ← _alpha_scores self eq_close;
  target ← _build_targets self secs score regime gross;
  Ok (regime, gross, target).

(** The two loops over the holdings and over [target.items()]. *)
Definition liquidations (portfolio : list (symbol * bool))
    (target : list (symbol * R)) : list action :=
  omap (fun h =>
          if h.2 && negb (bool_decide (h.1 ∈ dict_keys target))
          then Some (Liquidate h.1) else None) portfolio.

Definition set_holdings (secs : gmap symbol Security)
    (target : list (symbol * R)) : list action :=
  omap (fun e =>
          if _is_tradeable secs e.1 then Some (SetHoldings e.1 e.2)
          else None) target.

Definition Rebalance (st : State) (env : Env) : Outcome :=
  if IsWarmingUp env then
    {| state_after := st; actions := []; raised := None |}
  else if decide (_last_rebalance_date st = Some (Time_date env)) then
    {| state_after := st; actions := []; raised := None |}
  else
    let st := {| _last_rebalance_date := Some (Time_date env) |} in
    match History env with
    | HistEmpty =>
        {| state_after := st; actions := [Log NoHistory]; raised := None |}
    | HistReshapeFails e =>
        {| state_after := st; actions := [Log (ReshapeFailed e)];
           raised := None |}
    | HistCloses raw =>
        let close := fill raw in
        match compute_targets (Securities env) close with
        | Raise e => {| state_after := st; actions := []; raised := Some e |}
        | Ok (regime, gross, target) =>
            {| state_after := st;
               actions :=
                 liquidations (Portfolio env) target ++
                 set_holdings (Securities env) target ++
                 [Log (Rebalanced regime (format_2f gross) (length target))];
               raised := None |}
        end
    end.
End rebalance.

(** ** Quantities the properties speak of *)

(** The sum of the long (positive) weights of a target map, and of its short
    (negative) ones. *)
Definition long_sum (target : list (symbol * R)) : R :=
  Rsum (map (fun e => Rmax e.2 0) target).

Definition short_sum (target : list (symbol * R)) : R :=
  Rsum (map (fun e => Rmin e.2 0) target).

(** The selection fraction, in percent, of the two regimes that hold both
    sides: 30 for the mixed regime (2), 25 for the neutral one (1). *)
Definition two_sided_pct (regime : Z) : nat :=
  if decide (regime = 2%Z) then 30%nat else 25%nat.

(** Names for the sub-expressions of the branches of [_build_targets] for
    the regimes 2 and 1: the tradable part of the score map, [k], the two
    selections and the two capped weights. *)
Definition tradable_part (secs : gmap symbol Security)
    (score : list (symbol * R)) : list (symbol * R) :=
  filter (fun p => _is_tradeable secs p.1 = true) score.

Definition two_sided_k (cfg : Config) (regime : Z) (n : nat) : nat :=
  Nat.max (min_names_each_side cfg) (int_frac (two_sided_pct regime) n).

Definition two_sided_longs (cfg : Config) (secs : gmap symbol Security)
    (score : list (symbol * R)) (regime : Z) : list symbol :=
  let tradable := tradable_part secs score in
  (nlargest (two_sided_k cfg regime (length tradable)) tradable).*1.

Definition two_sided_shorts (cfg : Config) (secs : gmap symbol Security)
    (score : list (symbol * R)) (regime : Z) : list symbol :=
  let tradable := tradable_part secs score in
  (nsmallest (two_sided_k cfg regime (length tradable)) tradable).*1.

Definition long_weight (cfg : Config) (gross : R) (longs : list symbol) : R :=
  clip (gross * 0.50 / INR (length longs)) 0 (max_weight_per_name cfg).

Definition short_weight (cfg : Config) (gross : R) (shorts : list symbol)
  : R :=
  clip (- (gross * 0.50) / INR (length shorts)) (- max_weight_per_name cfg) 0.

(** The daily returns of a sequence of closes, [c_i / c_(i-1) - 1], from the
    second close on. *)
Definition returns (cs : list R) : list R :=
  zip_with (fun cur prev => cur / prev - 1) (tail cs) cs.

(** The gross and the net exposure of a target map: the sum of the absolute
    weights, and the sum of the weights. *)
Definition gross_exposure (target : list (symbol * R)) : R :=
  Rsum (map (fun e => Rabs e.2) target).

Definition net_exposure (target : list (symbol * R)) : R :=
  Rsum (map (fun e => e.2) target).

(** The selection fraction of each branch of [_build_targets], in percent,
    and the [k] it gives among [n] tradable instruments. *)
Definition regime_pct (regime : Z) : nat :=
  if decide (regime = 3%Z) then 40%nat
  else if decide (regime = 2%Z) then 30%nat
  else if decide (regime = 1%Z) then 25%nat
  else 50%nat.

Definition selection_k (cfg : Config) (regime : Z) (n : nat) : nat :=
  Nat.max (min_names_each_side cfg) (int_frac (regime_pct regime) n).

(** The orders among the actions of a cycle: the weights passed to
    [SetHoldings], in order, and the instruments passed to [Liquidate]. *)
Definition ordered_weights (acts : list action) : list (symbol * R) :=
  omap (fun a => match a with SetHoldings s w => Some (s, w) | _ => None end)
    acts.

Definition liquidated (acts : list action) : list symbol :=
  omap (fun a => match a with Liquidate s => Some s | _ => None end) acts.

(** The holdings that are invested, in the order of [self.Portfolio.Keys]. *)
Definition invested (portfolio : list (symbol * bool)) : list symbol :=
  (filter (fun h => h.2 = true) portfolio).*1.

(** ** Sample inputs *)

Definition tradable_security (price : R) : Security :=
  {| IsTradable := true; HasData := true; Price := Some price |}.

(** Ten instruments of the basket, all tradable. *)
Definition ten_symbols : list symbol :=
  ["NVDA"; "AMD"; "AVGO"; "QCOM"; "TXN"; "INTC"; "MU"; "ADI"; "ON"; "MCHP"].

(** The securities of the instruments [names], tradable at [price]. *)
Definition universe_of (names : list symbol) (price : R)
  : gmap symbol Security :=
  list_to_map (map (fun s => (s, tradable_security price)) names).

Definition ten_securities : gmap symbol Security := universe_of ten_symbols 50.

(** Only the first seven can be traded. *)
Definition seven_securities : gmap symbol Security :=
  universe_of (take 7 ten_symbols) 50.

Definition ten_scores : list (symbol * R) :=
  [("NVDA", 1.5); ("AMD", -0.25); ("AVGO", 0.75); ("QCOM", -1.0);
   ("TXN", 0.1); ("INTC", -1.75); ("MU", 0.5); ("ADI", -0.5);
   ("ON", 0.0); ("MCHP", 1.0)].

(** The degenerate scores of a constant price history: all equal. *)
Definition tied_scores : list (symbol * R) :=
  map (fun s => (s, 0)) ten_symbols.

(** A table with the four reference columns and no row. *)
Definition no_rows : DataFrame :=
  {| df_rows := 0;
     df_columns := [("SOXX", []); ("SPY", []); ("IEF", []); ("SHY", [])] |}.

(** A table with the four reference columns and one row. *)
Definition one_row : DataFrame :=
  {| df_rows := 1;
     df_columns := [("SOXX", [Fin 200]); ("SPY", [Fin 500]);
                    ("IEF", [Fin 95]); ("SHY", [Fin 82])] |}.

(** Closes of the semiconductor proxy: twenty-one days at one price. *)
Definition flat_closes : list num := replicate 21 (Fin 100).

(** The attributes with other lookbacks and windows. *)
Definition with_windows (mom vol_score vol_target ma : nat) (c : Config)
  : Config :=
  {| mom_lookback := mom;
     vol_score_window := vol_score;
     vol_target_window := vol_target;
     regime_ma := ma;
     target_annual_vol := target_annual_vol c;
     max_gross := max_gross c;
     min_gross := min_gross c;
     min_names_each_side := min_names_each_side c;
     max_weight_per_name := max_weight_per_name c;
     gross_bull := gross_bull c;
     gross_mixed := gross_mixed c;
     gross_neutral := gross_neutral c;
     gross_bear := gross_bear c;
     soxx := soxx c;
     spy := spy c;
     ief := ief c;
     shy := shy c;
     semis := semis c |}.

(** Lookbacks and windows of two days, for histories of a few rows. *)
Definition two_day_config : Config := with_windows 2 2 2 2 initial_config.

(** A flat market: three days at one price for the four reference
    instruments and for ten instruments of the basket. *)
Definition flat_market : DataFrame :=
  {| df_rows := 3;
     df_columns :=
       map (fun s => (s, replicate 3 (Fin 100)))
         (["SOXX"; "SPY"; "IEF"; "SHY"] ++ ten_symbols) |}.

(** Three closes: one percent up, then one percent down. *)
Definition swing_closes : list num := [Fin 100; Fin 101; Fin 99.99].

(** Twenty-one closes of the proxy: twenty days at 1, then a close of 1e200.
    The last return is within the range of binary64, its square is not. *)
Definition overflowing_closes : list num := replicate 20 (Fin 1) ++ [Fin 1e200].

(** Two values around zero. *)
Definition plus_minus_one : list R := [1; -1].

(** The flat market without the column of the semiconductor proxy. *)
Definition market_without_soxx : DataFrame :=
  {| df_rows := 3;
     df_columns :=
       map (fun s => (s, replicate 3 (Fin 100)))
         (["SPY"; "IEF"; "SHY"] ++ ten_symbols) |}.

(** An engine that is past its warm-up and returns an empty history. *)
Definition empty_history_env : Env :=
  {| IsWarmingUp := false;
     Time_date := 739000;
     History := HistEmpty;
     Portfolio := [("NVDA", true)];
     Securities := ten_securities |}.

Definition reshape_failure_env : Env :=
  {| IsWarmingUp := false;
     Time_date := 739000;
     History := HistReshapeFails "Index contains duplicate entries";
     Portfolio := [("NVDA", true)];
     Securities := ten_securities |}.

Definition fresh_state : State := {| _last_rebalance_date := None |}.

(** The same ten instruments at other prices. *)
Definition ten_securities_repriced : gmap symbol Security :=
  universe_of ten_symbols 75.

(** Two cycles on the same one-row history and the same holdings, on two
    dates, the prices having moved. *)
Definition first_cycle_env : Env :=
  {| IsWarmingUp := false;
     Time_date := 739000;
     History := HistCloses one_row;
     Portfolio := [("NVDA", true); ("AMD", false)];
     Securities := ten_securities |}.

Definition second_cycle_env : Env :=
  {| IsWarmingUp := false;
     Time_date := 739001;
     History := HistCloses one_row;
     Portfolio := [("NVDA", true); ("AMD", false)];
     Securities := ten_securities_repriced |}.

(** A cycle on the flat market, and one on the market that lacks the
    proxy. *)
Definition flat_market_env : Env :=
  {| IsWarmingUp := false;
     Time_date := 739000;
     History := HistCloses flat_market;
     Portfolio := [("NVDA", true); ("AMD", false); ("TER", true)];
     Securities := ten_securities |}.

Definition no_proxy_env : Env :=
  {| IsWarmingUp := false;
     Time_date := 739000;
     History := HistCloses market_without_soxx;
     Portfolio := [("NVDA", true)];
     Securities := ten_securities |}.

(** * Properties *)

(** ** Deciding comparisons of reals *)

Lemma Rltb_true x y : x < y -> Rltb x y = true.
Proof. unfold Rltb; destruct (Rlt_dec x y); [reflexivity | contradiction]. Qed.

Lemma Rltb_false x y : ~ x < y -> Rltb x y = false.
Proof. unfold Rltb; destruct (Rlt_dec x y); [contradiction | reflexivity]. Qed.

Lemma Rleb_true x y : x <= y -> Rleb x y = true.
Proof. unfold Rleb; destruct (Rle_dec x y); [reflexivity | contradiction]. Qed.

Lemma Rleb_false x y : ~ x <= y -> Rleb x y = false.
Proof. unfold Rleb; destruct (Rle_dec x y); [contradiction | reflexivity]. Qed.

Lemma Rltb_spec x y : reflect (x < y) (Rltb x y).
Proof.
  unfold Rltb; destruct (Rlt_dec x y); constructor; assumption.
Qed.

Lemma Rleb_spec x y : reflect (x <= y) (Rleb x y).
Proof.
  unfold Rleb; destruct (Rle_dec x y); constructor; assumption.
Qed.

Global Opaque Rltb Rleb.

(** ** The range of binary64 *)

Lemma float_max_bounds : 1e308 < float_max < 1e309.
Proof. unfold float_max, float_max_Z. split; lra. Qed.

Global Opaque float_max.

Lemma float_range_Fin r :
  - 1e308 <= r <= 1e308 -> float_range (Fin r) = Fin r.
Proof.
  intros Hr. pose proof float_max_bounds. unfold float_range.
  rewrite Rltb_false; [done|]. apply Rle_not_lt.
  apply Rabs_le. lra.
Qed.

Lemma float_std_Fin rs : sum_sq_dev rs <= 1e308 -> float_std rs = Fin (Rstd rs).
Proof.
  intros Hr. pose proof float_max_bounds. unfold float_std.
  by rewrite Rltb_false by lra.
Qed.

Lemma float_std_overflow rs : 1e309 <= sum_sq_dev rs -> float_std rs = PInf.
Proof.
  intros Hr. pose proof float_max_bounds. unfold float_std.
  by rewrite Rltb_true by lra.
Qed.

Arguments float_range : simpl never.
Arguments float_std : simpl never.

(** Decides every comparison of concrete reals in the goal, and the range
    tests on concrete reals. *)
Ltac Rdecide :=
  repeat match goal with
  | |- context [float_range (Fin ?r)] => rewrite (float_range_Fin r) by lra
  | |- context [float_range NaN] => change (float_range NaN) with NaN
  | |- context [float_range PInf] => change (float_range PInf) with PInf
  | |- context [float_range NInf] => change (float_range NInf) with NInf
  | |- context [float_std ?rs] =>
      rewrite (float_std_Fin rs) by (unfold sum_sq_dev, Rmean; simpl; lra)
  | |- context [Rltb ?a ?b] =>
      first [ rewrite (Rltb_true a b) by lra
            | rewrite (Rltb_false a b) by lra ]
  | |- context [Rleb ?a ?b] =>
      first [ rewrite (Rleb_true a b) by lra
            | rewrite (Rleb_false a b) by lra ]
  end.

(** ** Clipping *)

Lemma clip_between x lo hi : lo <= hi -> lo <= clip x lo hi <= hi.
Proof.
  intros Hle. unfold clip, Rmin, Rmax.
  repeat destruct (Rle_dec _ _); lra.
Qed.

Lemma clip_le_arg x lo hi : lo <= x -> clip x lo hi <= x.
Proof.
  intros Hle. unfold clip, Rmin, Rmax.
  repeat destruct (Rle_dec _ _); lra.
Qed.

Lemma clip_ge_arg x lo hi : x <= hi -> x <= clip x lo hi.
Proof.
  intros Hle. unfold clip, Rmin, Rmax.
  repeat destruct (Rle_dec _ _); lra.
Qed.

Lemma clip_at_hi x lo hi : lo <= hi -> hi <= x -> clip x lo hi = hi.
Proof.
  intros H1 H2. unfold clip, Rmin, Rmax.
  repeat destruct (Rle_dec _ _); lra.
Qed.

Lemma clip_at_lo x lo hi : lo <= hi -> x <= lo -> clip x lo hi = lo.
Proof.
  intros H1 H2. unfold clip, Rmin, Rmax.
  repeat destruct (Rle_dec _ _); lra.
Qed.

Lemma clip_inside x lo hi : lo <= x <= hi -> clip x lo hi = x.
Proof.
  intros H. unfold clip, Rmin, Rmax.
  repeat destruct (Rle_dec _ _); lra.
Qed.

(** ** Dictionaries *)

Section dict_facts.
Context {K V : Type} `{EqDecision K}.
Implicit Types (d : list (K * V)) (k : K) (v : V) (ks : list K).

Lemma dict_get_set d k v k' :
  dict_get (dict_set d k v) k' =
  if decide (k' = k) then Some v else dict_get d k'.
Proof.
  induction d as [|[k0 v0] d IH]; simpl.
  - repeat case_decide; congruence.
  - destruct (decide (k = k0)) as [->|Hne]; simpl.
    + repeat case_decide; congruence.
    + rewrite IH. repeat case_decide; congruence.
Qed.

Lemma dict_get_set_all d ks v k' :
  dict_get (dict_set_all d ks v) k' =
  if decide (k' ∈ ks) then Some v else dict_get d k'.
Proof.
  unfold dict_set_all. revert d.
  induction ks as [|k ks IH]; intros d; simpl.
  - destruct (decide (k' ∈ [])) as [Hin|_]; [by apply elem_of_nil in Hin | done].
  - rewrite IH, dict_get_set.
    destruct (decide (k' ∈ ks)) as [Hin|Hnin].
    + rewrite decide_True by (by right). done.
    + destruct (decide (k' = k)) as [->|Hne].
      * rewrite decide_True by (by left). done.
      * rewrite decide_False; [done|].
        intros [->|?]%elem_of_cons; done.
Qed.

Lemma dict_get_Some_elem d k v : dict_get d k = Some v -> (k, v) ∈ d.
Proof.
  induction d as [|[k0 v0] d IH]; simpl; [done|].
  case_decide as Heq.
  - intros [= ->]. subst. by left.
  - intros. right. auto.
Qed.

Lemma dict_get_None d k : dict_get d k = None <-> k ∉ dict_keys d.
Proof.
  unfold dict_keys. induction d as [|[k0 v0] d IH]; simpl.
  - split; [intros _; apply not_elem_of_nil | done].
  - rewrite not_elem_of_cons. case_decide; [|tauto].
    split; [done | tauto].
Qed.

Lemma elem_dict_get d k v :
  NoDup (dict_keys d) -> (k, v) ∈ d -> dict_get d k = Some v.
Proof.
  unfold dict_keys. induction d as [|[k0 v0] d IH]; simpl.
  - intros _ Hin. by apply elem_of_nil in Hin.
  - rewrite NoDup_cons. intros [Hnin Hnd] Hin.
    apply elem_of_cons in Hin as [[= -> ->]|Hin].
    + by rewrite decide_True.
    + rewrite decide_False; [by apply IH|].
      intros ->. apply Hnin. change k0 with ((k0, v).1).
      by apply list_elem_of_fmap_2.
Qed.

Lemma dict_keys_set d k v :
  dict_keys (dict_set d k v) =
  if decide (k ∈ dict_keys d) then dict_keys d else dict_keys d ++ [k].
Proof.
  unfold dict_keys. induction d as [|[k0 v0] d IH]; csimpl.
  - done.
  - destruct (decide (k = k0)) as [->|Hne]; csimpl.
    + rewrite decide_True by (by left). done.
    + rewrite IH. destruct (decide (k ∈ d.*1)) as [Hin|Hnin].
      * rewrite decide_True by (by right). done.
      * rewrite decide_False; [done|].
        intros [?|?]%elem_of_cons; done.
Qed.

Lemma dict_keys_set_NoDup d k v :
  NoDup (dict_keys d) -> NoDup (dict_keys (dict_set d k v)).
Proof.
  intros Hnd. rewrite dict_keys_set. case_decide; [done|].
  apply NoDup_app. split_and!; [done| |apply NoDup_singleton].
  intros x Hx ->%list_elem_of_singleton. done.
Qed.

Lemma dict_keys_set_all_NoDup d ks v :
  NoDup (dict_keys d) -> NoDup (dict_keys (dict_set_all d ks v)).
Proof.
  unfold dict_set_all. revert d.
  induction ks as [|k ks IH]; intros d Hnd; simpl; [done|].
  apply IH. by apply dict_keys_set_NoDup.
Qed.

Lemma dict_keys_set_all_elem d ks v k :
  k ∈ dict_keys (dict_set_all d ks v) <-> k ∈ dict_keys d \/ k ∈ ks.
Proof.
  unfold dict_set_all. revert d.
  induction ks as [|k0 ks IH]; intros d; simpl.
  - rewrite elem_of_nil. tauto.
  - rewrite IH, dict_keys_set, elem_of_cons.
    destruct (decide (k0 ∈ dict_keys d)) as [Hin|Hnin].
    + split; [tauto | intros [?|[->|?]]; auto].
    + rewrite elem_of_app, list_elem_of_singleton. tauto.
Qed.

(** Filling an empty dictionary from a list without repetition. *)
Lemma dict_set_all_fresh d ks v :
  NoDup ks -> (forall k, k ∈ ks -> k ∉ dict_keys d) ->
  dict_set_all d ks v = d ++ map (fun k => (k, v)) ks.
Proof.
  unfold dict_set_all. revert d.
  induction ks as [|k ks IH]; intros d Hnd Hfresh; simpl.
  - by rewrite app_nil_r.
  - apply NoDup_cons in Hnd as [Hk Hnd].
    assert (Hset : dict_set d k v = d ++ [(k, v)]).
    { assert (Hkd : k ∉ dict_keys d) by (apply Hfresh; by left).
      clear -Hkd. unfold dict_keys in Hkd.
      induction d as [|[k0 v0] d IH]; simpl; [done|].
      simpl in Hkd. apply not_elem_of_cons in Hkd as [Hne Hkd].
      rewrite decide_False by done. by rewrite IH. }
    rewrite Hset, IH; [by rewrite <- app_assoc | done |].
    intros k' Hk'. unfold dict_keys. rewrite fmap_app. simpl.
    rewrite elem_of_app, list_elem_of_singleton.
    intros [Hin| ->]; [|done].
    eapply Hfresh; [by right | done].
Qed.
End dict_facts.

(** ** Selection by rank *)

Section sort_facts.
Variable le : R -> R -> bool.
Implicit Types (x y : symbol * R) (l : list (symbol * R)).

Lemma insert_by_Permutation x l : insert_by le x l ≡ₚ x :: l.
Proof.
  induction l as [|y l IH]; simpl; [done|].
  destruct (le x.2 y.2); [done|].
  rewrite IH. apply Permutation_swap.
Qed.

Lemma stable_sort_Permutation l : stable_sort le l ≡ₚ l.
Proof.
  induction l as [|x l IH]; simpl; [done|].
  rewrite insert_by_Permutation. by rewrite IH.
Qed.

Lemma stable_sort_length l : length (stable_sort le l) = length l.
Proof. by rewrite stable_sort_Permutation. Qed.

Lemma stable_sort_elem x l : x ∈ stable_sort le l <-> x ∈ l.
Proof. by rewrite stable_sort_Permutation. Qed.

Lemma stable_sort_NoDup_keys l : NoDup l.*1 -> NoDup (stable_sort le l).*1.
Proof. by rewrite stable_sort_Permutation. Qed.

Hypothesis le_total : forall a b, le a b = true \/ le b a = true.
Hypothesis le_trans :
  forall a b c, le a b = true -> le b c = true -> le a c = true.

Let leP x y : Prop := le x.2 y.2 = true.

Lemma insert_by_sorted x l :
  StronglySorted leP l -> StronglySorted leP (insert_by le x l).
Proof.
  induction l as [|y l IH]; simpl; intros Hs.
  - repeat constructor.
  - apply StronglySorted_cons in Hs as [Hy Hs].
    destruct (le x.2 y.2) eqn:Hxy.
    + apply StronglySorted_cons. split.
      * constructor; [done|].
        eapply Forall_impl; [exact Hy|]. intros z Hz. unfold leP in *.
        eauto.
      * by apply StronglySorted_cons.
    + apply StronglySorted_cons. split; [|by apply IH].
      rewrite insert_by_Permutation. constructor; [|done].
      unfold leP. destruct (le_total x.2 y.2); congruence.
Qed.

Lemma stable_sort_sorted l : StronglySorted leP (stable_sort le l).
Proof.
  induction l as [|x l IH]; simpl; [constructor|].
  by apply insert_by_sorted.
Qed.

(** Whatever is left out of the first [k] ranks after whatever is in. *)
Lemma take_sorted_extreme k l x y :
  NoDup l.*1 ->
  x ∈ take k (stable_sort le l) -> y ∈ l ->
  y ∉ take k (stable_sort le l) ->
  le x.2 y.2 = true.
Proof.
  intros Hnd Hx Hy Hny.
  pose proof (stable_sort_sorted l) as Hs.
  rewrite <- (take_drop k (stable_sort le l)) in Hs.
  eapply (StronglySorted_app_1_elem_of leP); [exact Hs | exact Hx |].
  apply stable_sort_elem in Hy.
  rewrite <- (take_drop k (stable_sort le l)) in Hy.
  apply elem_of_app in Hy as [?|?]; done.
Qed.
End sort_facts.

Lemma Rleb_total a b : Rleb a b = true \/ Rleb b a = true.
Proof.
  destruct (Rle_dec a b).
  - left. by apply Rleb_true.
  - right. apply Rleb_true. lra.
Qed.

Lemma Rleb_trans a b c :
  Rleb a b = true -> Rleb b c = true -> Rleb a c = true.
Proof.
  intros H1 H2.
  destruct (Rleb_spec a b), (Rleb_spec b c); try done.
  apply Rleb_true. lra.
Qed.

Lemma take_keys_NoDup k (l : list (symbol * R)) :
  NoDup l.*1 -> NoDup (take k l).*1.
Proof.
  intros Hnd. rewrite fmap_take.
  eapply sublist_NoDup; [done | apply sublist_take].
Qed.

Lemma nsmallest_length k score :
  length (nsmallest k score) = Nat.min k (length score).
Proof. unfold nsmallest. by rewrite length_take, stable_sort_length. Qed.

Lemma nlargest_length k score :
  length (nlargest k score) = Nat.min k (length score).
Proof. unfold nlargest. by rewrite length_take, stable_sort_length. Qed.

Lemma nsmallest_NoDup k score :
  NoDup score.*1 -> NoDup (nsmallest k score).*1.
Proof. intros. by apply take_keys_NoDup, stable_sort_NoDup_keys. Qed.

Lemma nlargest_NoDup k score :
  NoDup score.*1 -> NoDup (nlargest k score).*1.
Proof. intros. by apply take_keys_NoDup, stable_sort_NoDup_keys. Qed.

Lemma nsmallest_elem k score x : x ∈ nsmallest k score -> x ∈ score.
Proof.
  unfold nsmallest. intros Hx.
  eapply stable_sort_elem, elem_of_submseteq; [exact Hx|].
  apply sublist_submseteq, sublist_take.
Qed.

Lemma nlargest_elem k score x : x ∈ nlargest k score -> x ∈ score.
Proof.
  unfold nlargest. intros Hx.
  eapply stable_sort_elem, elem_of_submseteq; [exact Hx|].
  apply sublist_submseteq, sublist_take.
Qed.

(** The selected entries are the lowest: none left out scores below one
    that is in. *)
Lemma nsmallest_lowest k score x y :
  NoDup score.*1 ->
  x ∈ nsmallest k score -> y ∈ score -> y ∉ nsmallest k score ->
  x.2 <= y.2.
Proof.
  intros Hnd Hx Hy Hny.
  pose proof (take_sorted_extreme Rleb Rleb_total Rleb_trans k score x y
                Hnd Hx Hy Hny) as Hle.
  by destruct (Rleb_spec x.2 y.2).
Qed.

Lemma nlargest_highest k score x y :
  NoDup score.*1 ->
  x ∈ nlargest k score -> y ∈ score -> y ∉ nlargest k score ->
  y.2 <= x.2.
Proof.
  intros Hnd Hx Hy Hny.
  assert (Htot : forall a b, Rleb b a = true \/ Rleb a b = true)
    by (intros; apply Rleb_total).
  assert (Htr : forall a b c,
             Rleb b a = true -> Rleb c b = true -> Rleb c a = true)
    by (intros; eapply Rleb_trans; eauto).
  pose proof (take_sorted_extreme (fun a b => Rleb b a) Htot Htr k score x y
                Hnd Hx Hy Hny) as Hle.
  simpl in Hle. by destruct (Rleb_spec y.2 x.2).
Qed.

(** ** The portfolio constructor *)

Lemma elem_dict_set {K V} `{EqDecision K} (d : list (K * V)) k v e :
  e ∈ dict_set d k v -> e = (k, v) \/ e ∈ d.
Proof.
  induction d as [|[k0 v0] d IH]; simpl.
  - intros ->%list_elem_of_singleton. by left.
  - destruct (decide (k = k0)) as [->|Hne].
    + intros [->|?]%elem_of_cons; [by left|]. right. by right.
    + intros [->|Hin]%elem_of_cons; [right; by left|].
      destruct (IH Hin) as [?|?]; [by left|]. right. by right.
Qed.

Lemma elem_dict_set_all {K V} `{EqDecision K} (d : list (K * V)) ks v e :
  e ∈ dict_set_all d ks v -> (e.2 = v /\ e.1 ∈ ks) \/ e ∈ d.
Proof.
  unfold dict_set_all. revert d.
  induction ks as [|k ks IH]; intros d; simpl; [by right|].
  intros [[? ?]|[->|?]%elem_dict_set]%IH; [left|left|by right].
  - split; [done | by right].
  - split; [done | by left].
Qed.

Lemma per_name_ok g names :
  names <> [] -> per_name g names = Ok (g / INR (length names)).
Proof. by destruct names. Qed.

Lemma selection_nonempty (sel : nat -> list (symbol * R) -> list (symbol * R))
    m j (l : list (symbol * R)) :
  (forall k, length (sel k l) = Nat.min k (length l)) ->
  (1 <= m)%nat -> (2 * m <= length l)%nat ->
  (sel (Nat.max m j) l).*1 <> [].
Proof.
  intros Hlen Hm Hl Hnil. apply (f_equal length) in Hnil.
  rewrite length_fmap, Hlen in Hnil. simpl in Hnil. lia.
Qed.

(** C3: for every score map, regime label and gross budget, every weight [w]
    in the map the constructor returns has [|w| <= max_weight_per_name] (the
    cap not being negative); and with at least one name per side the
    constructor does return a map. *)
Theorem C3_weights_within_cap cfg secs score regime gross :
  0 <= max_weight_per_name cfg ->
  (forall target,
     _build_targets cfg secs score regime gross = Ok target ->
     forall s w, (s, w) ∈ target -> Rabs w <= max_weight_per_name cfg) /\
  ((1 <= min_names_each_side cfg)%nat ->
   exists target, _build_targets cfg secs score regime gross = Ok target).
Proof.
  intros Hcap. unfold _build_targets.
  set (cap := max_weight_per_name cfg) in *.
  set (m := min_names_each_side cfg) in *.
  assert (Hlow : forall x, Rabs (clip x (- cap) 0) <= cap).
  { intros x. pose proof (clip_between x (- cap) 0).
    apply Rabs_le. lra. }
  assert (Hhigh : forall x, Rabs (clip x 0 cap) <= cap).
  { intros x. pose proof (clip_between x 0 cap).
    apply Rabs_le. lra. }
  split.
  - intros target Hok s w Hin.
    repeat case_decide;
      repeat match type of Hok with
      | context [per_name ?g ?l] => destruct (per_name g l); simpl in Hok
      end;
      try discriminate; injection Hok as <-;
      repeat (apply elem_dict_set_all in Hin as [[Hin _]|Hin];
              [simpl in Hin; subst w; auto|]);
      by apply elem_of_nil in Hin.
  - intros Hm.
    destruct (decide (length score < 2 * m)%nat); [by exists []|].
    set (score' := filter _ score).
    destruct (decide (length score' < 2 * m)%nat) as [|Hn]; [by exists []|].
    assert (Hl : forall j, (nlargest (Nat.max m j) score').*1 <> []).
    { intros j. apply (selection_nonempty nlargest);
        [intros; apply nlargest_length | done | lia]. }
    assert (Hs : forall j, (nsmallest (Nat.max m j) score').*1 <> []).
    { intros j. apply (selection_nonempty nsmallest);
        [intros; apply nsmallest_length | done | lia]. }
    repeat case_decide;
      rewrite ?(per_name_ok _ _ (Hl _)), ?(per_name_ok _ _ (Hs _)); simpl;
      by eexists.
Qed.

(** Its use at the attributes of [Initialize], in the bull regime. *)
Lemma C3_weights_within_cap_witness :
  0 <= max_weight_per_name initial_config /\
  exists target,
    _build_targets initial_config ten_securities ten_scores 3 1 = Ok target /\
    forall s w, (s, w) ∈ target ->
      Rabs w <= max_weight_per_name initial_config.
Proof.
  assert (H0 : 0 <= max_weight_per_name initial_config) by (simpl; lra).
  split; [exact H0|].
  destruct (C3_weights_within_cap initial_config ten_securities ten_scores
              3 1 H0) as [Hbound Htotal].
  destruct Htotal as [target Hok]; [simpl; lia|].
  exists target. split; [exact Hok | exact (Hbound target Hok)].
Defined.

Lemma build_targets_below_floor cfg secs score regime gross :
  (length (filter (fun p => _is_tradeable secs p.1 = true) score)
     < 2 * min_names_each_side cfg)%nat ->
  _build_targets cfg secs score regime gross = Ok [].
Proof.
  intros Hlt. unfold _build_targets.
  destruct (decide (length score < 2 * min_names_each_side cfg)%nat);
    [done|].
  by rewrite decide_True.
Qed.

(** C4: when fewer than [2 * min_names_each_side] instruments of the score
    map are tradable, the constructor returns the empty map, whatever the
    regime and the gross budget. *)
Theorem C4_universe_floor cfg secs score regime gross :
  (length (filter (fun p => _is_tradeable secs p.1 = true) score)
     < 2 * min_names_each_side cfg)%nat ->
  _build_targets cfg secs score regime gross = Ok [].
Proof. apply build_targets_below_floor. Qed.

Lemma filter_all {A} (P : A -> Prop) `{forall x, Decision (P x)} (l : list A) :
  Forall P l -> filter P l = l.
Proof.
  induction 1 as [|x l Hx _ IH]; [done|].
  rewrite filter_cons, decide_True by done. by rewrite IH.
Qed.

Lemma is_tradeable_lookup secs sym sec p :
  secs !! sym = Some sec -> IsTradable sec = true -> HasData sec = true ->
  Price sec = Some p -> 0 < p -> _is_tradeable secs sym = true.
Proof.
  intros Hl Ht Hd Hp Hpos. unfold _is_tradeable.
  rewrite Hl, Ht, Hd, Hp. simpl. by apply Rltb_true.
Qed.

(** In a universe of tradable securities the tradable symbols are its
    names. *)
Lemma is_tradeable_universe names price sym :
  0 < price ->
  _is_tradeable (universe_of names price) sym = bool_decide (sym ∈ names).
Proof.
  intros Hpos. unfold _is_tradeable, universe_of.
  destruct (decide (sym ∈ names)) as [Hin|Hnin].
  - rewrite bool_decide_eq_true_2 by done.
    rewrite (elem_of_list_to_map_1' _ sym (tradable_security price)).
    + simpl. by apply Rltb_true.
    + intros y (s' & [= _ ->] & _)%list_elem_of_fmap. done.
    + by apply (list_elem_of_fmap_2 (fun s => (s, tradable_security price))).
  - rewrite bool_decide_eq_false_2 by done.
    rewrite (proj1 (not_elem_of_list_to_map _ _)); [done|].
    by rewrite <- list_fmap_compose, list_fmap_id.
Qed.

Lemma ten_symbols_tradeable sym :
  sym ∈ ten_symbols -> _is_tradeable ten_securities sym = true.
Proof.
  intros Hin. unfold ten_securities.
  rewrite is_tradeable_universe by lra. by apply bool_decide_eq_true_2.
Qed.

Lemma ten_scores_tradeable :
  Forall (fun p => _is_tradeable ten_securities p.1 = true) ten_scores.
Proof.
  apply Forall_forall. intros [s v] Hin. apply ten_symbols_tradeable.
  apply (list_elem_of_fmap_2 fst) in Hin. exact Hin.
Qed.

Lemma ten_scores_NoDup : NoDup ten_scores.*1.
Proof. apply (@bool_decide_unpack _ (NoDup_dec _)). vm_compute. exact I. Qed.

(** C6: in the bear regime (0), with ten tradable instruments, gross budget
    0.8, cap 0.12 and four names per side at least, [k] is
    [max(4, floor(0.50 * 10)) = 5], the map has exactly five entries, those of
    the five lowest scores, each with weight [clip(-0.8/5, -0.12, 0) = -0.12]. *)
Theorem C6_bear_scenario secs score :
  NoDup score.*1 ->
  length score = 10%nat ->
  Forall (fun p => _is_tradeable secs p.1 = true) score ->
  let k := Nat.max (min_names_each_side initial_config) (int_frac 50 10) in
  let shorts := nsmallest k score in
  k = 5%nat /\
  clip (- 0.8 / 5) (- 0.12) 0 = - 0.12 /\
  _build_targets initial_config secs score 0 0.8
    = Ok (map (fun p => (p.1, - 0.12)) shorts) /\
  length shorts = 5%nat /\
  (forall x y, x ∈ shorts -> y ∈ score -> y ∉ shorts -> x.2 <= y.2).
Proof.
  intros Hnd Hlen Hall k shorts.
  assert (Hk : k = 5%nat) by reflexivity.
  assert (Hclip : clip (- 0.8 / 5) (- 0.12) 0 = - 0.12)
    by (apply clip_at_lo; lra).
  assert (Hshorts : length shorts = 5%nat).
  { unfold shorts. rewrite nsmallest_length, Hk, Hlen. reflexivity. }
  split_and!; [done | done | | done |].
  - unfold _build_targets. simpl.
    rewrite (filter_all _ _ Hall), Hlen. simpl.
    change (nsmallest 5 score) with shorts.
    rewrite per_name_ok.
    2: { intros Hnil. apply (f_equal length) in Hnil.
         rewrite length_fmap, Hshorts in Hnil. done. }
    simpl. rewrite length_fmap, Hshorts.
    replace (clip _ _ 0) with (- 0.12) by (rewrite clip_at_lo; simpl; lra).
    rewrite dict_set_all_fresh.
    + simpl. by rewrite <- list_fmap_compose.
    + by apply nsmallest_NoDup.
    + intros s _. apply not_elem_of_nil.
  - intros x y. by apply nsmallest_lowest.
Qed.

Lemma C6_bear_scenario_witness :
  NoDup ten_scores.*1 /\
  length ten_scores = 10%nat /\
  Forall (fun p => _is_tradeable ten_securities p.1 = true) ten_scores /\
  _build_targets initial_config ten_securities ten_scores 0 0.8
    = Ok (map (fun p => (p.1, - 0.12)) (nsmallest 5 ten_scores)).
Proof.
  split_and!; [exact ten_scores_NoDup | reflexivity
              | exact ten_scores_tradeable |].
  exact (proj1 (proj2 (proj2
    (C6_bear_scenario ten_securities ten_scores ten_scores_NoDup eq_refl
       ten_scores_tradeable)))).
Defined.

(** ** The gross budget *)

(** C1, as stated, fails: in the neutral regime with the volatility scale at
    [min_gross], the budget is [0.80 * 0.20 = 0.16], below [min_gross]. *)
Lemma C1_counterexample :
  min_gross initial_config <= 0.2 <= max_gross initial_config /\
  gross_budget initial_config 1 0.2 = 0.16 /\
  gross_budget initial_config 1 0.2 < min_gross initial_config.
Proof.
  assert (H : gross_budget initial_config 1 0.2 = 0.16).
  { unfold gross_budget, base_gross. simpl.
    rewrite clip_inside; lra. }
  rewrite H. simpl. lra.
Qed.

(** C1, amended: the gross budget of a cycle, the regime preset times the
    volatility scale, clipped, lies in [[0, max_gross]], for every regime label
    and every volatility scale: the lower bound of the clip is 0, not
    [min_gross]; so does the budget of every cycle that computes targets.
    With the presets of [Initialize] and a scale in [[min_gross, max_gross]]
    the budget is at least [0.80 * 0.20 = 0.16]. *)
Theorem C1_gross_budget_bounds cfg :
  0 <= max_gross cfg ->
  (forall regime gross_scale,
     0 <= gross_budget cfg regime gross_scale <= max_gross cfg) /\
  (forall secs close regime gross target,
     compute_targets cfg secs close = Ok (regime, gross, target) ->
     0 <= gross <= max_gross cfg) /\
  (forall regime gross_scale,
     min_gross initial_config <= gross_scale <= max_gross initial_config ->
     0.16 <= gross_budget initial_config regime gross_scale
          <= max_gross initial_config).
Proof.
  intros Hmax.
  assert (Hb : forall regime gross_scale,
             0 <= gross_budget cfg regime gross_scale <= max_gross cfg).
  { intros regime gross_scale. unfold gross_budget.
    replace 0.0 with 0 by lra. by apply clip_between. }
  split_and!; [exact Hb| |].
  - intros secs close regime gross target. unfold compute_targets.
    destruct (_compute_regime_score cfg close) as [r|]; simpl; [|done].
    destruct (getitem close (soxx cfg)) as [c|]; simpl; [|done].
    destruct (_vol_target_scale cfg c) as [sc|]; simpl; [|done].
    destruct (_alpha_scores cfg _) as [score|]; simpl; [|done].
    destruct (_build_targets cfg secs score r _) as [t|]; simpl; [|done].
    intros [= <- <- <-]. apply Hb.
  - intros regime gross_scale. simpl. intros Hscale.
    unfold gross_budget, base_gross. simpl.
    assert (Hclip : forall x, 0.16 <= x -> 0.16 <= clip x 0.0 1.30 <= 1.30).
    { intros x Hx. unfold clip, Rmin, Rmax.
      repeat destruct (Rle_dec _ _); lra. }
    repeat case_decide; apply Hclip; nra.
Qed.

Lemma C1_gross_budget_bounds_witness :
  0 <= max_gross initial_config /\
  min_gross initial_config <= 0.2 <= max_gross initial_config /\
  0.16 <= gross_budget initial_config 1 0.2 <= max_gross initial_config.
Proof.
  assert (H : 0 <= max_gross initial_config) by (simpl; lra).
  assert (H' : min_gross initial_config <= 0.2 <= max_gross initial_config)
    by (simpl; lra).
  split; [exact H|]. split; [exact H'|].
  exact (proj2 (proj2 (C1_gross_budget_bounds initial_config H)) 1%Z 0.2 H').
Defined.

(** ** The rebalance guard *)

(** C2, as stated, fails: a cycle that aborts on an empty history has already
    assigned the guard. *)
Lemma C2_counterexample :
  History empty_history_env = HistEmpty /\
  actions (Rebalance initial_config fresh_state empty_history_env)
    = [Log NoHistory] /\
  _last_rebalance_date
    (state_after (Rebalance initial_config fresh_state empty_history_env))
    = Some 739000%Z /\
  state_after (Rebalance initial_config fresh_state empty_history_env)
    <> fresh_state.
Proof. split_and!; try reflexivity. discriminate. Qed.

(** C2, amended: a cycle that aborts because the history is empty or its
    reshape fails places no order (nothing is liquidated, no weight is set),
    emits one log record, and raises nothing; the guard is the one state it
    mutates: it holds the current date, assigned before the history is
    fetched. *)
Theorem C2_abort_effects cfg st env :
  IsWarmingUp env = false ->
  _last_rebalance_date st <> Some (Time_date env) ->
  History env = HistEmpty \/ (exists e, History env = HistReshapeFails e) ->
  let out := Rebalance cfg st env in
  (exists r, actions out = [Log r]) /\
  raised out = None /\
  state_after out = {| _last_rebalance_date := Some (Time_date env) |} /\
  state_after out <> st.
Proof.
  intros Hwarm Hguard Hhist out. unfold out, Rebalance.
  rewrite Hwarm, decide_False by done.
  assert (Hne : {| _last_rebalance_date := Some (Time_date env) |} <> st)
    by (intros <-; by apply Hguard).
  destruct Hhist as [-> | [e ->]]; simpl; eauto 10.
Qed.

Lemma C2_abort_effects_witness :
  IsWarmingUp reshape_failure_env = false /\
  _last_rebalance_date fresh_state <> Some (Time_date reshape_failure_env) /\
  state_after (Rebalance initial_config fresh_state reshape_failure_env)
    = {| _last_rebalance_date := Some (Time_date reshape_failure_env) |}.
Proof.
  assert (H1 : IsWarmingUp reshape_failure_env = false) by reflexivity.
  assert (H2 : _last_rebalance_date fresh_state
               <> Some (Time_date reshape_failure_env)) by discriminate.
  split; [exact H1|]. split; [exact H2|].
  exact (proj1 (proj2 (proj2
    (C2_abort_effects initial_config fresh_state reshape_failure_env H1 H2
       (or_intror (ex_intro _ _ eq_refl)))))).
Defined.

(** ** The two-sided regimes *)

Section two_sided.
Variable cfg : Config.
Variable secs : gmap symbol Security.
Variable score : list (symbol * R).
Variable regime : Z.
Variable gross : R.

Let tradable := tradable_part secs score.
Let k := two_sided_k cfg regime (length tradable).
Let longs := two_sided_longs cfg secs score regime.
Let shorts := two_sided_shorts cfg secs score regime.

Hypothesis Hm : (1 <= min_names_each_side cfg)%nat.
Hypothesis Hn : (2 * min_names_each_side cfg <= length tradable)%nat.

Lemma two_sided_lengths : length longs = k /\ length shorts = k.
Proof.
  unfold longs, shorts, two_sided_longs, two_sided_shorts.
  rewrite !length_fmap, nlargest_length, nsmallest_length.
  fold tradable k.
  assert (int_frac (two_sided_pct regime) (length tradable)
          <= length tradable)%nat.
  { unfold int_frac, two_sided_pct. apply Nat.Div0.div_le_upper_bound.
    case_decide; lia. }
  unfold k, two_sided_k. lia.
Qed.

Lemma two_sided_k_pos : (1 <= k)%nat.
Proof. unfold k, two_sided_k. lia. Qed.

Lemma two_sided_nonempty : longs <> [] /\ shorts <> [].
Proof.
  destruct two_sided_lengths as [Hl Hs]. pose proof two_sided_k_pos as Hk.
  split; intros E; [rewrite E in Hl | rewrite E in Hs]; simpl in *; lia.
Qed.

(** The dictionary the two loops build: the longs first, then the shorts
    written over them. *)
Lemma build_targets_two_sided :
  regime = 1%Z \/ regime = 2%Z ->
  _build_targets cfg secs score regime gross
    = Ok (dict_set_all
            (dict_set_all [] longs (long_weight cfg gross longs))
            shorts (short_weight cfg gross shorts)).
Proof.
  intros Hregime. destruct two_sided_nonempty as [Hlnil Hsnil].
  assert (Hfull : (2 * min_names_each_side cfg <= length score)%nat).
  { etrans; [exact Hn|]. apply length_filter. }
  unfold _build_targets.
  rewrite decide_False by lia.
  change (filter _ score) with (tradable_part secs score). fold tradable.
  rewrite decide_False by lia.
  unfold long_weight, short_weight.
  unfold longs, shorts, two_sided_longs, two_sided_shorts, two_sided_k,
    two_sided_pct in Hlnil, Hsnil |- *.
  fold tradable in Hlnil, Hsnil |- *.
  destruct Hregime as [-> | ->]; simpl in Hlnil, Hsnil |- *;
    rewrite !per_name_ok by done; reflexivity.
Qed.
End two_sided.

Lemma Rdiv_mul_cancel x y : 0 < y -> y * (x / y) = x.
Proof. intros. field. lra. Qed.

Lemma Rsum_const {A} (c : R) (l : list A) :
  Rsum (map (fun _ => c) l) = INR (length l) * c.
Proof.
  induction l as [|x l IH]; [simpl; lra|].
  change (Rsum (map (fun _ => c) (x :: l)))
    with (c + Rsum (map (fun _ => c) l)).
  rewrite IH, length_cons, S_INR. lra.
Qed.

Lemma Rsum_opp {A} (g : A -> R) (l : list A) :
  Rsum (map (fun e => - g e) l) = - Rsum (map g l).
Proof.
  induction l as [|x l IH]; [simpl; lra|].
  change (- g x + Rsum (map (fun e => - g e) l) = - (g x + Rsum (map g l))).
  rewrite IH. lra.
Qed.

Lemma filter_elem_length (names keys : list symbol) :
  NoDup keys ->
  (length (filter (fun s => s ∈ names) keys) <= length names)%nat.
Proof.
  intros Hnd. apply submseteq_length, NoDup_submseteq.
  - by apply NoDup_filter.
  - intros s Hs. by apply list_elem_of_filter in Hs as [? _].
Qed.

(** A sum over the entries of a dictionary in which only entries of [names]
    count, each for [w]. *)
Lemma side_sum_bound (f : R -> R) (target : list (symbol * R)) names w :
  NoDup (dict_keys target) -> 0 <= w ->
  (forall e, e ∈ target -> (f e.2 = w /\ e.1 ∈ names) \/ f e.2 = 0) ->
  0 <= Rsum (map (fun e => f e.2) target) <= w * INR (length names).
Proof.
  intros Hnd Hw Hent.
  assert (Hcount :
    0 <= Rsum (map (fun e => f e.2) target)
      <= w * INR (length (filter (fun s => s ∈ names) (dict_keys target)))).
  { clear Hnd. unfold dict_keys.
    induction target as [|e t IH]; [simpl; lra|].
    assert (IH' := IH (fun e' He' => Hent e' (list_elem_of_further _ _ _ He'))).
    clear IH.
    change (Rsum (map (fun e0 => f e0.2) (e :: t)))
      with (f e.2 + Rsum (map (fun e0 => f e0.2) t)).
    rewrite fmap_cons, filter_cons.
    destruct (Hent e (list_elem_of_here _ _)) as [[Hf Hin]|Hf]; rewrite Hf.
    - rewrite decide_True by done. rewrite length_cons, S_INR. lra.
    - case_decide; [rewrite length_cons, S_INR|]; lra. }
  split; [lra|]. etrans; [apply Hcount|].
  apply Rmult_le_compat_l; [done|]. apply le_INR.
  by apply filter_elem_length.
Qed.


(** Evaluates selections on concrete scores. *)
Ltac Rcompute := repeat (progress (simpl; Rdecide)).

Lemma ten_scores_tradable_part :
  tradable_part ten_securities ten_scores = ten_scores.
Proof. apply filter_all, ten_scores_tradeable. Qed.

Lemma tied_scores_tradable_part :
  tradable_part ten_securities tied_scores = tied_scores.
Proof.
  apply filter_all, Forall_forall. intros [s v] Hin.
  apply ten_symbols_tradeable.
  apply (list_elem_of_fmap_2 fst) in Hin. exact Hin.
Qed.

(** The five lowest of the ten sample scores, lowest first. *)
Example ten_scores_nsmallest :
  nsmallest 5 ten_scores
  = [("INTC", -1.75); ("QCOM", -1.0); ("ADI", -0.5); ("AMD", -0.25);
     ("ON", 0.0)].
Proof. unfold nsmallest, stable_sort, ten_scores. Rcompute. reflexivity. Qed.

(** The four highest of the ten sample scores, highest first. *)
Example ten_scores_nlargest :
  nlargest 4 ten_scores
  = [("NVDA", 1.5); ("MCHP", 1.0); ("AVGO", 0.75); ("MU", 0.5)].
Proof. unfold nlargest, stable_sort, ten_scores. Rcompute. reflexivity. Qed.

(** With equal scores both selections are the first entries of the index. *)
Example tied_scores_selections :
  (nlargest 4 tied_scores).*1 = ["NVDA"; "AMD"; "AVGO"; "QCOM"] /\
  (nsmallest 4 tied_scores).*1 = ["NVDA"; "AMD"; "AVGO"; "QCOM"].
Proof.
  unfold nlargest, nsmallest, stable_sort, tied_scores, ten_symbols.
  split; Rcompute; reflexivity.
Qed.

Lemma overlap_length (keys l1 l2 : list symbol) s :
  NoDup keys ->
  (forall x, x ∈ keys -> x ∈ l1 \/ x ∈ l2) ->
  s ∈ l1 -> s ∈ l2 ->
  (length keys < length l1 + length l2)%nat.
Proof.
  intros Hnd Hsub H1 H2.
  assert (Hle : (length keys
                 <= length (l1 ++ filter (fun x => x <> s) l2))%nat).
  { apply submseteq_length, NoDup_submseteq; [done|].
    intros x Hx. apply elem_of_app.
    destruct (decide (x = s)) as [->|Hne]; [by left|].
    destruct (Hsub x Hx) as [?|?]; [by left|].
    right. by apply list_elem_of_filter. }
  rewrite length_app in Hle.
  assert (length (filter (fun x => x <> s) l2) < length l2)%nat.
  { apply (length_filter_lt _ _ s); [done|]. intros Hs. by apply Hs. }
  lia.
Qed.

(** C10: in the mixed (2) and neutral (1) regimes, an instrument that is in
    both the top-[k] and the bottom-[k] selection holds the short weight in
    the map returned, the shorts being written after the longs, and the map
    has fewer than [2 * k] entries. *)
Theorem C10_overlap_takes_short cfg secs score regime gross s :
  regime = 1%Z \/ regime = 2%Z ->
  (1 <= min_names_each_side cfg)%nat ->
  (2 * min_names_each_side cfg <= length (tradable_part secs score))%nat ->
  let longs := two_sided_longs cfg secs score regime in
  let shorts := two_sided_shorts cfg secs score regime in
  let k := two_sided_k cfg regime (length (tradable_part secs score)) in
  s ∈ longs -> s ∈ shorts ->
  exists target,
    _build_targets cfg secs score regime gross = Ok target /\
    dict_get target s = Some (short_weight cfg gross shorts) /\
    (length target < 2 * k)%nat.
Proof.
  intros Hregime Hm Hn longs shorts k Hlong Hshort.
  destruct (two_sided_lengths cfg secs score regime Hm Hn) as [Hl Hs].
  fold longs k in Hl. fold shorts k in Hs.
  eexists. split; [by apply build_targets_two_sided|].
  fold longs shorts. split.
  - rewrite dict_get_set_all. by rewrite decide_True.
  - set (target := dict_set_all _ shorts _).
    replace (length target) with (length (dict_keys target))
      by apply length_fmap.
    replace (2 * k)%nat with (length longs + length shorts)%nat by lia.
    apply (overlap_length _ _ _ s); [|  | done | done].
    + unfold target. do 2 apply dict_keys_set_all_NoDup. constructor.
    + intros x Hx. unfold target in Hx.
      apply dict_keys_set_all_elem in Hx as [Hx|?]; [|by right].
      apply dict_keys_set_all_elem in Hx as [Hx|?]; [|by left].
      by apply elem_of_nil in Hx.
Qed.

(** Equal scores: the four first instruments are long and short at once, and
    the map of the mixed regime holds four entries, all short. *)
Lemma C10_overlap_takes_short_witness :
  (2 = 1 \/ 2 = 2)%Z /\
  (1 <= min_names_each_side initial_config)%nat /\
  (2 * min_names_each_side initial_config
   <= length (tradable_part ten_securities tied_scores))%nat /\
  "NVDA" ∈ two_sided_longs initial_config ten_securities tied_scores 2 /\
  "NVDA" ∈ two_sided_shorts initial_config ten_securities tied_scores 2 /\
  exists target,
    _build_targets initial_config ten_securities tied_scores 2 1 = Ok target /\
    dict_get target "NVDA"
      = Some (short_weight initial_config 1
                (two_sided_shorts initial_config ten_securities tied_scores 2))
    /\ (length target < 2 * 4)%nat.
Proof.
  assert (H1 : (2 = 1 \/ 2 = 2)%Z) by (right; reflexivity).
  assert (H2 : (1 <= min_names_each_side initial_config)%nat)
    by (simpl; lia).
  assert (H3 : (2 * min_names_each_side initial_config
                <= length (tradable_part ten_securities tied_scores))%nat)
    by (rewrite tied_scores_tradable_part; simpl; lia).
  assert (H4 : "NVDA"
               ∈ two_sided_longs initial_config ten_securities tied_scores 2).
  { unfold two_sided_longs. rewrite tied_scores_tradable_part.
    change (two_sided_k initial_config 2 (length tied_scores)) with 4%nat.
    rewrite (proj1 tied_scores_selections). apply list_elem_of_here. }
  assert (H5 : "NVDA"
               ∈ two_sided_shorts initial_config ten_securities tied_scores 2).
  { unfold two_sided_shorts. rewrite tied_scores_tradable_part.
    change (two_sided_k initial_config 2 (length tied_scores)) with 4%nat.
    rewrite (proj2 tied_scores_selections). apply list_elem_of_here. }
  split_and!; [exact H1 | exact H2 | exact H3 | exact H4 | exact H5 |].
  pose proof (C10_overlap_takes_short initial_config ten_securities
                tied_scores 2 1 "NVDA" H1 H2 H3 H4 H5) as H.
  rewrite tied_scores_tradable_part in H. exact H.
Defined.

(** ** The regime classifier *)

Lemma num_gt_nan x : num_gt x NaN = false.
Proof. by destruct x. Qed.

Lemma rolling_mean_short w xs :
  (length xs < w)%nat -> rolling_mean_at_last w xs = NaN.
Proof.
  intros Hlt. unfold rolling_mean_at_last, window_last.
  replace (length xs - w)%nat with 0%nat by lia. rewrite drop_0.
  rewrite decide_False by lia. done.
Qed.

Lemma iloc_last_nonempty {A} (xs : list A) :
  xs <> [] -> exists x, iloc_last xs = Ok x.
Proof.
  intros Hne. unfold iloc_last.
  destruct (last xs) as [x|] eqn:E; [by exists x|].
  by apply last_None in E.
Qed.

Lemma rolling_mean_last_nonempty w xs :
  xs <> [] -> rolling_mean_last w xs = Ok (rolling_mean_at_last w xs).
Proof. by destruct xs. Qed.

(** An indicator on a ratio is 0 or 1, never an error, and 0 when the ratio
    has no more than [w] finite values. *)
Lemma ratio_indicator_total w xs :
  exists c, ratio_indicator w xs = Ok c /\ (c = 0%Z \/ c = 1%Z) /\
            ((length xs <= w)%nat -> c = 0%Z).
Proof.
  unfold ratio_indicator.
  destruct (decide (w < length xs)%nat) as [Hlt|Hge]; simpl.
  - assert (Hne : xs <> []) by (intros ->; simpl in Hlt; lia).
    rewrite rolling_mean_last_nonempty by done. simpl.
    destruct (isnan _); [exists 0%Z; split_and!; auto|].
    destruct (iloc_last_nonempty xs Hne) as [x ->]. simpl.
    destruct (num_gt _ _); eexists; (split_and!; [done| |lia]); auto.
  - exists 0%Z. split_and!; auto.
Qed.

Lemma getitem_present close sym :
  has_column close sym = true ->
  exists c, getitem close sym = Ok c /\ (sym, c) ∈ df_columns close.
Proof.
  unfold has_column, getitem. intros Hin%bool_decide_eq_true.
  destruct (dict_get (df_columns close) sym) as [c|] eqn:E.
  - exists c. split; [done|]. by apply dict_get_Some_elem.
  - by apply dict_get_None in E.
Qed.

Lemma column_length close sym c :
  df_wf close -> (sym, c) ∈ df_columns close -> length c = df_rows close.
Proof.
  intros [_ Hlen] Hin. rewrite Forall_forall in Hlen. exact (Hlen _ Hin).
Qed.

(** C5, as stated, fails: on a table that has the four reference columns and
    no row, the classifier raises [IndexError]. *)
Lemma C5_counterexample :
  df_wf no_rows /\
  _compute_regime_score initial_config no_rows = Raise IndexError.
Proof.
  split; [|reflexivity]. split.
  - apply (@bool_decide_unpack _ (NoDup_dec _)). vm_compute. exact I.
  - repeat constructor.
Qed.

(** C5, amended: on every price table with at least one row, the classifier
    returns an integer of {0,1,2,3}; on every table, with or without rows,
    that lacks one of the four reference columns it returns exactly 1,
    computing nothing else; with the four columns, it returns the sum of three
    indicators that are 0 or 1, of which the first is 0 when the table has
    fewer than [regime_ma] rows and the other two are 0 when their ratio has
    no more than [regime_ma] finite values (none, in particular). *)
Theorem C5_regime_score cfg close :
  let needed := [soxx cfg; spy cfg; ief cfg; shy cfg] in
  ((exists sym, sym ∈ needed /\ has_column close sym = false) ->
   _compute_regime_score cfg close = Ok 1%Z) /\
  (df_wf close -> (0 < df_rows close)%nat ->
   (exists r, _compute_regime_score cfg close = Ok r /\ (0 <= r <= 3)%Z) /\
   ((forall sym, sym ∈ needed -> has_column close sym = true) ->
    exists a b i h c1 c2 c3,
      getitem close (soxx cfg) = Ok a /\ getitem close (spy cfg) = Ok b /\
      getitem close (ief cfg) = Ok i /\ getitem close (shy cfg) = Ok h /\
      _compute_regime_score cfg close = Ok (c1 + c2 + c3)%Z /\
      (c1 = 0 \/ c1 = 1)%Z /\ (c2 = 0 \/ c2 = 1)%Z /\ (c3 = 0 \/ c3 = 1)%Z /\
      ((df_rows close < regime_ma cfg)%nat -> c1 = 0%Z) /\
      ((length (finite_ratio a b) <= regime_ma cfg)%nat -> c2 = 0%Z) /\
      ((length (finite_ratio i h) <= regime_ma cfg)%nat -> c3 = 0%Z))).
Proof.
  intros needed.
  assert (Hmissing : (exists sym, sym ∈ needed /\ has_column close sym = false)
                     -> _compute_regime_score cfg close = Ok 1%Z).
  { intros (sym & Hin & Hno). unfold _compute_regime_score.
    fold needed.
    assert (E : existsb (fun sym => negb (has_column close sym)) needed = true).
    { apply existsb_exists. exists sym. split.
      - by apply list_elem_of_In.
      - by rewrite Hno. }
    by rewrite E. }
  split; [exact Hmissing|].
  intros Hwf Hrows.
  assert (Hpresent :
    (forall sym, sym ∈ needed -> has_column close sym = true) ->
    exists a b i h c1 c2 c3,
      getitem close (soxx cfg) = Ok a /\ getitem close (spy cfg) = Ok b /\
      getitem close (ief cfg) = Ok i /\ getitem close (shy cfg) = Ok h /\
      _compute_regime_score cfg close = Ok (c1 + c2 + c3)%Z /\
      (c1 = 0 \/ c1 = 1)%Z /\ (c2 = 0 \/ c2 = 1)%Z /\ (c3 = 0 \/ c3 = 1)%Z /\
      ((df_rows close < regime_ma cfg)%nat -> c1 = 0%Z) /\
      ((length (finite_ratio a b) <= regime_ma cfg)%nat -> c2 = 0%Z) /\
      ((length (finite_ratio i h) <= regime_ma cfg)%nat -> c3 = 0%Z)).
  { intros Hall.
    assert (E : existsb (fun sym => negb (has_column close sym)) needed
                = false).
    { apply not_true_is_false. intros (sym & Hin & Hneg)%existsb_exists.
      apply list_elem_of_In in Hin. rewrite (Hall sym Hin) in Hneg. done. }
    destruct (getitem_present close (soxx cfg)) as (a & Ha & Hina);
      [apply Hall; set_solver|].
    destruct (getitem_present close (spy cfg)) as (b & Hb & _);
      [apply Hall; set_solver|].
    destruct (getitem_present close (ief cfg)) as (i & Hi & _);
      [apply Hall; set_solver|].
    destruct (getitem_present close (shy cfg)) as (h & Hh & _);
      [apply Hall; set_solver|].
    pose proof (column_length close _ a Hwf Hina) as Hlen.
    assert (Hne : a <> []) by (intros ->; simpl in Hlen; lia).
    destruct (iloc_last_nonempty a Hne) as [latest Hlatest].
    destruct (ratio_indicator_total (regime_ma cfg) (finite_ratio a b))
      as (c2 & Hc2 & Hr2 & Hz2).
    destruct (ratio_indicator_total (regime_ma cfg) (finite_ratio i h))
      as (c3 & Hc3 & Hr3 & Hz3).
    exists a, b, i, h,
      (if num_gt latest (rolling_mean_at_last (regime_ma cfg) a)
       then 1%Z else 0%Z), c2, c3.
    split_and!; try done.
    - unfold _compute_regime_score. fold needed. rewrite E, Ha, Hb, Hi, Hh.
      simpl. rewrite rolling_mean_last_nonempty by done. simpl.
      rewrite Hlatest. simpl. rewrite Hc2. simpl. rewrite Hc3. done.
    - destruct (num_gt _ _); auto.
    - intros Hshort. rewrite rolling_mean_short by lia.
      by rewrite num_gt_nan. }
  split; [|exact Hpresent].
  destruct (decide (Forall (fun sym => has_column close sym = true) needed))
    as [Hall|Hsome].
  - rewrite Forall_forall in Hall.
    destruct (Hpresent Hall)
      as (a & b & i & h & c1 & c2 & c3 & _ & _ & _ & _ & -> & ? & ? & ? & _).
    eexists. split; [done|]. lia.
  - apply not_Forall_Exists in Hsome; [|apply _].
    apply Exists_exists in Hsome as (sym & Hin & Hno).
    apply not_true_is_false in Hno.
    exists 1%Z. split; [|lia]. apply Hmissing. eauto.
Qed.

Lemma one_row_wf : df_wf one_row.
Proof.
  split.
  - apply (@bool_decide_unpack _ (NoDup_dec _)). vm_compute. exact I.
  - repeat constructor.
Qed.

Lemma C5_regime_score_witness :
  df_wf one_row /\ (0 < df_rows one_row)%nat /\
  exists r,
    _compute_regime_score initial_config one_row = Ok r /\ (0 <= r <= 3)%Z.
Proof.
  assert (H : (0 < df_rows one_row)%nat) by (simpl; lia).
  split; [exact one_row_wf|]. split; [exact H|].
  exact (proj1 (proj2 (C5_regime_score initial_config one_row) one_row_wf H)).
Defined.

(** One row is too short a history for any of the three indicators. *)
Example one_row_regime : _compute_regime_score initial_config one_row = Ok 0%Z.
Proof.
  unfold _compute_regime_score, ratio_indicator, finite_ratio, one_row.
  Rcompute. reflexivity.
Qed.

(** Without the market proxy the classifier answers 1, rows or no rows. *)
Example missing_column_regime :
  _compute_regime_score initial_config
    {| df_rows := 0; df_columns := [("SOXX", []); ("IEF", []); ("SHY", [])] |}
  = Ok 1%Z.
Proof. reflexivity. Qed.

(** ** The volatility targeter *)

Lemma sqrt_252_bounds : 15 < sqrt 252 < 16.
Proof.
  split.
  - replace 15 with (sqrt (15 * 15)) by (rewrite sqrt_square; lra).
    apply sqrt_lt_1; lra.
  - replace 16 with (sqrt (16 * 16)) by (rewrite sqrt_square; lra).
    apply sqrt_lt_1; lra.
Qed.

(** What the code does with an infinite deviation: the test
    [np.isnan(vol) or vol < 1e-8] does not catch it, the annualised value is
    infinite, [T / inf] is zero and the scale is the lower clip bound. *)
Remark infinite_vol_is_not_degenerate cfg :
  min_gross cfg <= max_gross cfg -> 0 <= min_gross cfg ->
  scale_of_vol cfg PInf = min_gross cfg.
Proof. intros. by apply clip_at_lo. Qed.

Lemma Rsum_replicate n c : Rsum (replicate n c) = INR n * c.
Proof.
  induction n as [|n IH]; [simpl; lra|].
  change (Rsum (replicate (S n) c)) with (c + Rsum (replicate n c)).
  rewrite IH, S_INR. lra.
Qed.

(** A constant sample has no deviation. *)
Lemma Rstd_replicate n c : (1 <= n)%nat -> Rstd (replicate n c) = 0.
Proof.
  intros Hn. unfold Rstd, Rmean.
  rewrite Rsum_replicate, length_replicate.
  assert (HnR : 0 < INR n) by (apply lt_0_INR; lia).
  replace (INR n * c / INR n) with c by (field; lra).
  transitivity (sqrt 0); [|apply sqrt_0]. f_equal.
  replace (map _ (replicate n c)) with (replicate n 0).
  - rewrite Rsum_replicate. unfold Rdiv. lra.
  - clear. induction n as [|n IH]; [done|]. simpl. rewrite <- IH.
    f_equal. lra.
Qed.

(** On a flat price history of twenty-one closes the window is complete,
    the deviation is zero and the scale is 1.0, by the degenerate branch. *)
Lemma flat_closes_vol :
  latest_target_vol initial_config flat_closes
  = Ok (Fin (Rstd (replicate 20 (100 / 100 + - (1))))).
Proof.
  unfold latest_target_vol, flat_closes, pct_change, rolling_std_last,
    rolling_std_at_last, window_last.
  Rcompute. reflexivity.
Qed.

Example flat_closes_scale :
  _vol_target_scale initial_config flat_closes = Ok 1.0.
Proof.
  unfold _vol_target_scale. rewrite flat_closes_vol.
  cbn [mbind result_bind]. unfold scale_of_vol.
  rewrite Rstd_replicate by lia. by rewrite Rltb_true by lra.
Qed.

(** ** Determinism of the pipeline *)

Lemma build_targets_tradeable_ext cfg secs1 secs2 score regime gross :
  (forall sym, _is_tradeable secs1 sym = _is_tradeable secs2 sym) ->
  _build_targets cfg secs1 score regime gross
  = _build_targets cfg secs2 score regime gross.
Proof.
  intros Hext. unfold _build_targets.
  replace (filter (fun p => _is_tradeable secs1 p.1 = true) score)
    with (filter (fun p => _is_tradeable secs2 p.1 = true) score); [done|].
  apply list_filter_iff. intros p. by rewrite Hext.
Qed.

Lemma compute_targets_tradeable_ext cfg secs1 secs2 close :
  (forall sym, _is_tradeable secs1 sym = _is_tradeable secs2 sym) ->
  compute_targets cfg secs1 close = compute_targets cfg secs2 close.
Proof.
  intros Hext. unfold compute_targets.
  destruct (_compute_regime_score cfg close) as [r|]; simpl; [|done].
  destruct (getitem close (soxx cfg)) as [c|]; simpl; [|done].
  destruct (_vol_target_scale cfg c) as [sc|]; simpl; [|done].
  destruct (_alpha_scores cfg _) as [score|]; simpl; [|done].
  by rewrite (build_targets_tradeable_ext cfg secs1 secs2).
Qed.

Lemma set_holdings_tradeable_ext secs1 secs2 target :
  (forall sym, _is_tradeable secs1 sym = _is_tradeable secs2 sym) ->
  set_holdings secs1 target = set_holdings secs2 target.
Proof.
  intros Hext. unfold set_holdings.
  induction target as [|e t IH]; [done|].
  csimpl. by rewrite Hext, IH.
Qed.

(** C8: two invocations on the same price history, the same holdings and the
    same tradability compute the same regime, gross budget and target weight
    map, and emit the same orders and log record; the dates, the guard and
    whatever else the securities hold may differ. *)
Theorem C8_pipeline_deterministic cfg st1 st2 env1 env2 :
  History env1 = History env2 ->
  Portfolio env1 = Portfolio env2 ->
  (forall sym, _is_tradeable (Securities env1) sym
               = _is_tradeable (Securities env2) sym) ->
  IsWarmingUp env1 = false -> IsWarmingUp env2 = false ->
  _last_rebalance_date st1 <> Some (Time_date env1) ->
  _last_rebalance_date st2 <> Some (Time_date env2) ->
  (forall raw, History env1 = HistCloses raw ->
     compute_targets cfg (Securities env1) (fill raw)
     = compute_targets cfg (Securities env2) (fill raw)) /\
  actions (Rebalance cfg st1 env1) = actions (Rebalance cfg st2 env2) /\
  raised (Rebalance cfg st1 env1) = raised (Rebalance cfg st2 env2).
Proof.
  intros Hhist Hport Hext Hw1 Hw2 Hg1 Hg2.
  split; [intros raw _; by apply compute_targets_tradeable_ext|].
  unfold Rebalance. rewrite Hw1, Hw2, !decide_False by done.
  rewrite <- Hhist, <- Hport.
  destruct (History env1) as [|e|raw]; [done | done |].
  rewrite <- (compute_targets_tradeable_ext cfg _ _ (fill raw) Hext).
  destruct (compute_targets cfg (Securities env1) (fill raw))
    as [[[regime gross] target]|e]; [|done].
  simpl. by rewrite (set_holdings_tradeable_ext _ _ target Hext).
Qed.

Lemma repriced_same_tradability sym :
  _is_tradeable ten_securities sym = _is_tradeable ten_securities_repriced sym.
Proof.
  unfold ten_securities, ten_securities_repriced.
  by rewrite !is_tradeable_universe by lra.
Qed.

Lemma C8_pipeline_deterministic_witness :
  History first_cycle_env = History second_cycle_env /\
  Portfolio first_cycle_env = Portfolio second_cycle_env /\
  actions (Rebalance initial_config fresh_state first_cycle_env)
  = actions (Rebalance initial_config
               {| _last_rebalance_date := Some 739000%Z |} second_cycle_env).
Proof.
  split; [reflexivity|]. split; [reflexivity|].
  refine (proj1 (proj2
    (C8_pipeline_deterministic initial_config fresh_state
       {| _last_rebalance_date := Some 739000%Z |}
       first_cycle_env second_cycle_env eq_refl eq_refl
       repriced_same_tradability eq_refl eq_refl _ _))); discriminate.
Defined.

(** ** Sample runs of the constructor *)

Lemma seven_tradable_part :
  tradable_part seven_securities ten_scores = take 7 ten_scores.
Proof.
  unfold tradable_part, seven_securities.
  rewrite (list_filter_iff _
             (fun p => bool_decide (p.1 ∈ take 7 ten_symbols) = true)).
  - reflexivity.
  - intros p. by rewrite is_tradeable_universe by lra.
Qed.

(** Seven tradable instruments are fewer than the eight the floor asks for. *)
Lemma C4_universe_floor_witness :
  (length (filter (fun p => _is_tradeable seven_securities p.1 = true)
             ten_scores)
   < 2 * min_names_each_side initial_config)%nat /\
  _build_targets initial_config seven_securities ten_scores 3 1 = Ok [].
Proof.
  assert (H : (length (filter
                         (fun p => _is_tradeable seven_securities p.1 = true)
                         ten_scores)
               < 2 * min_names_each_side initial_config)%nat).
  { change (filter _ ten_scores)
      with (tradable_part seven_securities ten_scores).
    rewrite seven_tradable_part. simpl. lia. }
  split; [exact H|].
  exact (C4_universe_floor initial_config seven_securities ten_scores 3 1 H).
Defined.

(** The bull scenario: ten tradable instruments, gross 1.0: the four highest
    scores at the cap, nothing short. *)
Example bull_scenario :
  _build_targets initial_config ten_securities ten_scores 3 1.0
  = Ok [("NVDA", 0.12); ("MCHP", 0.12); ("AVGO", 0.12); ("MU", 0.12)].
Proof.
  unfold _build_targets.
  change (filter _ ten_scores) with (tradable_part ten_securities ten_scores).
  rewrite ten_scores_tradable_part. simpl.
  rewrite ten_scores_nlargest. simpl.
  replace (clip _ 0 0.12) with 0.12 by (rewrite clip_at_hi; lra).
  reflexivity.
Qed.

(** The mixed regime on the same instruments at gross 1.0: [k] is
    [max(4, floor(0.30 * 10)) = 4], both sides at the cap. *)
Example mixed_scenario :
  _build_targets initial_config ten_securities ten_scores 2 1.0
  = Ok [("NVDA", 0.12); ("MCHP", 0.12); ("AVGO", 0.12); ("MU", 0.12);
        ("INTC", -0.12); ("QCOM", -0.12); ("ADI", -0.12); ("AMD", -0.12)].
Proof.
  unfold _build_targets.
  change (filter _ ten_scores) with (tradable_part ten_securities ten_scores).
  rewrite ten_scores_tradable_part. simpl.
  rewrite ten_scores_nlargest.
  replace (nsmallest 4 ten_scores) with (take 4 (nsmallest 5 ten_scores)).
  2: { unfold nsmallest. rewrite take_take. reflexivity. }
  rewrite ten_scores_nsmallest. simpl.
  replace (clip _ 0 0.12) with 0.12 by (rewrite clip_at_hi; lra).
  replace (clip _ (- (0.12)) 0) with (-0.12) by (rewrite clip_at_lo; lra).
  reflexivity.
Qed.

(** Equal scores in the mixed regime: the four first instruments are chosen
    on both sides and end up short; four entries, not eight. *)
Example tied_scenario :
  _build_targets initial_config ten_securities tied_scores 2 1.0
  = Ok [("NVDA", -0.12); ("AMD", -0.12); ("AVGO", -0.12); ("QCOM", -0.12)].
Proof.
  unfold _build_targets.
  change (filter _ tied_scores)
    with (tradable_part ten_securities tied_scores).
  rewrite tied_scores_tradable_part. simpl.
  change (map (fun s => (s, 0)) ten_symbols) with tied_scores.
  rewrite (proj1 tied_scores_selections), (proj2 tied_scores_selections).
  simpl.
  replace (clip _ (- (0.12)) 0) with (-0.12) by (rewrite clip_at_lo; lra).
  reflexivity.
Qed.

(** ** The named numbers in binary64 *)

(** For every universe of up to a thousand instruments, [int(f * n)] in
    binary64 is the floor of the exact product, for the four fractions. *)
Lemma int_frac_binary64 :
  forallb Binary64.fractions_agree (seq 0 1001) = true.
Proof. vm_compute. reflexivity. Qed.

(** The budget of C1's counterexample is below [min_gross] in binary64 too,
    and the weights of the bear and bull scenarios are the cap, exactly. *)
Lemma named_numbers_binary64 :
  Binary64.budget_below_min_gross = true /\
  Binary64.scenario_weights_at_cap = true.
Proof. split; vm_compute; reflexivity. Qed.

(** ** A sample run of the volatility targeter *)

Lemma swing_closes_std :
  Rstd [101 / 100 + - (1); 99.99 / 101 + - (1)] = sqrt 0.0002.
Proof.
  unfold Rstd, Rmean. f_equal. simpl. lra.
Qed.

Lemma sqrt_bounds x lo hi :
  0 <= lo -> lo * lo < x < hi * hi -> 0 <= hi -> lo < sqrt x < hi.
Proof.
  intros Hlo [H1 H2] Hhi.
  assert (Hx : 0 <= x) by nra.
  pose proof (sqrt_square lo Hlo) as El. pose proof (sqrt_square hi Hhi) as Eh.
  pose proof (sqrt_lt_1 (lo * lo) x ltac:(nra) Hx H1).
  pose proof (sqrt_lt_1 x (hi * hi) Hx ltac:(nra) H2).
  lra.
Qed.

(** A window of two returns, [+1%] and [-1%]: their deviation is
    [sqrt(0.0002)], about 22% a year, and the scale, inside the clip bounds,
    is the target over that. *)
Example swing_vol_target_scale :
  _vol_target_scale two_day_config swing_closes
  = Ok (0.10 / (sqrt 0.0002 * sqrt 252)) /\
  0.43 < 0.10 / (sqrt 0.0002 * sqrt 252) < 0.46.
Proof.
  assert (Hs : 0.014 < sqrt 0.0002 < 0.015) by (apply sqrt_bounds; lra).
  assert (Hann : 0.22 < sqrt 0.0002 * sqrt 252 < 0.23).
  { rewrite <- sqrt_mult by lra. apply sqrt_bounds; lra. }
  assert (Hscale : 0.43 < 0.10 / (sqrt 0.0002 * sqrt 252) < 0.46).
  { set (a := sqrt 0.0002 * sqrt 252) in *.
    assert (E : 0.10 / a * a = 0.10) by (field; lra).
    split; apply (Rmult_lt_reg_r a); lra. }
  split; [|exact Hscale].
  unfold _vol_target_scale, latest_target_vol, swing_closes, pct_change,
    rolling_std_last, rolling_std_at_last, window_last.
  Rcompute. rewrite swing_closes_std.
  rewrite Rltb_false by lra.
  unfold vol_scale_raw. simpl.
  rewrite Rmax_left by lra. rewrite clip_inside by lra. reflexivity.
Qed.

(** ** A flat market, end to end *)

Lemma dropna_replicate n c : dropna (replicate n (Fin c)) = replicate n (Fin c).
Proof.
  unfold dropna. apply filter_all, Forall_forall.
  intros x Hx. by apply elem_of_replicate in Hx as [-> _].
Qed.

Lemma mapM_as_fin_replicate n c :
  mapM as_fin (replicate n (Fin c)) = Some (replicate n c).
Proof. induction n as [|n IH]; [done|]. simpl. by rewrite IH. Qed.

(** Without dispersion the z-scores are all zero: the division is skipped.
    The deviation is the one of the reals, exactly zero on a constant
    series. *)
Lemma zscore_flat n c : _zscore (replicate n (Fin c)) = replicate n (Fin (c * 0)).
Proof.
  unfold _zscore, series_std.
  rewrite dropna_replicate, mapM_as_fin_replicate, length_replicate.
  assert (Hdeg : zscore_degenerate
                   (if decide (n <= 1)%nat then NaN
                    else Fin (Rstd (replicate n c))) = true).
  { case_decide; [done|]. rewrite Rstd_replicate by lia.
    unfold zscore_degenerate. simpl. apply Rltb_true. lra. }
  rewrite Hdeg. clear Hdeg.
  induction n as [|n IH]; [done|]. simpl. by rewrite IH.
Qed.

(** In a flat market every score is zero, for the ten basket instruments
    that the table holds, in the order of [semis]. *)
Example flat_market_scores :
  _alpha_scores two_day_config
    (select_present (fill flat_market) (semis two_day_config))
  = Ok tied_scores.
Proof.
  unfold _alpha_scores, last_row, select_present, flat_market, fill,
    pct_change, rolling_std_at_last, window_last.
  Rcompute.
  change [Fin (100 / 100 + - (1)); Fin (100 / 100 + - (1));
          Fin (100 / 100 + - (1)); Fin (100 / 100 + - (1));
          Fin (100 / 100 + - (1)); Fin (100 / 100 + - (1));
          Fin (100 / 100 + - (1)); Fin (100 / 100 + - (1));
          Fin (100 / 100 + - (1)); Fin (100 / 100 + - (1))]
    with (replicate 10 (Fin (100 / 100 + - (1)))).
  set (sd := Rstd _).
  change [Fin sd; Fin sd; Fin sd; Fin sd; Fin sd; Fin sd; Fin sd; Fin sd;
          Fin sd; Fin sd] with (replicate 10 (Fin sd)).
  rewrite !zscore_flat. simpl.
  unfold tied_scores, ten_symbols. simpl.
  f_equal. repeat (f_equal; [f_equal; lra|]). do 2 f_equal. lra.
Qed.

Example flat_market_regime :
  _compute_regime_score two_day_config (fill flat_market) = Ok 0%Z.
Proof.
  unfold _compute_regime_score, ratio_indicator, finite_ratio, flat_market,
    fill, rolling_mean_last, rolling_mean_at_last, window_last, Rmean.
  Rcompute. reflexivity.
Qed.

Example flat_market_vol_scale :
  _vol_target_scale two_day_config (replicate 3 (Fin 100)) = Ok 1.0.
Proof.
  unfold _vol_target_scale, latest_target_vol, pct_change, rolling_std_last,
    rolling_std_at_last, window_last.
  Rcompute.
  change [100 / 100 + - (1); 100 / 100 + - (1)]
    with (replicate 2 (100 / 100 + - (1))).
  rewrite Rstd_replicate by lia. by rewrite Rltb_true by lra.
Qed.

Example tied_scores_bear_selection :
  (nsmallest 5 tied_scores).*1 = ["NVDA"; "AMD"; "AVGO"; "QCOM"; "TXN"].
Proof.
  unfold nsmallest, stable_sort, tied_scores, ten_symbols.
  Rcompute. reflexivity.
Qed.

(** The whole computation on the flat market: no indicator fires (regime 0),
    the volatility scale is the neutral 1.0, the budget is the bear preset,
    and with all scores equal the five first instruments of the basket are
    short at the cap. *)
Example flat_market_targets :
  exists gross target,
    compute_targets two_day_config ten_securities (fill flat_market)
      = Ok (0%Z, gross, target) /\
    gross = 0.9 /\
    target = [("NVDA", -0.12); ("AMD", -0.12); ("AVGO", -0.12);
              ("QCOM", -0.12); ("TXN", -0.12)].
Proof.
  assert (Hsoxx : getitem (fill flat_market) (soxx two_day_config)
                  = Ok (replicate 3 (Fin 100))) by reflexivity.
  assert (Hg : gross_budget two_day_config 0 1.0 = 0.9).
  { unfold gross_budget, base_gross. simpl. rewrite clip_inside; lra. }
  assert (Hbuild : _build_targets two_day_config ten_securities tied_scores
                     0 0.9
                   = Ok [("NVDA", -0.12); ("AMD", -0.12); ("AVGO", -0.12);
                         ("QCOM", -0.12); ("TXN", -0.12)]).
  { unfold _build_targets.
    change (filter _ tied_scores)
      with (tradable_part ten_securities tied_scores).
    rewrite tied_scores_tradable_part. simpl.
    change (map (fun s => (s, 0)) ten_symbols) with tied_scores.
    rewrite tied_scores_bear_selection. simpl.
    replace (clip _ (- (0.12)) 0) with (-0.12) by (rewrite clip_at_lo; lra).
    reflexivity. }
  exists 0.9, [("NVDA", -0.12); ("AMD", -0.12); ("AVGO", -0.12);
               ("QCOM", -0.12); ("TXN", -0.12)].
  split_and!; [|reflexivity|reflexivity].
  unfold compute_targets.
  rewrite flat_market_regime, Hsoxx. cbn [mbind result_bind].
  rewrite flat_market_vol_scale. cbn [mbind result_bind].
  rewrite flat_market_scores. cbn [mbind result_bind].
  rewrite Hg, Hbuild. reflexivity.
Qed.

(** * Further properties of the code *)

(** ** The portfolio constructor, branch by branch *)

Lemma per_name_inv g names q :
  per_name g names = Ok q -> names <> [] /\ q = g / INR (length names).
Proof. destruct names; [done|]. intros [= <-]. done. Qed.

Lemma int_frac_le pct n : (pct <= 100)%nat -> (int_frac pct n <= n)%nat.
Proof.
  intros Hp. unfold int_frac. apply Nat.Div0.div_le_upper_bound. nia.
Qed.

Lemma int_frac_half pct n : (pct <= 50)%nat -> (2 * int_frac pct n <= n)%nat.
Proof.
  intros Hp. unfold int_frac.
  assert (pct * n / 100 <= 50 * n / 100)%nat
    by (apply Nat.Div0.div_le_mono; nia).
  assert (50 * n / 100 <= n / 2)%nat.
  { apply Nat.div_le_lower_bound; [lia|].
    pose proof (Nat.Div0.mul_div_le (50 * n) 100). lia. }
  pose proof (Nat.Div0.mul_div_le n 2). lia.
Qed.

Lemma regime_pct_le regime : (regime_pct regime <= 50)%nat.
Proof. unfold regime_pct. repeat case_decide; lia. Qed.

Lemma selection_k_bounds cfg regime n :
  (2 * min_names_each_side cfg <= n)%nat ->
  (min_names_each_side cfg <= selection_k cfg regime n)%nat /\
  (2 * selection_k cfg regime n <= n)%nat.
Proof.
  intros Hn. unfold selection_k.
  pose proof (int_frac_half (regime_pct regime) n (regime_pct_le regime)).
  lia.
Qed.

(** The map that each branch returns once the floor is met, in terms of the
    two selections among the tradable instruments. *)
Lemma build_targets_branches cfg secs score regime gross :
  (1 <= min_names_each_side cfg)%nat ->
  (2 * min_names_each_side cfg <= length (tradable_part secs score))%nat ->
  let tradable := tradable_part secs score in
  let k := selection_k cfg regime (length tradable) in
  let longs := (nlargest k tradable).*1 in
  let shorts := (nsmallest k tradable).*1 in
  let cap := max_weight_per_name cfg in
  length longs = k /\ length shorts = k /\
  _build_targets cfg secs score regime gross
  = Ok (if decide (regime = 3%Z) then
          dict_set_all [] longs (clip (gross / INR k) 0 cap)
        else if decide (regime = 2%Z \/ regime = 1%Z) then
          dict_set_all
            (dict_set_all [] longs (clip (gross * 0.50 / INR k) 0 cap))
            shorts (clip (- (gross * 0.50) / INR k) (- cap) 0)
        else
          dict_set_all [] shorts (clip (- gross / INR k) (- cap) 0)).
Proof.
  intros Hm Hn tradable k longs shorts cap.
  destruct (selection_k_bounds cfg regime (length tradable) Hn) as [Hk1 Hk2].
  fold k in Hk1, Hk2.
  assert (Hl : length longs = k).
  { unfold longs. rewrite length_fmap, nlargest_length. lia. }
  assert (Hs : length shorts = k).
  { unfold shorts. rewrite length_fmap, nsmallest_length. lia. }
  assert (Hlnil : longs <> [])
    by (intros E; rewrite E in Hl; simpl in Hl; lia).
  assert (Hsnil : shorts <> [])
    by (intros E; rewrite E in Hs; simpl in Hs; lia).
  split; [done|]. split; [done|].
  assert (Hfull : (2 * min_names_each_side cfg <= length score)%nat).
  { etrans; [exact Hn|]. apply length_filter. }
  unfold _build_targets.
  rewrite decide_False by lia.
  change (filter _ score) with tradable.
  rewrite decide_False by lia.
  unfold longs, shorts, k, selection_k, regime_pct in *.
  repeat case_decide; try lia; subst; simpl;
    rewrite ?per_name_ok by done; simpl;
    rewrite ?length_fmap, ?nlargest_length, ?nsmallest_length in *;
    try (destruct H0; done);
    repeat f_equal; lia.
Qed.

Lemma tradable_part_idemp secs score :
  tradable_part secs (tradable_part secs score) = tradable_part secs score.
Proof.
  unfold tradable_part. apply filter_all, Forall_forall.
  intros p Hp. by apply list_elem_of_filter in Hp as [? _].
Qed.

(** X1: an instrument that cannot be traded has no influence on the targets:
    the constructor returns on a score map what it returns on its tradable
    part. *)
Theorem build_targets_ignores_untradable cfg secs score regime gross :
  _build_targets cfg secs score regime gross
  = _build_targets cfg secs (tradable_part secs score) regime gross.
Proof.
  unfold _build_targets.
  change (filter (fun p => _is_tradeable secs p.1 = true) (tradable_part secs score))
    with (tradable_part secs (tradable_part secs score)).
  change (filter (fun p => _is_tradeable secs p.1 = true) score)
    with (tradable_part secs score).
  rewrite tradable_part_idemp.
  pose proof (length_filter (fun p => _is_tradeable secs p.1 = true) score)
    as Hle.
  change (filter _ score) with (tradable_part secs score) in Hle.
  destruct (decide (length score < 2 * min_names_each_side cfg)%nat);
    destruct (decide (length (tradable_part secs score)
                      < 2 * min_names_each_side cfg)%nat);
    try reflexivity; lia.
Qed.

Lemma selected_key_tradable secs score k s :
  s ∈ (nlargest k (tradable_part secs score)).*1 \/
  s ∈ (nsmallest k (tradable_part secs score)).*1 ->
  _is_tradeable secs s = true /\ s ∈ score.*1.
Proof.
  assert (Hin : forall p, p ∈ tradable_part secs score ->
                  _is_tradeable secs p.1 = true /\ p.1 ∈ score.*1).
  { intros p [Ht Hp]%list_elem_of_filter. split; [done|].
    by apply list_elem_of_fmap_2. }
  intros [Hs|Hs]; apply list_elem_of_fmap in Hs as (p & -> & Hp);
    apply Hin; [by eapply nlargest_elem | by eapply nsmallest_elem].
Qed.

Lemma targets_keys cfg secs score regime gross target :
  _build_targets cfg secs score regime gross = Ok target ->
  NoDup (dict_keys target) /\
  forall s, s ∈ dict_keys target ->
    _is_tradeable secs s = true /\ s ∈ score.*1.
Proof.
  unfold _build_targets. intros Hok.
  change (filter _ score) with (tradable_part secs score) in Hok.
  assert (Hnil : NoDup (dict_keys ([] : list (symbol * R)))) by constructor.
  repeat case_decide;
    repeat match type of Hok with
    | context [per_name ?g ?l] => destruct (per_name g l); simpl in Hok
    end;
    try discriminate; injection Hok as <-;
    (split; [repeat apply dict_keys_set_all_NoDup; exact Hnil|]);
    intros s Hs;
    repeat (apply dict_keys_set_all_elem in Hs as [Hs|Hs];
            [|eapply selected_key_tradable; eauto]);
    by apply elem_of_nil in Hs.
Qed.

(** X2: the map the constructor returns is keyed, without repetition, by
    instruments of the score map that can be traded: it never allocates to
    an instrument that is not scored or not tradable. *)
Theorem build_targets_keys cfg secs score regime gross target :
  _build_targets cfg secs score regime gross = Ok target ->
  NoDup (dict_keys target) /\
  forall s, s ∈ dict_keys target ->
    _is_tradeable secs s = true /\ s ∈ score.*1.
Proof. intros Hok. by apply (targets_keys cfg secs score regime gross). Qed.

Lemma build_targets_keys_witness :
  exists target,
    _build_targets initial_config ten_securities ten_scores 2 1.0 = Ok target /\
    NoDup (dict_keys target).
Proof.
  eexists. split; [exact mixed_scenario|].
  exact (proj1 (build_targets_keys _ _ _ _ _ _ mixed_scenario)).
Defined.

(** X3: the bull branch (regime 3) holds no short and the bear branch (any
    regime other than 1, 2 and 3) no long: every weight is [>= 0] in the
    first, [<= 0] in the second. *)
Theorem build_targets_one_sided_signs cfg secs score regime gross target :
  0 <= max_weight_per_name cfg ->
  _build_targets cfg secs score regime gross = Ok target ->
  (regime = 3%Z -> forall s w, (s, w) ∈ target -> 0 <= w) /\
  (regime <> 3%Z -> regime <> 2%Z -> regime <> 1%Z ->
   forall s w, (s, w) ∈ target -> w <= 0).
Proof.
  intros Hcap Hok. unfold _build_targets in Hok.
  set (cap := max_weight_per_name cfg) in *.
  assert (Hhigh : forall x, 0 <= clip x 0 cap)
    by (intros x; apply clip_between; lra).
  assert (Hlow : forall x, clip x (- cap) 0 <= 0)
    by (intros x; apply clip_between; lra).
  split; [intros H3|intros H3 H2 H1]; intros s w Hin;
    repeat case_decide; try done;
    repeat match type of Hok with
    | context [per_name ?g ?l] => destruct (per_name g l); simpl in Hok
    end;
    try discriminate; injection Hok as <-;
    repeat (apply elem_dict_set_all in Hin as [[Hin _]|Hin];
            [simpl in Hin; subst w; auto|]);
    by apply elem_of_nil in Hin.
Qed.

Lemma build_targets_one_sided_signs_witness :
  0 <= max_weight_per_name initial_config /\
  forall s w,
    (s, w) ∈ [("NVDA", 0.12); ("MCHP", 0.12); ("AVGO", 0.12); ("MU", 0.12)] ->
    0 <= w.
Proof.
  assert (H : 0 <= max_weight_per_name initial_config) by (simpl; lra).
  split; [exact H|].
  exact (proj1 (build_targets_one_sided_signs initial_config ten_securities
                  ten_scores 3 1.0 _ H bull_scenario) eq_refl).
Defined.

Lemma Rsum_map_plus {A} (f g : A -> R) (l : list A) :
  Rsum (map (fun e => f e + g e) l) = Rsum (map f l) + Rsum (map g l).
Proof.
  induction l as [|x l IH]; [simpl; lra|].
  change (f x + g x + Rsum (map (fun e => f e + g e) l)
          = f x + Rsum (map f l) + (g x + Rsum (map g l))).
  rewrite IH. lra.
Qed.

Lemma gross_exposure_sides target :
  gross_exposure target = long_sum target - short_sum target.
Proof.
  unfold gross_exposure, long_sum, short_sum.
  rewrite <- (Ropp_involutive (Rsum (map (fun e => Rmin e.2 0) target))).
  rewrite <- (Rsum_opp (fun e => Rmin e.2 0)).
  unfold Rminus. rewrite Ropp_involutive.
  rewrite <- (Rsum_map_plus (fun e : symbol * R => Rmax e.2 0)
                (fun e => - Rmin e.2 0)).
  f_equal. apply map_ext. intros e.
  unfold Rabs, Rmax, Rmin.
  destruct (Rcase_abs e.2); repeat destruct (Rle_dec _ _); lra.
Qed.

Lemma net_exposure_sides target :
  net_exposure target = long_sum target + short_sum target.
Proof.
  unfold net_exposure, long_sum, short_sum.
  rewrite <- (Rsum_map_plus (fun e : symbol * R => Rmax e.2 0)
                (fun e => Rmin e.2 0)).
  f_equal. apply map_ext. intros e.
  unfold Rmax, Rmin. repeat destruct (Rle_dec _ _); lra.
Qed.

Lemma one_sided_exposure (names : list symbol) w :
  gross_exposure (dict_set_all [] names w) <= Rabs w * INR (length names).
Proof.
  unfold gross_exposure.
  apply (side_sum_bound Rabs).
  - apply dict_keys_set_all_NoDup. constructor.
  - apply Rabs_pos.
  - intros e [[-> ?]|He]%elem_dict_set_all; [by left|].
    by apply elem_of_nil in He.
Qed.

Lemma two_sided_exposure (longs shorts : list symbol) lw sw :
  0 <= lw -> sw <= 0 ->
  0 <= long_sum (dict_set_all (dict_set_all [] longs lw) shorts sw)
    <= lw * INR (length longs) /\
  0 <= - short_sum (dict_set_all (dict_set_all [] longs lw) shorts sw)
    <= - sw * INR (length shorts).
Proof.
  intros Hlw Hsw. set (target := dict_set_all _ shorts sw).
  assert (Hnd : NoDup (dict_keys target)).
  { unfold target. do 2 apply dict_keys_set_all_NoDup. constructor. }
  assert (Hent : forall e, e ∈ target ->
            (e.2 = sw /\ e.1 ∈ shorts) \/ (e.2 = lw /\ e.1 ∈ longs)).
  { intros e He. unfold target in He.
    apply elem_dict_set_all in He as [?|He]; [by left|].
    apply elem_dict_set_all in He as [?|He]; [by right|].
    by apply elem_of_nil in He. }
  split.
  - unfold long_sum. apply (side_sum_bound (fun x => Rmax x 0)); [done..|].
    intros e [[-> ?]|[-> ?]]%Hent.
    + right. apply Rmax_right. lra.
    + left. split; [apply Rmax_left; lra | done].
  - unfold short_sum. rewrite <- (Rsum_opp (fun e => Rmin e.2 0)).
    apply (side_sum_bound (fun x => - Rmin x 0)); [done|lra|].
    intros e [[-> ?]|[-> ?]]%Hent.
    + left. split; [|done]. f_equal. apply Rmin_left. lra.
    + right. rewrite Rmin_right by lra. lra.
Qed.

Lemma clip_share_bound g n cap :
  0 <= g -> 0 <= cap -> (1 <= n)%nat ->
  0 <= clip (g / INR n) 0 cap /\ clip (g / INR n) 0 cap * INR n <= g /\
  clip (- g / INR n) (- cap) 0 <= 0 /\
  - clip (- g / INR n) (- cap) 0 * INR n <= g.
Proof.
  intros Hg Hcap Hn.
  assert (HnR : 0 < INR n) by (apply lt_0_INR; lia).
  assert (Hq : 0 <= g / INR n).
  { apply Rmult_le_pos; [done|]. left. by apply Rinv_0_lt_compat. }
  assert (E : g / INR n * INR n = g)
    by (rewrite Rmult_comm; by apply Rdiv_mul_cancel).
  assert (E' : - g / INR n = - (g / INR n)) by (unfold Rdiv; lra).
  pose proof (clip_between (g / INR n) 0 cap Hcap).
  pose proof (clip_le_arg (g / INR n) 0 cap Hq).
  pose proof (clip_between (- g / INR n) (- cap) 0 ltac:(lra)).
  pose proof (clip_ge_arg (- g / INR n) (- cap) 0 ltac:(lra)).
  split_and!; try lra.
  - rewrite <- E at 2. apply Rmult_le_compat_r; lra.
  - rewrite <- E at 2. apply Rmult_le_compat_r; lra.
Qed.

Lemma per_name_length g names q :
  per_name g names = Ok q ->
  (1 <= length names)%nat /\ q = g / INR (length names).
Proof.
  intros [Hne ->]%per_name_inv. split; [|done].
  destruct names; [done | simpl; lia].
Qed.

Lemma one_sided_within_budget gross cap (names : list symbol) q :
  0 <= gross -> 0 <= cap ->
  (per_name gross names = Ok q ->
   gross_exposure (dict_set_all [] names (clip q 0 cap)) <= gross) /\
  (per_name (- gross) names = Ok q ->
   gross_exposure (dict_set_all [] names (clip q (- cap) 0)) <= gross).
Proof.
  intros Hg Hcap.
  split; intros [Hn ->]%per_name_length;
    (etrans; [apply one_sided_exposure|]);
    destruct (clip_share_bound gross _ cap Hg Hcap Hn)
      as (Hw0 & Hw1 & Hw2 & Hw3).
  - by rewrite Rabs_pos_eq.
  - by rewrite Rabs_left1.
Qed.

Lemma two_sided_within_budget gross cap (longs shorts : list symbol) ql qs :
  0 <= gross -> 0 <= cap ->
  per_name (gross * 0.50) longs = Ok ql ->
  per_name (- (gross * 0.50)) shorts = Ok qs ->
  gross_exposure
    (dict_set_all (dict_set_all [] longs (clip ql 0 cap))
       shorts (clip qs (- cap) 0)) <= gross.
Proof.
  intros Hg Hcap [Hnl ->]%per_name_length [Hns ->]%per_name_length.
  destruct (clip_share_bound (gross * 0.50) _ cap ltac:(lra) Hcap Hnl)
    as (Hl0 & Hl1 & _).
  destruct (clip_share_bound (gross * 0.50) _ cap ltac:(lra) Hcap Hns)
    as (_ & _ & Hs0 & Hs1).
  rewrite gross_exposure_sides.
  destruct (two_sided_exposure longs shorts _ _ Hl0 Hs0) as [Hlong Hshort].
  lra.
Qed.

Lemma targets_within_budget cfg secs score regime gross target :
  0 <= gross ->
  0 <= max_weight_per_name cfg ->
  _build_targets cfg secs score regime gross = Ok target ->
  0 <= gross_exposure target <= gross.
Proof.
  intros Hg Hcap Hok. unfold _build_targets in Hok.
  set (cap := max_weight_per_name cfg) in *.
  assert (Hpos : forall t, 0 <= gross_exposure t).
  { intros t. unfold gross_exposure.
    induction t as [|e t IH]; [simpl; lra|].
    change (0 <= Rabs e.2 + Rsum (map (fun e0 => Rabs e0.2) t)).
    pose proof (Rabs_pos e.2). lra. }
  split; [apply Hpos|].
  repeat case_decide;
    try (injection Hok as <-; unfold gross_exposure; simpl; lra).
  - destruct (per_name gross _) as [q|] eqn:Eq; simpl in Hok; [|done].
    injection Hok as <-.
    by apply (one_sided_within_budget gross cap _ q Hg Hcap).
  - destruct (per_name (gross * 0.50) _) as [ql|] eqn:El; simpl in Hok;
      [|done].
    destruct (per_name (- (gross * 0.50)) _) as [qs|] eqn:Es; simpl in Hok;
      [|done].
    injection Hok as <-. by apply two_sided_within_budget.
  - destruct (per_name (gross * 0.50) _) as [ql|] eqn:El; simpl in Hok;
      [|done].
    destruct (per_name (- (gross * 0.50)) _) as [qs|] eqn:Es; simpl in Hok;
      [|done].
    injection Hok as <-. by apply two_sided_within_budget.
  - destruct (per_name (- gross) _) as [q|] eqn:Eq; simpl in Hok; [|done].
    injection Hok as <-.
    by apply (one_sided_within_budget gross cap _ q Hg Hcap).
Qed.

(** X4: in every regime the gross exposure of the map returned, the sum of
    its absolute weights, is at most the gross budget it was given (a budget
    and a cap that are not negative). *)
Theorem build_targets_within_budget cfg secs score regime gross target :
  0 <= gross ->
  0 <= max_weight_per_name cfg ->
  _build_targets cfg secs score regime gross = Ok target ->
  0 <= gross_exposure target <= gross.
Proof.
  intros Hg Hcap Hok.
  by apply (targets_within_budget cfg secs score regime gross).
Qed.

Lemma build_targets_within_budget_witness :
  0 <= 1.0 /\ 0 <= max_weight_per_name initial_config /\
  exists target,
    _build_targets initial_config ten_securities ten_scores 2 1.0 = Ok target /\
    0 <= gross_exposure target <= 1.0.
Proof.
  assert (H1 : 0 <= 1.0) by lra.
  assert (H2 : 0 <= max_weight_per_name initial_config) by (simpl; lra).
  split; [exact H1|]. split; [exact H2|].
  eexists. split; [exact mixed_scenario|].
  exact (build_targets_within_budget _ _ _ _ _ _ H1 H2 mixed_scenario).
Defined.

(** ** Selections on distinct scores *)

Lemma NoDup_snd_inj (l : list (symbol * R)) x y :
  NoDup l.*2 -> x ∈ l -> y ∈ l -> x.2 = y.2 -> x = y.
Proof.
  induction l as [|z l IH]; csimpl.
  - intros _ Hx. by apply elem_of_nil in Hx.
  - rewrite NoDup_cons. intros [Hz Hnd] Hx Hy E.
    apply elem_of_cons in Hx as [->|Hx]; apply elem_of_cons in Hy as [->|Hy].
    + done.
    + destruct Hz. rewrite E. by apply list_elem_of_fmap_2.
    + destruct Hz. rewrite <- E. by apply list_elem_of_fmap_2.
    + by apply IH.
Qed.

Lemma complement_length {A} `{EqDecision A} (sel l : list A) :
  NoDup l ->
  (length l <= length sel + length (filter (fun y => y ∉ sel) l))%nat.
Proof.
  intros Hnd.
  pose proof (filter_app_complement (fun y => y ∈ sel) l) as Hperm.
  apply Permutation_length in Hperm. rewrite length_app in Hperm.
  assert (length (filter (fun y => y ∈ sel) l) <= length sel)%nat.
  { apply submseteq_length, NoDup_submseteq; [by apply NoDup_filter|].
    intros y Hy. by apply list_elem_of_filter in Hy as [? _]. }
  lia.
Qed.

(** With distinct scores and [2 * k] entries at least, no entry is among both
    the [k] largest and the [k] smallest. *)
Lemma extremes_disjoint k (l : list (symbol * R)) x :
  NoDup l.*1 -> NoDup l.*2 -> (2 * k <= length l)%nat ->
  x ∈ nlargest k l -> x ∈ nsmallest k l -> False.
Proof.
  intros Hk1 Hk2 Hlen HA HB.
  assert (Hnd : NoDup l) by (by apply (NoDup_fmap_1 fst)).
  set (A := nlargest k l) in *. set (B := nsmallest k l) in *.
  set (LA := filter (fun y => y ∉ A) l).
  set (LB := filter (fun y => y ∉ B) l).
  assert (HlA : (length l <= k + length LA)%nat).
  { pose proof (complement_length A l Hnd).
    assert (length A <= k)%nat by (unfold A; rewrite nlargest_length; lia).
    unfold LA. lia. }
  assert (HlB : (length l <= k + length LB)%nat).
  { pose proof (complement_length B l Hnd).
    assert (length B <= k)%nat by (unfold B; rewrite nsmallest_length; lia).
    unfold LB. lia. }
  assert (HxA : forall y, y ∈ LA -> y.2 <= x.2 /\ y <> x /\ y ∈ l).
  { intros y [Hy Hyl]%list_elem_of_filter. split_and!; [|congruence|done].
    by apply (nlargest_highest k l x y). }
  assert (HxB : forall y, y ∈ LB -> x.2 <= y.2 /\ y <> x /\ y ∈ l).
  { intros y [Hy Hyl]%list_elem_of_filter. split_and!; [|congruence|done].
    by apply (nsmallest_lowest k l x y). }
  assert (Hxl : x ∈ l) by (by apply (nlargest_elem k l)).
  assert (Hall : (length (x :: LA ++ LB) <= length l)%nat).
  { apply submseteq_length, NoDup_submseteq.
    - apply NoDup_cons. split.
      + intros [Hx|Hx]%elem_of_app.
        * by destruct (HxA x Hx) as (_ & ? & _).
        * by destruct (HxB x Hx) as (_ & ? & _).
      + apply NoDup_app. split_and!; [by apply NoDup_filter| |by apply NoDup_filter].
        intros y Hy1 Hy2.
        destruct (HxA y Hy1) as (Hle & Hne & Hyl).
        destruct (HxB y Hy2) as (Hge & _ & _).
        apply Hne. apply (NoDup_snd_inj l); [done..|lra].
    - intros y [->|[Hy|Hy]%elem_of_app]%elem_of_cons; [done| |].
      + by destruct (HxA y Hy) as (_ & _ & ?).
      + by destruct (HxB y Hy) as (_ & _ & ?). }
  rewrite length_cons, length_app in Hall. lia.
Qed.

Lemma clip_neg q cap :
  0 <= cap -> clip (- q) (- cap) 0 = - clip q 0 cap.
Proof.
  intros Hcap. unfold clip, Rmin, Rmax.
  repeat destruct (Rle_dec _ _); lra.
Qed.

Lemma clip_pos_min q cap : 0 <= q -> 0 <= cap -> clip q 0 cap = Rmin q cap.
Proof.
  intros Hq Hcap. unfold clip, Rmin, Rmax.
  repeat destruct (Rle_dec _ _); lra.
Qed.

Lemma Rmin_share g n cap :
  0 < n -> n * Rmin (g / n) cap = Rmin g (n * cap).
Proof.
  intros Hn. assert (E : n * (g / n) = g) by (by apply Rdiv_mul_cancel).
  unfold Rmin. destruct (Rle_dec (g / n) cap) as [Hle|Hgt];
    destruct (Rle_dec g (n * cap)) as [Hle'|Hgt']; try lra.
  - exfalso. apply Hgt'. rewrite <- E. apply Rmult_le_compat_l; lra.
  - exfalso. apply Hgt. apply (Rmult_le_reg_l n); [done|]. lra.
Qed.

Lemma gross_exposure_const (names : list (symbol * R)) w :
  gross_exposure (map (fun p => (p.1, w)) names)
  = INR (length names) * Rabs w.
Proof.
  unfold gross_exposure. rewrite map_map. simpl. apply Rsum_const.
Qed.

Lemma net_exposure_const (names : list (symbol * R)) w :
  net_exposure (map (fun p => (p.1, w)) names) = INR (length names) * w.
Proof.
  unfold net_exposure. rewrite map_map. simpl. apply Rsum_const.
Qed.

Lemma Rsum_app l1 l2 : Rsum (l1 ++ l2) = Rsum l1 + Rsum l2.
Proof.
  induction l1 as [|x l1 IH]; [simpl; lra|].
  change (x + Rsum (l1 ++ l2) = x + Rsum l1 + Rsum l2). rewrite IH. lra.
Qed.

Lemma tradable_part_NoDup secs score :
  NoDup score.*1 -> NoDup (tradable_part secs score).*1.
Proof.
  intros Hnd. eapply sublist_NoDup; [exact Hnd|].
  apply fmap_sublist, sublist_filter.
Qed.

Lemma dict_fill_fresh (names : list (symbol * R)) (w : R) :
  NoDup names.*1 ->
  dict_set_all ([] : list (symbol * R)) names.*1 w
  = map (fun p => (p.1, w)) names.
Proof.
  intros Hnd. rewrite dict_set_all_fresh; [|done|].
  - simpl. by rewrite <- list_fmap_compose.
  - intros s _. apply not_elem_of_nil.
Qed.

(** X5: in the one-sided branches, once the floor is met on a score map
    without repeated instruments, the map returned has exactly [k] entries,
    those of the [k] highest scores (regime 3) or of the [k] lowest (any
    regime other than 1, 2, 3), all at the same weight [min(gross / k, cap)]
    up to the sign, and its gross exposure is [min(gross, k * cap)]: the cap
    on a name bounds what of the budget can be deployed. *)
Theorem one_sided_exposure_exact cfg secs score regime gross :
  NoDup score.*1 ->
  (1 <= min_names_each_side cfg)%nat ->
  (2 * min_names_each_side cfg <= length (tradable_part secs score))%nat ->
  0 <= gross ->
  0 <= max_weight_per_name cfg ->
  regime <> 2%Z -> regime <> 1%Z ->
  let tradable := tradable_part secs score in
  let k := selection_k cfg regime (length tradable) in
  let w := Rmin (gross / INR k) (max_weight_per_name cfg) in
  exists target,
    _build_targets cfg secs score regime gross = Ok target /\
    target = (if decide (regime = 3%Z)
              then map (fun p => (p.1, w)) (nlargest k tradable)
              else map (fun p => (p.1, - w)) (nsmallest k tradable)) /\
    length target = k /\
    gross_exposure target = Rmin gross (INR k * max_weight_per_name cfg).
Proof.
  intros Hnd Hm Hn Hg Hcap H2 H1 tradable k w.
  destruct (build_targets_branches cfg secs score regime gross Hm Hn)
    as (Hl & Hs & Hok).
  fold tradable k in Hl, Hs, Hok.
  destruct (selection_k_bounds cfg regime (length tradable) Hn) as [Hk1 Hk2].
  fold k in Hk1, Hk2.
  assert (HkR : 0 < INR k) by (apply lt_0_INR; lia).
  assert (Hq : 0 <= gross / INR k).
  { apply Rmult_le_pos; [done|]. left. by apply Rinv_0_lt_compat. }
  pose proof (tradable_part_NoDup secs score Hnd) as Hndt.
  fold tradable in Hndt.
  rewrite length_fmap in Hl, Hs.
  assert (Hw : 0 <= w) by (unfold w; apply Rmin_glb; lra).
  eexists. split; [exact Hok|].
  rewrite (decide_False (P := regime = 2%Z \/ regime = 1%Z)) by tauto.
  destruct (decide (regime = 3%Z)) as [H3|H3].
  - rewrite dict_fill_fresh by (by apply nlargest_NoDup).
    rewrite clip_pos_min by done. fold w.
    split_and!; [done|by rewrite length_map|].
    rewrite gross_exposure_const, Hl, Rabs_pos_eq by done.
    by apply Rmin_share.
  - rewrite dict_fill_fresh by (by apply nsmallest_NoDup).
    replace (- gross / INR k) with (- (gross / INR k)) by (unfold Rdiv; lra).
    rewrite clip_neg, clip_pos_min by done. fold w.
    split_and!; [done|by rewrite length_map|].
    rewrite gross_exposure_const, Hs, Rabs_Ropp, Rabs_pos_eq by done.
    by apply Rmin_share.
Qed.

Lemma one_sided_exposure_exact_witness :
  exists target,
    _build_targets initial_config ten_securities ten_scores 3 1.0 = Ok target /\
    length target = 4%nat /\
    gross_exposure target = Rmin 1.0 (INR 4 * 0.12).
Proof.
  assert (Hn : (2 * min_names_each_side initial_config
                <= length (tradable_part ten_securities ten_scores))%nat)
    by (rewrite ten_scores_tradable_part; simpl; lia).
  destruct (one_sided_exposure_exact initial_config ten_securities ten_scores
              3 1.0 ten_scores_NoDup ltac:(simpl; lia) Hn ltac:(lra)
              ltac:(simpl; lra) ltac:(done) ltac:(done))
    as (target & Hok & _ & Hlen & Hexp).
  rewrite ten_scores_tradable_part in Hlen, Hexp.
  exists target. split_and!; [exact Hok | exact Hlen | exact Hexp].
Defined.

Lemma NoDup_fst_inj (l : list (symbol * R)) x y :
  NoDup l.*1 -> x ∈ l -> y ∈ l -> x.1 = y.1 -> x = y.
Proof.
  induction l as [|z l IH]; csimpl.
  - intros _ Hx. by apply elem_of_nil in Hx.
  - rewrite NoDup_cons. intros [Hz Hnd] Hx Hy E.
    apply elem_of_cons in Hx as [->|Hx]; apply elem_of_cons in Hy as [->|Hy].
    + done.
    + destruct Hz. rewrite E. by apply list_elem_of_fmap_2.
    + destruct Hz. rewrite <- E. by apply list_elem_of_fmap_2.
    + by apply IH.
Qed.

Lemma extremes_keys_disjoint k (l : list (symbol * R)) s :
  NoDup l.*1 -> NoDup l.*2 -> (2 * k <= length l)%nat ->
  s ∈ (nlargest k l).*1 -> s ∉ (nsmallest k l).*1.
Proof.
  intros Hk1 Hk2 Hlen (p & -> & Hp)%list_elem_of_fmap
    (q & E & Hq)%list_elem_of_fmap.
  assert (p = q).
  { apply (NoDup_fst_inj l); [done| | |done].
    - by eapply nlargest_elem.
    - by eapply nsmallest_elem. }
  subst q. by apply (extremes_disjoint k l p).
Qed.

(** X6: in the mixed (2) and neutral (1) regimes, on a score map without
    repeated instruments or repeated scores and once the floor is met, no
    instrument is on both sides; the map returned holds the [k] highest
    scores at [+w] followed by the [k] lowest at [-w], with
    [w = min(0.5 * gross / k, cap)]: [2 * k] entries, a net exposure of zero,
    and a gross exposure of [min(gross, 2 * k * cap)]. *)
Theorem two_sided_distinct_scores cfg secs score regime gross :
  regime = 1%Z \/ regime = 2%Z ->
  NoDup score.*1 -> NoDup score.*2 ->
  (1 <= min_names_each_side cfg)%nat ->
  (2 * min_names_each_side cfg <= length (tradable_part secs score))%nat ->
  0 <= gross ->
  0 <= max_weight_per_name cfg ->
  let tradable := tradable_part secs score in
  let k := selection_k cfg regime (length tradable) in
  let w := Rmin (gross * 0.50 / INR k) (max_weight_per_name cfg) in
  (forall s, s ∈ (nlargest k tradable).*1 -> s ∉ (nsmallest k tradable).*1) /\
  exists target,
    _build_targets cfg secs score regime gross = Ok target /\
    target = map (fun p => (p.1, w)) (nlargest k tradable) ++
             map (fun p => (p.1, - w)) (nsmallest k tradable) /\
    length target = (2 * k)%nat /\
    net_exposure target = 0 /\
    gross_exposure target
    = Rmin gross (INR (2 * k) * max_weight_per_name cfg).
Proof.
  intros Hregime Hnd1 Hnd2 Hm Hn Hg Hcap tradable k w.
  destruct (build_targets_branches cfg secs score regime gross Hm Hn)
    as (Hl & Hs & Hok).
  fold tradable k in Hl, Hs, Hok.
  destruct (selection_k_bounds cfg regime (length tradable) Hn) as [Hk1 Hk2].
  fold k in Hk1, Hk2.
  assert (HkR : 0 < INR k) by (apply lt_0_INR; lia).
  assert (Hq : 0 <= gross * 0.50 / INR k).
  { apply Rmult_le_pos; [lra|]. left. by apply Rinv_0_lt_compat. }
  pose proof (tradable_part_NoDup secs score Hnd1) as Hndt.
  assert (Hndv : NoDup tradable.*2).
  { eapply sublist_NoDup; [exact Hnd2|]. apply fmap_sublist, sublist_filter. }
  fold tradable in Hndt.
  rewrite length_fmap in Hl, Hs.
  assert (Hw : 0 <= w) by (unfold w; apply Rmin_glb; lra).
  assert (Hdisj : forall s, s ∈ (nlargest k tradable).*1 ->
                    s ∉ (nsmallest k tradable).*1).
  { intros s. by apply extremes_keys_disjoint. }
  split; [exact Hdisj|].
  eexists. split; [exact Hok|].
  rewrite decide_False by (destruct Hregime; lia).
  rewrite decide_True by tauto.
  rewrite (dict_fill_fresh (nlargest k tradable))
    by (by apply nlargest_NoDup).
  rewrite dict_set_all_fresh.
  2: { by apply nsmallest_NoDup. }
  2: { intros s Hs' Hin. unfold dict_keys in Hin.
       rewrite <- list_fmap_compose in Hin. simpl in Hin.
       by apply (Hdisj s). }
  rewrite <- list_fmap_compose.
  replace (- (gross * 0.50) / INR k) with (- (gross * 0.50 / INR k))
    by (unfold Rdiv; lra).
  rewrite clip_neg, clip_pos_min by done. fold w.
  change ((fun k0 : symbol => (k0, - w)) ∘ fst <$> nsmallest k tradable)
    with (map (fun p : symbol * R => (p.1, - w)) (nsmallest k tradable)).
  split_and!.
  - done.
  - rewrite length_app, !length_map, Hl, Hs. lia.
  - unfold net_exposure. rewrite map_app, Rsum_app, !map_map. simpl.
    rewrite (Rsum_const w), (Rsum_const (- w)), Hl, Hs. lra.
  - unfold gross_exposure. rewrite map_app, Rsum_app, !map_map. simpl.
    rewrite (Rsum_const (Rabs w)), (Rsum_const (Rabs (- w))), Hl, Hs,
      Rabs_Ropp, Rabs_pos_eq by done.
    replace (INR (k + (k + 0))) with (2 * INR k)
      by (rewrite !plus_INR; simpl; lra).
    rewrite <- (Rmin_share gross (2 * INR k)) by lra.
    unfold w. replace (gross / (2 * INR k)) with (gross * 0.50 / INR k).
    + lra.
    + unfold Rdiv. rewrite Rinv_mult. lra.
Qed.

Lemma ten_scores_distinct : NoDup ten_scores.*2.
Proof.
  unfold ten_scores. simpl.
  repeat (apply NoDup_cons_2;
          [rewrite ?not_elem_of_cons; split_and?;
           try apply not_elem_of_nil; lra|]).
  apply NoDup_nil_2.
Qed.

Lemma two_sided_distinct_scores_witness :
  exists target,
    _build_targets initial_config ten_securities ten_scores 2 1.0 = Ok target /\
    length target = (2 * 4)%nat /\
    net_exposure target = 0.
Proof.
  assert (Hn : (2 * min_names_each_side initial_config
                <= length (tradable_part ten_securities ten_scores))%nat)
    by (rewrite ten_scores_tradable_part; simpl; lia).
  destruct (two_sided_distinct_scores initial_config ten_securities ten_scores
              2 1.0 (or_intror eq_refl) ten_scores_NoDup ten_scores_distinct
              ltac:(simpl; lia) Hn ltac:(lra) ltac:(simpl; lra))
    as (_ & target & Hok & _ & Hlen & Hnet & _).
  rewrite ten_scores_tradable_part in Hlen.
  exists target. split_and!; [exact Hok | exact Hlen | exact Hnet].
Defined.

(** ** The z-score *)

Lemma inf_of_sign_zero : inf_of_sign 0 = NaN.
Proof. unfold inf_of_sign. by rewrite !Rltb_false by lra. Qed.

Lemma num_mul_zero v :
  num_mul v (Fin 0) = match v with Fin _ => Fin 0 | _ => NaN end.
Proof.
  destruct v as [a| | |]; simpl; [by rewrite Rmult_0_r| | |done].
  - apply inf_of_sign_zero.
  - replace (- 0) with 0 by lra. apply inf_of_sign_zero.
Qed.

Lemma mapM_as_fin_Some xs rs :
  mapM as_fin xs = Some rs -> xs = map Fin rs.
Proof.
  revert rs. induction xs as [|x xs IH]; intros rs; simpl.
  - by intros [= <-].
  - destruct x as [a| | |]; simpl; try done.
    destruct (mapM as_fin xs) as [rs'|]; simpl; [|done].
    intros [= <-]. simpl. by rewrite (IH rs').
Qed.

Lemma mapM_as_fin_map rs : mapM as_fin (map Fin rs) = Some rs.
Proof. induction rs as [|r rs IH]; [done|]. simpl. by rewrite IH. Qed.

Lemma dropna_map_Fin rs : dropna (map Fin rs) = map Fin rs.
Proof.
  unfold dropna. apply filter_all, Forall_forall.
  intros x (r & -> & _)%list_elem_of_fmap. done.
Qed.

Lemma sum_map_Fin rs : foldr num_add (Fin 0) (map Fin rs) = Fin (Rsum rs).
Proof. induction rs as [|r rs IH]; [done|]. simpl. by rewrite IH. Qed.

Lemma series_mean_Fin rs :
  rs <> [] -> series_mean (map Fin rs) = Fin (Rmean rs).
Proof.
  intros Hne. unfold series_mean.
  rewrite dropna_map_Fin, sum_map_Fin, length_map. simpl.
  assert (0 < INR (length rs)).
  { apply lt_0_INR. destruct rs; [done | simpl; lia]. }
  by rewrite Rltb_false, Rltb_true by lra.
Qed.

Lemma series_std_Fin rs :
  series_std (map Fin rs)
  = if decide (length rs <= 1)%nat then NaN else Fin (Rstd rs).
Proof. unfold series_std. by rewrite dropna_map_Fin, mapM_as_fin_map. Qed.

(** What a standard deviation that passes the test says of the series. *)
Lemma series_std_regular x :
  zscore_degenerate (series_std x) = false ->
  exists rs, dropna x = map Fin rs /\ (2 <= length rs)%nat /\
             series_std x = Fin (Rstd rs) /\ 1e-12 <= Rstd rs.
Proof.
  unfold series_std.
  destruct (mapM as_fin (dropna x)) as [rs|] eqn:E; [|done].
  apply mapM_as_fin_Some in E.
  case_decide as Hlen; [done|].
  unfold zscore_degenerate. simpl. intros Hlt.
  exists rs. split_and!; [done|lia|done|].
  destruct (Rltb_spec (Rstd rs) 1e-12); [done | lra].
Qed.

Lemma series_mean_of_dropna x rs :
  dropna x = map Fin rs -> rs <> [] -> series_mean x = Fin (Rmean rs).
Proof.
  intros E Hne. unfold series_mean. rewrite E, sum_map_Fin, length_map.
  simpl.
  assert (0 < INR (length rs)).
  { apply lt_0_INR. destruct rs; [done | simpl; lia]. }
  by rewrite Rltb_false, Rltb_true by lra.
Qed.

Lemma zscore_entries x :
  length (_zscore x) = length x /\
  Forall (fun v => isinf v = false) (_zscore x) /\
  (forall i v, x !! i = Some v -> isnan v || isinf v = true ->
     _zscore x !! i = Some NaN).
Proof.
  unfold _zscore.
  destruct (zscore_degenerate (series_std x)) eqn:Hdeg.
  - split_and!.
    + by rewrite length_map.
    + apply Forall_forall. intros v (u & -> & _)%list_elem_of_fmap.
      rewrite num_mul_zero. by destruct u.
    + intros i v Hi Hv.
      change (map ?f x) with (f <$> x). rewrite list_lookup_fmap, Hi. simpl.
      rewrite num_mul_zero. by destruct v.
  - destruct (series_std_regular x Hdeg) as (rs & E & Hlen & -> & Hsd).
    assert (Hne : rs <> []) by (intros ->; simpl in Hlen; lia).
    rewrite (series_mean_of_dropna x rs E Hne).
    assert (Hfin : forall v, v ∈ x -> v = NaN \/ exists a, v = Fin a).
    { intros v Hv. destruct v as [a| | |]; [eauto| | |by left].
      - assert (Hin : PInf ∈ dropna x) by (by apply list_elem_of_filter).
        rewrite E in Hin. by apply list_elem_of_fmap in Hin as (? & ? & _).
      - assert (Hin : NInf ∈ dropna x) by (by apply list_elem_of_filter).
        rewrite E in Hin. by apply list_elem_of_fmap in Hin as (? & ? & _). }
    split_and!.
    + by rewrite length_map.
    + apply Forall_forall. intros v (u & -> & Hu)%list_elem_of_fmap.
      destruct (Hfin u Hu) as [->|[a ->]]; [done|]. simpl.
      by rewrite (Rltb_true 0) by lra; rewrite orb_true_r.
    + intros i v Hi Hv.
      change (map ?f x) with (f <$> x). rewrite list_lookup_fmap, Hi. simpl.
      destruct (Hfin v (list_elem_of_lookup_2 _ _ _ Hi)) as [->|[a ->]];
        done.
Qed.

(** X7: the z-score keeps the length of the series, keeps every [NaN] in
    place, and never produces an infinity: an infinite entry comes out as
    [NaN] (the deviation of the series is undefined then, and the series is
    zeroed rather than divided). *)
Theorem zscore_no_infinity x :
  length (_zscore x) = length x /\
  Forall (fun v => isinf v = false) (_zscore x) /\
  (forall i v, x !! i = Some v -> isnan v || isinf v = true ->
     _zscore x !! i = Some NaN).
Proof. apply zscore_entries. Qed.

Lemma zscore_no_infinity_witness :
  _zscore [Fin 1; PInf] !! 1%nat = Some NaN.
Proof.
  exact (proj2 (proj2 (zscore_no_infinity [Fin 1; PInf])) 1%nat PInf
           eq_refl eq_refl).
Defined.

Lemma Rsum_map_scale {A} (f : A -> R) c (l : list A) :
  Rsum (map (fun e => f e * c) l) = Rsum (map f l) * c.
Proof.
  induction l as [|x l IH]; [simpl; lra|].
  change (f x * c + Rsum (map (fun e => f e * c) l)
          = (f x + Rsum (map f l)) * c).
  rewrite IH. lra.
Qed.

Lemma Rsum_map_id rs : Rsum (map (fun r => r) rs) = Rsum rs.
Proof. by rewrite map_id. Qed.

Lemma Rsum_centered rs :
  rs <> [] -> Rsum (map (fun r => r - Rmean rs) rs) = 0.
Proof.
  intros Hne.
  assert (Hn : 0 < INR (length rs)).
  { apply lt_0_INR. destruct rs; [done | simpl; lia]. }
  change (fun r => r - Rmean rs) with (fun r => r + - Rmean rs).
  rewrite (Rsum_map_plus (fun r => r) (fun _ => - Rmean rs)).
  rewrite Rsum_map_id, Rsum_const. unfold Rmean. field. lra.
Qed.

Lemma Rsum_squares_nonneg {A} (f : A -> R) (l : list A) :
  0 <= Rsum (map (fun e => f e * f e) l).
Proof.
  induction l as [|x l IH]; [simpl; lra|].
  change (0 <= f x * f x + Rsum (map (fun e => f e * f e) l)).
  pose proof (Rle_0_sqr (f x)) as H. unfold Rsqr in H. lra.
Qed.

(** X8: on a series of at least two finite values whose deviation passes the
    test ([>= 1e-12]), the z-score is the table of [(x - mean) / std], all
    finite, and it is standardised: its mean is 0 and its sample standard
    deviation is 1. *)
Theorem zscore_standardises rs :
  (2 <= length rs)%nat ->
  1e-12 <= Rstd rs ->
  let zs := map (fun r => (r - Rmean rs) / Rstd rs) rs in
  _zscore (map Fin rs) = map Fin zs /\ Rmean zs = 0 /\ Rstd zs = 1.
Proof.
  intros Hlen Hsd zs.
  assert (Hne : rs <> []) by (intros ->; simpl in Hlen; lia).
  assert (Hn : 2 <= INR (length rs)).
  { change 2 with (INR 2). by apply le_INR. }
  set (mu := Rmean rs) in *. set (sd := Rstd rs) in *.
  assert (Hzlen : length zs = length rs) by (unfold zs; by rewrite length_map).
  assert (Hzsum : Rsum zs = 0).
  { unfold zs.
    change (fun r => (r - mu) / sd) with (fun r => (r - mu) * / sd).
    rewrite (Rsum_map_scale (fun r => r - mu)).
    unfold mu. rewrite Rsum_centered by done. lra. }
  assert (Hzmean : Rmean zs = 0).
  { unfold Rmean. rewrite Hzsum. unfold Rdiv. lra. }
  split_and!; [|done|].
  - unfold _zscore. rewrite series_std_Fin, series_mean_Fin by done.
    rewrite decide_False by lia. fold mu sd.
    assert (Hdeg : zscore_degenerate (Fin sd) = false).
    { unfold zscore_degenerate. simpl. apply Rltb_false. lra. }
    rewrite Hdeg. unfold zs. rewrite !map_map. apply map_ext. intros r.
    simpl. rewrite (Rltb_true 0 sd) by lra. rewrite orb_true_r.
    f_equal.
  - unfold Rstd at 1. rewrite Hzmean, Hzlen.
    transitivity (sqrt 1); [|apply sqrt_1]. f_equal.
    set (S := Rsum (map (fun x => (x - mu) * (x - mu)) rs)).
    set (V := S / (INR (length rs) - 1)).
    assert (HV : sd = sqrt V) by reflexivity.
    assert (HV0 : 0 <= V).
    { unfold V. apply Rmult_le_pos; [apply Rsum_squares_nonneg|].
      left. apply Rinv_0_lt_compat. lra. }
    assert (Hsq : sd * sd = V) by (rewrite HV; by apply sqrt_sqrt).
    assert (HVpos : 0 < V) by nra.
    assert (HS : S = V * (INR (length rs) - 1)) by (unfold V; field; lra).
    unfold zs. rewrite map_map.
    replace (map (fun x => ((x - mu) / sd - 0) * ((x - mu) / sd - 0)) rs)
      with (map (fun x => (x - mu) * (x - mu) * / (sd * sd)) rs).
    2: { apply map_ext. intros r. field. lra. }
    rewrite (Rsum_map_scale (fun x => (x - mu) * (x - mu))).
    fold S. rewrite Hsq, HS. field. lra.
Qed.

Lemma zscore_standardises_witness :
  (2 <= length plus_minus_one)%nat /\ 1e-12 <= Rstd plus_minus_one /\
  Rstd (map (fun r => (r - Rmean plus_minus_one) / Rstd plus_minus_one)
          plus_minus_one) = 1.
Proof.
  assert (H1 : (2 <= length plus_minus_one)%nat) by (simpl; lia).
  assert (E : Rstd plus_minus_one = sqrt 2).
  { unfold Rstd, Rmean, plus_minus_one. f_equal. simpl. lra. }
  assert (H2 : 1e-12 <= Rstd plus_minus_one).
  { rewrite E. pose proof (sqrt_bounds 2 1 2). lra. }
  split; [exact H1|]. split; [exact H2|].
  exact (proj2 (proj2 (zscore_standardises plus_minus_one H1 H2))).
Defined.

(** X9: a series with fewer than two values that are not [NaN] has no
    sample deviation, and its z-score is [x * 0.0]: zero at a finite value,
    [NaN] elsewhere. A single scored instrument gets the score zero, not an
    undefined one. *)
Theorem zscore_too_few_values x :
  (length (dropna x) <= 1)%nat ->
  _zscore x = map (fun v => match v with Fin _ => Fin 0 | _ => NaN end) x.
Proof.
  intros Hlen. unfold _zscore.
  assert (Hsd : series_std x = NaN).
  { unfold series_std.
    destruct (mapM as_fin (dropna x)) as [rs|] eqn:E; [|done].
    apply mapM_as_fin_Some in E. rewrite E, length_map in Hlen.
    by rewrite decide_True. }
  rewrite Hsd. simpl.
  induction x as [|v x IH]; [done|].
  simpl. rewrite num_mul_zero. f_equal.
  clear -x. induction x as [|v x IH]; [done|].
  simpl. by rewrite num_mul_zero, IH.
Qed.

Lemma zscore_too_few_values_witness :
  (length (dropna [Fin 7; NaN]) <= 1)%nat /\
  _zscore [Fin 7; NaN] = [Fin 0; NaN].
Proof.
  assert (H : (length (dropna [Fin 7; NaN]) <= 1)%nat) by (simpl; lia).
  split; [exact H|]. exact (zscore_too_few_values [Fin 7; NaN] H).
Defined.

(** ** Percent changes and trailing windows *)

Lemma ffill_from_length prev xs : length (ffill_from prev xs) = length xs.
Proof.
  revert prev. induction xs as [|x xs IH]; intros prev; simpl; [done|].
  by rewrite IH.
Qed.

Lemma shift_length p xs : length (shift p xs) = length xs.
Proof.
  unfold shift. rewrite length_take, length_app, length_replicate. lia.
Qed.

Lemma pct_change_length p xs : length (pct_change p xs) = length xs.
Proof.
  unfold pct_change, ffill.
  rewrite length_zip_with, shift_length, ffill_from_length. lia.
Qed.

Lemma num_div_nan x : num_div x NaN = NaN.
Proof. by destruct x. Qed.

(** The first [p] percent changes over [p] periods are undefined. *)
Lemma pct_change_head p xs i :
  (i < p)%nat -> (i < length xs)%nat -> pct_change p xs !! i = Some NaN.
Proof.
  intros Hp Hi. unfold pct_change.
  set (ys := ffill xs).
  assert (Hlen : length ys = length xs) by apply ffill_from_length.
  destruct (lookup_lt_is_Some_2 ys i) as [y Hy]; [lia|].
  assert (Hs : shift p ys !! i = Some NaN).
  { unfold shift. rewrite lookup_take_lt by lia.
    rewrite lookup_app_l by (rewrite length_replicate; lia).
    by apply lookup_replicate_2. }
  rewrite lookup_zip_with, Hy, Hs. simpl. by rewrite num_div_nan.
Qed.

Lemma pct_change_short p xs :
  (length xs <= p)%nat -> pct_change p xs = replicate (length xs) NaN.
Proof.
  intros Hlen. apply list_eq. intros i.
  destruct (decide (i < length xs)%nat) as [Hi|Hi].
  - rewrite pct_change_head by lia. symmetry. by apply lookup_replicate_2.
  - rewrite !lookup_ge_None_2; [done| |];
      rewrite ?length_replicate, ?pct_change_length; lia.
Qed.

Lemma mapM_as_fin_nan xs : NaN ∈ xs -> mapM as_fin xs = None.
Proof.
  intros Hin. destruct (mapM as_fin xs) as [rs|] eqn:E; [|done].
  apply mapM_as_fin_Some in E. subst xs.
  by apply list_elem_of_fmap in Hin as (? & ? & _).
Qed.

(** With no more closes than the window, the rolling deviation of the
    changes over one period is undefined: the window is incomplete, its first
    change being undefined. *)
Lemma rolling_std_of_changes_short w xs :
  (length xs <= w)%nat -> rolling_std_at_last w (pct_change 1 xs) = NaN.
Proof.
  intros Hlen. unfold rolling_std_at_last, window_last.
  rewrite pct_change_length.
  replace (length xs - w)%nat with 0%nat by lia. rewrite drop_0.
  case_decide as Hw; [|done].
  destruct xs as [|x xs]; [simpl in *; subst w; done|].
  rewrite mapM_as_fin_nan; [done|].
  apply (list_elem_of_lookup_2 _ 0). apply pct_change_head; simpl; lia.
Qed.

(** ** The volatility targeter *)

(** X10: the targeter raises [IndexError] on an empty close sequence and on
    no other; on every other sequence it returns the neutral 1.0 or a scale
    within [[min_gross, max_gross]]. *)
Theorem vol_target_scale_range cfg soxx_close :
  min_gross cfg <= max_gross cfg ->
  (soxx_close = [] -> _vol_target_scale cfg soxx_close = Raise IndexError) /\
  (soxx_close <> [] ->
   exists s, _vol_target_scale cfg soxx_close = Ok s /\
             (s = 1.0 \/ min_gross cfg <= s <= max_gross cfg)).
Proof.
  intros Hmm. split; [by intros ->|].
  intros Hne. unfold _vol_target_scale, latest_target_vol, rolling_std_last.
  destruct (pct_change 1 soxx_close) as [|r rs] eqn:E.
  { apply (f_equal length) in E. rewrite pct_change_length in E.
    destruct soxx_close; done. }
  simpl. eexists. split; [done|].
  unfold scale_of_vol.
  destruct (rolling_std_at_last _ _) as [v| | |]; [|right|by left..].
  - destruct (Rltb v 1e-8); [by left|]. right. by apply clip_between.
  - by apply clip_between.
Qed.

Lemma vol_target_scale_range_witness :
  min_gross initial_config <= max_gross initial_config /\
  flat_closes <> [] /\
  exists s, _vol_target_scale initial_config flat_closes = Ok s /\
            (s = 1.0 \/
             min_gross initial_config <= s <= max_gross initial_config).
Proof.
  assert (H1 : min_gross initial_config <= max_gross initial_config)
    by (simpl; lra).
  assert (H2 : flat_closes <> []) by done.
  split; [exact H1|]. split; [exact H2|].
  exact (proj2 (vol_target_scale_range initial_config flat_closes H1) H2).
Defined.

(** X11: with a history of at least one close and no more closes than
    [vol_target_window], the rolling deviation is undefined and the targeter
    returns the neutral 1.0: the window asks for [vol_target_window] returns,
    that is one close more. *)
Theorem vol_target_scale_short_history cfg soxx_close :
  soxx_close <> [] ->
  (length soxx_close <= vol_target_window cfg)%nat ->
  _vol_target_scale cfg soxx_close = Ok 1.0.
Proof.
  intros Hne Hlen.
  unfold _vol_target_scale, latest_target_vol, rolling_std_last.
  destruct (pct_change 1 soxx_close) as [|r rs] eqn:E.
  { apply (f_equal length) in E. rewrite pct_change_length in E.
    destruct soxx_close; done. }
  rewrite <- E. by rewrite rolling_std_of_changes_short.
Qed.

Lemma vol_target_scale_short_history_witness :
  replicate 20 (Fin 100) <> [] /\
  (length (replicate 20 (Fin 100)) <= vol_target_window initial_config)%nat /\
  _vol_target_scale initial_config (replicate 20 (Fin 100)) = Ok 1.0.
Proof.
  assert (H1 : replicate 20 (Fin 100) <> []) by done.
  assert (H2 : (length (replicate 20 (Fin 100))
                <= vol_target_window initial_config)%nat) by (simpl; lia).
  split; [exact H1|]. split; [exact H2|].
  exact (vol_target_scale_short_history initial_config _ H1 H2).
Defined.

Lemma clip_monotone x y lo hi : x <= y -> clip x lo hi <= clip y lo hi.
Proof.
  intros Hxy. unfold clip, Rmin, Rmax. repeat destruct (Rle_dec _ _); lra.
Qed.

Lemma vol_scale_raw_antitone cfg v1 v2 :
  0 <= target_annual_vol cfg -> v1 <= v2 ->
  vol_scale_raw cfg v2 <= vol_scale_raw cfg v1.
Proof.
  intros HT Hv. unfold vol_scale_raw.
  pose proof sqrt_252_bounds as Hs.
  set (d1 := Rmax (v1 * sqrt 252) 1e-3). set (d2 := Rmax (v2 * sqrt 252) 1e-3).
  assert (H1 : 1e-3 <= d1) by apply Rmax_r.
  assert (H12 : d1 <= d2).
  { unfold d1, d2. apply Rmax_lub; [|apply Rmax_r].
    etrans; [|apply Rmax_l]. nra. }
  unfold Rdiv. apply Rmult_le_compat_l; [done|].
  apply Rinv_le_contravar; lra.
Qed.

(** X12: outside the degenerate branch the scale does not increase with the
    volatility: of two deviations of at least [1e-8], the larger gives a
    scale that is not larger (a target that is not negative). *)
Theorem scale_of_vol_antitone cfg v1 v2 :
  0 <= target_annual_vol cfg ->
  1e-8 <= v1 -> v1 <= v2 ->
  scale_of_vol cfg (Fin v2) <= scale_of_vol cfg (Fin v1).
Proof.
  intros HT H1 H12. unfold scale_of_vol.
  rewrite !Rltb_false by lra.
  by apply clip_monotone, vol_scale_raw_antitone.
Qed.

Lemma scale_of_vol_antitone_witness :
  0 <= target_annual_vol initial_config /\ 1e-8 <= 0.01 /\ 0.01 <= 0.02 /\
  scale_of_vol initial_config (Fin 0.02)
  <= scale_of_vol initial_config (Fin 0.01).
Proof.
  assert (H1 : 0 <= target_annual_vol initial_config) by (simpl; lra).
  assert (H2 : 1e-8 <= 0.01) by lra.
  assert (H3 : 0.01 <= 0.02) by lra.
  split_and!; [exact H1 | exact H2 | exact H3|].
  exact (scale_of_vol_antitone initial_config 0.01 0.02 H1 H2 H3).
Defined.

(** X13: the scale saturates at both ends: a deviation whose annualised value
    is at least [T / min_gross] gives exactly [min_gross], and one of at
    least [1e-8] whose annualised value, floored at [1e-3], is at most
    [T / max_gross] gives exactly [max_gross]; so the scale just above the
    degenerate threshold is [max_gross] when [T >= 1e-3 * max_gross], not
    the neutral 1.0 that holds below it. *)
Theorem scale_of_vol_saturates cfg v :
  0 < min_gross cfg -> min_gross cfg <= max_gross cfg ->
  1e-8 <= v ->
  (target_annual_vol cfg <= min_gross cfg * (v * sqrt 252) ->
   0 <= target_annual_vol cfg ->
   scale_of_vol cfg (Fin v) = min_gross cfg) /\
  (Rmax (v * sqrt 252) 1e-3 * max_gross cfg <= target_annual_vol cfg ->
   scale_of_vol cfg (Fin v) = max_gross cfg).
Proof.
  intros Hmin Hmm Hv. unfold scale_of_vol, vol_scale_raw.
  rewrite Rltb_false by lra.
  set (d := Rmax (v * sqrt 252) 1e-3).
  assert (Hd : 1e-3 <= d) by apply Rmax_r.
  assert (Hann : v * sqrt 252 <= d) by apply Rmax_l.
  assert (E : forall t, t / d * d = t) by (intros t; field; lra).
  split.
  - intros HT HT0. apply clip_at_lo; [done|].
    apply (Rmult_le_reg_r d); [lra|]. rewrite E. nra.
  - intros HT. apply clip_at_hi; [done|].
    apply (Rmult_le_reg_r d); [lra|]. rewrite E. lra.
Qed.

Lemma scale_of_vol_saturates_witness :
  0 < min_gross initial_config /\
  min_gross initial_config <= max_gross initial_config /\
  1e-8 <= 0.05 /\
  target_annual_vol initial_config
    <= min_gross initial_config * (0.05 * sqrt 252) /\
  scale_of_vol initial_config (Fin 0.05) = min_gross initial_config.
Proof.
  assert (H1 : 0 < min_gross initial_config) by (simpl; lra).
  assert (H2 : min_gross initial_config <= max_gross initial_config)
    by (simpl; lra).
  assert (H3 : 1e-8 <= 0.05) by lra.
  assert (H4 : target_annual_vol initial_config
               <= min_gross initial_config * (0.05 * sqrt 252)).
  { pose proof sqrt_252_bounds. simpl. lra. }
  split_and!; [exact H1 | exact H2 | exact H3 | exact H4 |].
  apply (proj1 (scale_of_vol_saturates initial_config 0.05 H1 H2 H3));
    [exact H4 | simpl; lra].
Defined.

(** ** The alpha scores *)

Lemma finite_entries_sublist (l : list (symbol * num)) :
  (omap (fun p => pair p.1 <$> as_fin p.2) l).*1 `sublist_of` l.*1.
Proof.
  induction l as [|[s v] l IH]; csimpl; [done|].
  destruct v as [a| | |]; csimpl.
  - by apply sublist_skip.
  - by apply sublist_cons.
  - by apply sublist_cons.
  - by apply sublist_cons.
Qed.

Lemma zip_fst_sublist {A B} (l : list A) (k : list B) :
  (zip l k).*1 `sublist_of` l.
Proof.
  revert k. induction l as [|x l IH]; intros [|y k]; csimpl;
    try apply sublist_nil_l.
  apply sublist_skip, IH.
Qed.

Lemma labelled_fst {A} (f : list num -> A) (l : list (symbol * list num)) :
  (map (fun c => (c.1, f c.2)) l).*1 = l.*1.
Proof. induction l as [|c l IH]; csimpl; [done|]. by rewrite IH. Qed.

Lemma labelled_snd {A} (f : list num -> A) (l : list (symbol * list num)) :
  (map (fun c => (c.1, f c.2)) l).*2 = map (fun c => f c.2) l.
Proof. induction l as [|c l IH]; csimpl; [done|]. by rewrite IH. Qed.

(** The last row of the scores before they are filtered. *)
Lemma alpha_scores_unfold cfg t :
  df_rows t <> 0%nat ->
  _alpha_scores cfg t
  = Ok (omap (fun p => pair p.1 <$> as_fin p.2)
          (zip (df_columns t).*1
             (zip_with (fun m v => num_sub m (num_mul (Fin 0.5) v))
                (_zscore
                   (map (fun c => default NaN
                                    (last (pct_change (mom_lookback cfg) c.2)))
                      (df_columns t)))
                (_zscore
                   (map (fun c => rolling_std_at_last (vol_score_window cfg)
                                    (pct_change 1 c.2))
                      (df_columns t)))))).
Proof.
  intros Hrows. unfold _alpha_scores, last_row.
  rewrite !decide_False by done. cbn [mbind result_bind].
  pose proof (labelled_fst
    (fun c => default NaN (last (pct_change (mom_lookback cfg) c)))
    (df_columns t)) as Hfst.
  pose proof (labelled_snd
    (fun c => default NaN (last (pct_change (mom_lookback cfg) c)))
    (df_columns t)) as Hmom.
  pose proof (labelled_snd
    (fun c => rolling_std_at_last (vol_score_window cfg) (pct_change 1 c))
    (df_columns t)) as Hvol.
  simpl in Hfst, Hmom, Hvol. by rewrite Hfst, Hmom, Hvol.
Qed.

Lemma alpha_scores_labels cfg t :
  (df_rows t = 0%nat -> _alpha_scores cfg t = Raise IndexError) /\
  (df_rows t <> 0%nat ->
   exists scores,
     _alpha_scores cfg t = Ok scores /\
     scores.*1 `sublist_of` (df_columns t).*1).
Proof.
  split.
  - intros H0. unfold _alpha_scores, last_row.
    by rewrite !decide_True by done.
  - intros Hrows. rewrite alpha_scores_unfold by done.
    eexists. split; [done|].
    etrans; [apply finite_entries_sublist | apply zip_fst_sublist].
Qed.

(** X14: the scorer raises [IndexError] on a table without rows and on no
    other; on a table with rows it returns scores whose labels are column
    labels of the table, in the order of the columns, each column once at
    most: a column is left out (its score is not finite) or scored, never
    moved or repeated. *)
Theorem alpha_scores_index cfg t :
  (df_rows t = 0%nat -> _alpha_scores cfg t = Raise IndexError) /\
  (df_rows t <> 0%nat ->
   exists scores,
     _alpha_scores cfg t = Ok scores /\
     scores.*1 `sublist_of` (df_columns t).*1).
Proof. apply alpha_scores_labels. Qed.

Lemma alpha_scores_index_witness :
  df_rows flat_market <> 0%nat /\
  exists scores,
    _alpha_scores two_day_config flat_market = Ok scores /\
    scores.*1 `sublist_of` (df_columns flat_market).*1.
Proof.
  assert (H : df_rows flat_market <> 0%nat) by done.
  split; [exact H|].
  exact (proj2 (alpha_scores_index two_day_config flat_market) H).
Defined.

Lemma last_replicate {A} n (x : A) :
  (1 <= n)%nat -> last (replicate n x) = Some x.
Proof.
  intros Hn. rewrite last_lookup, length_replicate.
  apply lookup_replicate_2. lia.
Qed.

Lemma zscore_all_nan n : _zscore (replicate n NaN) = replicate n NaN.
Proof.
  destruct (zscore_entries (replicate n NaN)) as (Hlen & _ & Hnan).
  rewrite length_replicate in Hlen.
  apply list_eq. intros i.
  destruct (decide (i < n)%nat) as [Hi|Hi].
  - rewrite (Hnan i NaN); [|by apply lookup_replicate_2|done].
    symmetry. by apply lookup_replicate_2.
  - rewrite !lookup_ge_None_2; [done| |]; rewrite ?length_replicate; lia.
Qed.

Lemma zip_with_nan_left (f : num -> num) n (vs : list num) :
  Forall (fun m => m = NaN)
    (zip_with (fun m v => num_sub m (f v)) (replicate n NaN) vs).
Proof.
  revert vs. induction n as [|n IH]; intros [|v vs]; simpl;
    try constructor; [done | apply IH].
Qed.

Lemma omap_all_nan (keys : list symbol) (vs : list num) :
  Forall (fun m => m = NaN) vs ->
  omap (fun p : symbol * num => pair p.1 <$> as_fin p.2) (zip keys vs) = [].
Proof.
  intros Hvs. revert keys.
  induction Hvs as [|v vs -> _ IH]; intros [|s keys]; csimpl; done.
Qed.

Lemma alpha_scores_unscored cfg t :
  Forall (fun c => length c.2 = df_rows t) (df_columns t) ->
  (1 <= df_rows t)%nat ->
  (df_rows t <= mom_lookback cfg)%nat ->
  _alpha_scores cfg t = Ok [].
Proof.
  intros Hwf H1 HL.
  rewrite alpha_scores_unfold by lia. f_equal.
  assert (Hmom : map (fun c : symbol * list num =>
                        default NaN (last (pct_change (mom_lookback cfg) c.2)))
                   (df_columns t)
                 = replicate (length (df_columns t)) NaN).
  { clear -Hwf H1 HL. induction Hwf as [|c cols Hc _ IH]; [done|].
    simpl. rewrite IH. f_equal.
    rewrite pct_change_short by lia. rewrite Hc.
    by rewrite last_replicate. }
  rewrite Hmom, zscore_all_nan.
  apply omap_all_nan, zip_with_nan_left.
Qed.

(** X15: on a well-formed table with at least one row and no more rows than
    [mom_lookback], no instrument is scored: the momentum of every column is
    undefined, so every composite score is [NaN] and is dropped. *)
Theorem alpha_scores_short_history cfg t :
  df_wf t ->
  (1 <= df_rows t)%nat ->
  (df_rows t <= mom_lookback cfg)%nat ->
  _alpha_scores cfg t = Ok [].
Proof. intros [_ Hwf]. by apply alpha_scores_unscored. Qed.

Lemma alpha_scores_short_history_witness :
  df_wf one_row /\ (1 <= df_rows one_row)%nat /\
  (df_rows one_row <= mom_lookback initial_config)%nat /\
  _alpha_scores initial_config one_row = Ok [].
Proof.
  assert (H1 : (1 <= df_rows one_row)%nat) by (simpl; lia).
  assert (H2 : (df_rows one_row <= mom_lookback initial_config)%nat)
    by (simpl; lia).
  split_and!; [exact one_row_wf | exact H1 | exact H2 |].
  exact (alpha_scores_short_history initial_config one_row one_row_wf H1 H2).
Defined.

(** ** The regime classifier on a short history *)

Lemma finite_ratio_length a b : (length (finite_ratio a b) <= length a)%nat.
Proof.
  unfold finite_ratio, dropna. etrans; [apply length_filter|].
  rewrite length_map, length_zip_with. lia.
Qed.

(** The score with the four reference columns at hand. *)
Lemma regime_score_present cfg close a b i h :
  getitem close (soxx cfg) = Ok a -> getitem close (spy cfg) = Ok b ->
  getitem close (ief cfg) = Ok i -> getitem close (shy cfg) = Ok h ->
  existsb (fun sym => negb (has_column close sym))
    [soxx cfg; spy cfg; ief cfg; shy cfg] = false ->
  a <> [] ->
  exists c1 c2 c3,
    _compute_regime_score cfg close = Ok (c1 + c2 + c3)%Z /\
    (c1 = 0 \/ c1 = 1)%Z /\ (c2 = 0 \/ c2 = 1)%Z /\ (c3 = 0 \/ c3 = 1)%Z /\
    ((length a < regime_ma cfg)%nat -> c1 = 0%Z) /\
    ((length (finite_ratio a b) <= regime_ma cfg)%nat -> c2 = 0%Z) /\
    ((length (finite_ratio i h) <= regime_ma cfg)%nat -> c3 = 0%Z).
Proof.
  intros Ha Hb Hi Hh E Hne.
  destruct (iloc_last_nonempty a Hne) as [latest Hlatest].
  destruct (ratio_indicator_total (regime_ma cfg) (finite_ratio a b))
    as (c2 & Hc2 & Hr2 & Hz2).
  destruct (ratio_indicator_total (regime_ma cfg) (finite_ratio i h))
    as (c3 & Hc3 & Hr3 & Hz3).
  exists (if num_gt latest (rolling_mean_at_last (regime_ma cfg) a)
          then 1%Z else 0%Z), c2, c3.
  split_and!; try done.
  - unfold _compute_regime_score. rewrite E, Ha, Hb, Hi, Hh.
    simpl. rewrite rolling_mean_last_nonempty by done. simpl.
    rewrite Hlatest. simpl. rewrite Hc2. simpl. rewrite Hc3. done.
  - destruct (num_gt _ _); auto.
  - intros Hshort. rewrite rolling_mean_short by lia.
    by rewrite num_gt_nan.
Qed.

Lemma all_present cfg close :
  (forall sym, sym ∈ [soxx cfg; spy cfg; ief cfg; shy cfg] ->
               has_column close sym = true) ->
  existsb (fun sym => negb (has_column close sym))
    [soxx cfg; spy cfg; ief cfg; shy cfg] = false.
Proof.
  intros Hall. apply not_true_is_false.
  intros (sym & Hin & Hneg)%existsb_exists.
  apply list_elem_of_In in Hin. by rewrite (Hall sym Hin) in Hneg.
Qed.

(** A score that is returned is one of 0, 1, 2, 3, whatever the table. *)
Lemma regime_score_range cfg close r :
  _compute_regime_score cfg close = Ok r -> (0 <= r <= 3)%Z.
Proof.
  intros Hok. pose proof Hok as Hrun.
  destruct (existsb (fun sym => negb (has_column close sym))
              [soxx cfg; spy cfg; ief cfg; shy cfg]) eqn:E.
  { unfold _compute_regime_score in Hrun. rewrite E in Hrun.
    injection Hrun as <-. lia. }
  unfold _compute_regime_score in Hrun. rewrite E in Hrun.
  destruct (getitem close (soxx cfg)) as [a|] eqn:Ha; [|done].
  destruct (getitem close (spy cfg)) as [b|] eqn:Hb; [|done].
  destruct (getitem close (ief cfg)) as [i|] eqn:Hi; [|done].
  destruct (getitem close (shy cfg)) as [h|] eqn:Hh; [|done].
  destruct (decide (a = [])) as [->|Hne]; [done|].
  destruct (regime_score_present cfg close a b i h)
    as (c1 & c2 & c3 & Hr & ? & ? & ? & _); try done.
  rewrite Hr in Hok. injection Hok as <-. lia.
Qed.

(** X16: on a well-formed table with the four reference columns, at least
    one row and no more rows than [regime_ma], the classifier returns 0 or 1,
    and 0 when the rows are fewer than [regime_ma]: the two ratio indicators
    need more than [regime_ma] values and the trend indicator [regime_ma]
    rows, so a short history is read as the bear regime. *)
Theorem regime_score_short_history cfg close :
  df_wf close ->
  (1 <= df_rows close)%nat ->
  (df_rows close <= regime_ma cfg)%nat ->
  (forall sym, sym ∈ [soxx cfg; spy cfg; ief cfg; shy cfg] ->
               has_column close sym = true) ->
  exists r,
    _compute_regime_score cfg close = Ok r /\ (0 <= r <= 1)%Z /\
    ((df_rows close < regime_ma cfg)%nat -> r = 0%Z).
Proof.
  intros Hwf H1 Hshort Hall.
  destruct (getitem_present close (soxx cfg)) as (a & Ha & Hina);
    [apply Hall; set_solver|].
  destruct (getitem_present close (spy cfg)) as (b & Hb & _);
    [apply Hall; set_solver|].
  destruct (getitem_present close (ief cfg)) as (i & Hi & Hini);
    [apply Hall; set_solver|].
  destruct (getitem_present close (shy cfg)) as (h & Hh & _);
    [apply Hall; set_solver|].
  pose proof (column_length close _ a Hwf Hina) as Hlen.
  pose proof (column_length close _ i Hwf Hini) as Hleni.
  assert (Hne : a <> []) by (intros ->; simpl in Hlen; lia).
  destruct (regime_score_present cfg close a b i h Ha Hb Hi Hh
              (all_present cfg close Hall) Hne)
    as (c1 & c2 & c3 & Hr & Hc1 & _ & _ & Hz1 & Hz2 & Hz3).
  pose proof (finite_ratio_length a b).
  pose proof (finite_ratio_length i h).
  rewrite Hz2, Hz3 in Hr by lia.
  exists (c1 + 0 + 0)%Z. split; [done|]. split; [lia|].
  intros Hlt. rewrite Hz1 by lia. done.
Qed.

Lemma regime_score_short_history_witness :
  df_wf one_row /\
  exists r,
    _compute_regime_score initial_config one_row = Ok r /\ (0 <= r <= 1)%Z /\
    ((df_rows one_row < regime_ma initial_config)%nat -> r = 0%Z).
Proof.
  split; [exact one_row_wf|].
  apply (regime_score_short_history initial_config one_row one_row_wf).
  - simpl. lia.
  - simpl. lia.
  - intros sym Hin. simpl in Hin.
    repeat (apply elem_of_cons in Hin as [->|Hin]; [reflexivity|]).
    by apply elem_of_nil in Hin.
Defined.

(** ** The rebalance cycle *)

Lemma fill_length c : length (bfill (ffill c)) = length c.
Proof.
  unfold bfill, ffill.
  by rewrite length_reverse, ffill_from_length, length_reverse,
    ffill_from_length.
Qed.

Lemma fill_columns raw : (df_columns (fill raw)).*1 = (df_columns raw).*1.
Proof. apply (labelled_fst (fun c => bfill (ffill c))). Qed.

Lemma fill_has_column raw s : has_column (fill raw) s = has_column raw s.
Proof. unfold has_column. by rewrite fill_columns. Qed.

Lemma fill_wf raw : df_wf raw -> df_wf (fill raw).
Proof.
  intros [Hnd Hlen]. split; [by rewrite fill_columns|].
  simpl. induction Hlen as [|c cols Hc _ IH]; simpl; constructor.
  - simpl. by rewrite fill_length.
  - apply IH. by apply NoDup_cons in Hnd as [_ ?].
Qed.

Lemma select_present_columns t labels c :
  c ∈ df_columns (select_present t labels) ->
  c.1 ∈ labels /\ c ∈ df_columns t.
Proof.
  simpl. intros (s & Hs & Hc)%list_elem_of_omap.
  destruct (dict_get (df_columns t) s) as [col|] eqn:E; [|done].
  injection Hc as <-. split; [done|]. by apply dict_get_Some_elem.
Qed.

Lemma select_present_lengths t labels :
  Forall (fun c => length c.2 = df_rows t) (df_columns t) ->
  Forall (fun c => length c.2 = df_rows (select_present t labels))
    (df_columns (select_present t labels)).
Proof.
  intros Hlen. apply Forall_forall. intros c [_ Hc]%select_present_columns.
  rewrite Forall_forall in Hlen. by apply Hlen.
Qed.

(** What a computation of the targets that succeeds went through. *)
Lemma compute_targets_inv cfg secs close regime gross target :
  compute_targets cfg secs close = Ok (regime, gross, target) ->
  exists soxx_close scale score,
    _compute_regime_score cfg close = Ok regime /\
    getitem close (soxx cfg) = Ok soxx_close /\
    _vol_target_scale cfg soxx_close = Ok scale /\
    gross = gross_budget cfg regime scale /\
    _alpha_scores cfg (select_present close (semis cfg)) = Ok score /\
    _build_targets cfg secs score regime gross = Ok target.
Proof.
  unfold compute_targets. intros Hok.
  destruct (_compute_regime_score cfg close) as [r|]; [|done].
  destruct (getitem close (soxx cfg)) as [c|]; [|done].
  cbn [mbind result_bind] in Hok.
  destruct (_vol_target_scale cfg c) as [sc|] eqn:Es; [|done].
  cbn [mbind result_bind] in Hok.
  destruct (_alpha_scores cfg _) as [score|] eqn:Ea; [|done].
  cbn [mbind result_bind] in Hok.
  destruct (_build_targets cfg secs score r _) as [t|] eqn:Et; [|done].
  injection Hok as <- <- <-. by exists c, sc, score.
Qed.

Lemma targets_weight_cap cfg secs score regime gross target :
  0 <= max_weight_per_name cfg ->
  _build_targets cfg secs score regime gross = Ok target ->
  forall s w, (s, w) ∈ target -> Rabs w <= max_weight_per_name cfg.
Proof.
  intros Hcap Hok s w Hin. unfold _build_targets in Hok.
  set (cap := max_weight_per_name cfg) in *.
  assert (Hlow : forall x, Rabs (clip x (- cap) 0) <= cap).
  { intros x. pose proof (clip_between x (- cap) 0).
    apply Rabs_le. lra. }
  assert (Hhigh : forall x, Rabs (clip x 0 cap) <= cap).
  { intros x. pose proof (clip_between x 0 cap).
    apply Rabs_le. lra. }
  repeat case_decide;
    repeat match type of Hok with
    | context [per_name ?g ?l] => destruct (per_name g l); simpl in Hok
    end;
    try discriminate; injection Hok as <-;
    repeat (apply elem_dict_set_all in Hin as [[Hin _]|Hin];
            [simpl in Hin; subst w; auto|]);
    by apply elem_of_nil in Hin.
Qed.

Lemma targets_total cfg secs score regime gross :
  (1 <= min_names_each_side cfg)%nat ->
  exists target, _build_targets cfg secs score regime gross = Ok target.
Proof.
  intros Hm. unfold _build_targets.
  set (m := min_names_each_side cfg) in *.
  destruct (decide (length score < 2 * m)%nat); [by exists []|].
  set (score' := filter _ score).
  destruct (decide (length score' < 2 * m)%nat) as [|Hn]; [by exists []|].
  assert (Hl : forall j, (nlargest (Nat.max m j) score').*1 <> []).
  { intros j. apply (selection_nonempty nlargest);
      [intros; apply nlargest_length | done | lia]. }
  assert (Hs : forall j, (nsmallest (Nat.max m j) score').*1 <> []).
  { intros j. apply (selection_nonempty nsmallest);
      [intros; apply nsmallest_length | done | lia]. }
  repeat case_decide;
    rewrite ?(per_name_ok _ _ (Hl _)), ?(per_name_ok _ _ (Hs _)); simpl;
    by eexists.
Qed.

Lemma ordered_weights_app a b :
  ordered_weights (a ++ b) = ordered_weights a ++ ordered_weights b.
Proof. apply omap_app. Qed.

Lemma liquidated_app a b : liquidated (a ++ b) = liquidated a ++ liquidated b.
Proof. apply omap_app. Qed.

Lemma ordered_weights_liquidations pf target :
  ordered_weights (liquidations pf target) = [].
Proof.
  unfold ordered_weights, liquidations.
  induction pf as [|h pf IH]; csimpl; [done|].
  destruct (h.2 && _); csimpl; exact IH.
Qed.

Lemma liquidated_liquidations pf target :
  liquidated (liquidations pf target)
  = filter (fun s => s ∉ dict_keys target) (invested pf).
Proof.
  unfold liquidated, liquidations, invested.
  induction pf as [|[s b] pf IH]; csimpl; [done|].
  rewrite filter_cons. simpl.
  destruct b; simpl; [|exact IH].
  rewrite filter_cons.
  destruct (decide (s ∈ dict_keys target)) as [Hin|Hnin].
  - rewrite bool_decide_eq_true_2 by done. simpl.
    rewrite decide_False by tauto. exact IH.
  - rewrite bool_decide_eq_false_2 by done. simpl.
    rewrite decide_True by done. f_equal. exact IH.
Qed.

Lemma liquidated_set_holdings secs target :
  liquidated (set_holdings secs target) = [].
Proof.
  unfold liquidated, set_holdings.
  induction target as [|e t IH]; csimpl; [done|].
  destruct (_is_tradeable secs e.1); csimpl; exact IH.
Qed.

(** The test of the order loop passes on every entry of a map whose keys
    are tradable. *)
Lemma ordered_weights_set_holdings secs target :
  (forall s, s ∈ dict_keys target -> _is_tradeable secs s = true) ->
  set_holdings secs target = map (fun e => SetHoldings e.1 e.2) target /\
  ordered_weights (set_holdings secs target) = target.
Proof.
  unfold ordered_weights, set_holdings, dict_keys.
  induction target as [|[s w] t IH]; intros Hall; csimpl; [done|].
  rewrite (Hall s) by (csimpl; left). csimpl.
  destruct IH as [IH1 IH2].
  { intros s' Hs'. apply Hall. csimpl. by right. }
  split; f_equal; [exact IH1 | exact IH2].
Qed.

(** The two decimals shown are within half a hundredth of the value. *)
Lemma format_2f_near g : Rabs (IZR (format_2f g) / 100 - g) <= 0.005.
Proof.
  unfold format_2f.
  destruct (base_Int_part (g * 100)) as [Hlo Hhi].
  set (lo := Int_part (g * 100)) in *.
  assert (Hup : IZR (lo + 1) = IZR lo + 1) by (rewrite plus_IZR; lra).
  apply Rabs_le.
  destruct (Rltb_spec (g * 100 - IZR lo) 0.5) as [H1|H1]; [lra|].
  destruct (Rltb_spec 0.5 (g * 100 - IZR lo)) as [H2|H2]; [lra|].
  destruct (Z.even lo); lra.
Qed.

Lemma format_2f_exact z : format_2f (IZR z / 100) = z.
Proof.
  unfold format_2f.
  replace (IZR z / 100 * 100) with (IZR z) by lra.
  assert (E : Int_part (IZR z) = z) by (symmetry; apply Int_part_spec; lra).
  rewrite E. by rewrite Rltb_true by lra.
Qed.

(** The orders of a cycle that reaches the two loops. *)
Lemma completed_cycle_orders secs pf target regime gross_2f :
  (forall s, s ∈ dict_keys target -> _is_tradeable secs s = true) ->
  let acts := liquidations pf target ++ set_holdings secs target ++
              [Log (Rebalanced regime gross_2f (length target))] in
  ordered_weights acts = target /\
  liquidated acts = filter (fun s => s ∉ dict_keys target) (invested pf).
Proof.
  intros Hall acts. unfold acts.
  rewrite !ordered_weights_app, !liquidated_app.
  rewrite ordered_weights_liquidations, liquidated_liquidations.
  rewrite liquidated_set_holdings.
  rewrite (proj2 (ordered_weights_set_holdings secs target Hall)).
  simpl. by rewrite !app_nil_r.
Qed.

(** A cycle orders nothing, or it went through the computation of the
    targets and the two loops. *)
Lemma rebalance_cases cfg st env :
  let out := Rebalance cfg st env in
  (ordered_weights (actions out) = [] /\ liquidated (actions out) = [] /\
   forall r g n, Log (Rebalanced r g n) ∉ actions out) \/
  (exists raw regime gross target,
     IsWarmingUp env = false /\
     _last_rebalance_date st <> Some (Time_date env) /\
     History env = HistCloses raw /\
     compute_targets cfg (Securities env) (fill raw)
       = Ok (regime, gross, target) /\
     raised out = None /\
     actions out
     = liquidations (Portfolio env) target ++
       set_holdings (Securities env) target ++
       [Log (Rebalanced regime (format_2f gross) (length target))]).
Proof.
  intros out. unfold out, Rebalance.
  assert (Hnone : forall r g n, Log (Rebalanced r g n) ∉ ([] : list action))
    by (intros; apply not_elem_of_nil).
  assert (Hone : forall l r g n, l <> Rebalanced r g n ->
                   Log (Rebalanced r g n) ∉ [Log l]).
  { intros l r g n Hl [=]%list_elem_of_singleton. by apply Hl. }
  destruct (IsWarmingUp env) eqn:Hw; [left; by split_and!|].
  destruct (decide _) as [|Hg]; [left; by split_and!|].
  destruct (History env) as [|e|raw] eqn:Hh.
  - left. split_and!; try done. intros. by apply Hone.
  - left. split_and!; try done. intros. by apply Hone.
  - destruct (compute_targets cfg (Securities env) (fill raw))
      as [[[regime gross] target]|e] eqn:Hc.
    + right. by exists raw, regime, gross, target.
    + left. by split_and!.
Qed.

(** What the targets of a computation that succeeds satisfy. *)
Lemma computed_targets_sound cfg secs close regime gross target :
  0 <= max_weight_per_name cfg ->
  0 <= max_gross cfg ->
  compute_targets cfg secs close = Ok (regime, gross, target) ->
  (0 <= regime <= 3)%Z /\
  0 <= gross <= max_gross cfg /\
  NoDup (dict_keys target) /\
  (forall s, s ∈ dict_keys target ->
     _is_tradeable secs s = true /\ s ∈ semis cfg /\
     has_column close s = true) /\
  (forall s w, (s, w) ∈ target -> Rabs w <= max_weight_per_name cfg) /\
  0 <= gross_exposure target <= gross.
Proof.
  intros Hcap Hmax Hok.
  apply compute_targets_inv in Hok
    as (c & scale & score & Hr & _ & _ & Hg & Ha & Hb).
  assert (Hgross : 0 <= gross <= max_gross cfg).
  { rewrite Hg. unfold gross_budget.
    pose proof (clip_between (base_gross cfg regime * scale) 0.0
                  (max_gross cfg)). lra. }
  destruct (targets_keys _ _ _ _ _ _ Hb) as [Hnd Hkeys].
  split; [by eapply regime_score_range|].
  split; [done|]. split; [done|]. split; [|split].
  - intros s Hs. destruct (Hkeys s Hs) as [Ht Hscore].
    split; [done|].
    destruct (decide (df_rows (select_present close (semis cfg)) = 0%nat))
      as [H0|Hrows].
    { rewrite (proj1 (alpha_scores_labels cfg _) H0) in Ha. done. }
    destruct (proj2 (alpha_scores_labels cfg _) Hrows)
      as (scores & Ha' & Hsub).
    rewrite Ha in Ha'. injection Ha' as <-.
    pose proof (elem_of_sublist _ _ _ Hscore Hsub) as Hcol.
    apply list_elem_of_fmap in Hcol as (col & -> & Hcol).
    apply select_present_columns in Hcol as [Hlabel Hin].
    split; [done|]. unfold has_column.
    apply bool_decide_eq_true_2. by apply list_elem_of_fmap_2.
  - by eapply targets_weight_cap.
  - apply (targets_within_budget cfg secs score regime gross); tauto.
Qed.

(** X17: the tradability test of the order loop never rejects an entry of
    the map the constructor returned, whose keys passed the same test: the
    loop places one order per entry, in the order of the map. *)
Theorem order_loop_places_every_target cfg secs score regime gross target :
  _build_targets cfg secs score regime gross = Ok target ->
  set_holdings secs target = map (fun e => SetHoldings e.1 e.2) target.
Proof.
  intros Hok. apply ordered_weights_set_holdings.
  intros s Hs. by apply (targets_keys _ _ _ _ _ _ Hok).
Qed.

Lemma order_loop_places_every_target_witness :
  exists target,
    _build_targets initial_config ten_securities ten_scores 2 1.0 = Ok target /\
    set_holdings ten_securities target
    = map (fun e => SetHoldings e.1 e.2) target.
Proof.
  eexists. split; [exact mixed_scenario|].
  exact (order_loop_places_every_target _ _ _ _ _ _ mixed_scenario).
Defined.

(** X18: whatever the state and whatever the engine returns, the orders of
    one cycle are safe: no instrument is ordered twice; every instrument
    given a weight is tradable, belongs to the basket [semis] and has a
    column in the price table, and its weight is within the cap; the absolute
    weights sum to at most [max_gross]; and an instrument that is liquidated
    is an invested holding that is given no weight. *)
Theorem rebalance_orders cfg st env :
  0 <= max_weight_per_name cfg ->
  0 <= max_gross cfg ->
  let acts := actions (Rebalance cfg st env) in
  NoDup (ordered_weights acts).*1 /\
  (forall s w, (s, w) ∈ ordered_weights acts ->
     _is_tradeable (Securities env) s = true /\ s ∈ semis cfg /\
     Rabs w <= max_weight_per_name cfg) /\
  0 <= gross_exposure (ordered_weights acts) <= max_gross cfg /\
  (forall s, s ∈ liquidated acts ->
     s ∈ invested (Portfolio env) /\ s ∉ (ordered_weights acts).*1).
Proof.
  intros Hcap Hmax acts. unfold acts.
  destruct (rebalance_cases cfg st env)
    as [(-> & -> & _)|(raw & regime & gross & target & _ & _ & _ & Hc & _ & ->)].
  { split; [constructor|]. split; [|split].
    - intros s w Hin. by apply elem_of_nil in Hin.
    - unfold gross_exposure. simpl. lra.
    - intros s Hin. by apply elem_of_nil in Hin. }
  destruct (computed_targets_sound _ _ _ _ _ _ Hcap Hmax Hc)
    as (_ & Hg & Hnd & Hkeys & Hw & Hexp).
  destruct (completed_cycle_orders (Securities env) (Portfolio env) target
              regime (format_2f gross)) as [-> ->].
  { intros s Hs. by apply Hkeys. }
  split; [exact Hnd|]. split; [|split].
  - intros s w Hin. split_and!.
    + apply Hkeys. by apply (list_elem_of_fmap_2 fst) in Hin.
    + apply Hkeys. by apply (list_elem_of_fmap_2 fst) in Hin.
    + by apply (Hw s).
  - lra.
  - intros s [Hnot Hin]%list_elem_of_filter. done.
Qed.

Lemma rebalance_orders_witness :
  0 <= max_weight_per_name two_day_config /\
  0 <= max_gross two_day_config /\
  NoDup (ordered_weights
           (actions (Rebalance two_day_config fresh_state flat_market_env))).*1.
Proof.
  assert (H1 : 0 <= max_weight_per_name two_day_config) by (simpl; lra).
  assert (H2 : 0 <= max_gross two_day_config) by (simpl; lra).
  split; [exact H1|]. split; [exact H2|].
  exact (proj1 (rebalance_orders two_day_config fresh_state flat_market_env
                  H1 H2)).
Defined.

(** The cycle on the flat market: the holding outside the table is
    liquidated, the five first instruments of the basket are short at the
    cap, and the log record shows the budget 0.90 and five names. *)
Lemma flat_market_cycle :
  Rebalance two_day_config fresh_state flat_market_env
  = {| state_after := {| _last_rebalance_date := Some 739000%Z |};
       actions :=
         [Liquidate "TER"; SetHoldings "NVDA" (-0.12);
          SetHoldings "AMD" (-0.12); SetHoldings "AVGO" (-0.12);
          SetHoldings "QCOM" (-0.12); SetHoldings "TXN" (-0.12);
          Log (Rebalanced 0 90 5)];
       raised := None |}.
Proof.
  destruct flat_market_targets as (gross & target & Hc & -> & ->).
  assert (Hf : format_2f 0.9 = 90%Z).
  { rewrite <- (format_2f_exact 90). f_equal. lra. }
  unfold Rebalance.
  change (IsWarmingUp flat_market_env) with false. cbv iota.
  rewrite decide_False by done.
  change (History flat_market_env) with (HistCloses flat_market). cbv iota.
  change (Securities flat_market_env) with ten_securities.
  rewrite Hc. f_equal.
  destruct (ordered_weights_set_holdings ten_securities
              [("NVDA", -0.12); ("AMD", -0.12); ("AVGO", -0.12);
               ("QCOM", -0.12); ("TXN", -0.12)]) as [-> _].
  - intros s Hs. apply ten_symbols_tradeable.
    unfold dict_keys, ten_symbols in *. simpl in Hs.
    repeat (apply elem_of_cons in Hs as [->|Hs];
            [repeat first [apply list_elem_of_here
                          |apply list_elem_of_further]|]).
    by apply elem_of_nil in Hs.
  - rewrite Hf. reflexivity.
Qed.

(** X19: the log record of a completed cycle agrees with its orders: the
    regime is one of 0, 1, 2, 3; [names] is the number of weights ordered;
    the instruments liquidated are exactly the invested holdings that are
    given no weight, in the order of the holdings; and the gross shown, with
    its two decimals, is within half a hundredth of a budget that lies in
    [[0, max_gross]] and bounds the sum of the absolute weights ordered. *)
Theorem rebalance_log cfg st env r gross_2f n :
  0 <= max_weight_per_name cfg ->
  0 <= max_gross cfg ->
  let acts := actions (Rebalance cfg st env) in
  Log (Rebalanced r gross_2f n) ∈ acts ->
  (0 <= r <= 3)%Z /\
  n = length (ordered_weights acts) /\
  liquidated acts
  = filter (fun s => s ∉ (ordered_weights acts).*1) (invested (Portfolio env))
  /\
  exists gross,
    0 <= gross <= max_gross cfg /\
    gross_exposure (ordered_weights acts) <= gross /\
    Rabs (IZR gross_2f / 100 - gross) <= 0.005.
Proof.
  intros Hcap Hmax acts. unfold acts.
  destruct (rebalance_cases cfg st env)
    as [(_ & _ & Hno)|(raw & regime & gross & target & _ & _ & _ & Hc & _ & ->)].
  { intros Hin. by apply Hno in Hin. }
  destruct (computed_targets_sound _ _ _ _ _ _ Hcap Hmax Hc)
    as (Hr & Hg & Hnd & Hkeys & Hw & Hexp).
  destruct (completed_cycle_orders (Securities env) (Portfolio env) target
              regime (format_2f gross)) as [Ho Hl].
  { intros s Hs. by apply Hkeys. }
  intros Hin. rewrite Ho, Hl.
  assert (E : Rebalanced r gross_2f n
              = Rebalanced regime (format_2f gross) (length target)).
  { apply elem_of_app in Hin as [Hin|Hin].
    - unfold liquidations in Hin.
      apply list_elem_of_omap in Hin as (h & _ & Hh).
      by destruct (h.2 && _).
    - apply elem_of_app in Hin as [Hin|Hin].
      + unfold set_holdings in Hin.
        apply list_elem_of_omap in Hin as (e & _ & He).
        by destruct (_is_tradeable _ _).
      + apply list_elem_of_singleton in Hin. congruence. }
  injection E as -> -> ->. split; [done|]. split; [done|]. split; [done|].
  exists gross. split; [done|]. split; [lra|]. apply format_2f_near.
Qed.

Lemma rebalance_log_witness :
  Log (Rebalanced 0 90 5)
    ∈ actions (Rebalance two_day_config fresh_state flat_market_env) /\
  liquidated (actions (Rebalance two_day_config fresh_state flat_market_env))
  = filter
      (fun s =>
         s ∉ (ordered_weights
                (actions
                   (Rebalance two_day_config fresh_state flat_market_env))).*1)
      (invested (Portfolio flat_market_env)).
Proof.
  assert (H1 : 0 <= max_weight_per_name two_day_config) by (simpl; lra).
  assert (H2 : 0 <= max_gross two_day_config) by (simpl; lra).
  assert (H3 : Log (Rebalanced 0 90 5)
                 ∈ actions (Rebalance two_day_config fresh_state
                              flat_market_env)).
  { rewrite flat_market_cycle. simpl. set_solver. }
  split; [exact H3|].
  exact (proj1 (proj2 (proj2
    (rebalance_log two_day_config fresh_state flat_market_env 0 90 5
       H1 H2 H3)))).
Defined.

(** X20: when the price table has no column for the semiconductor proxy,
    the cycle raises [KeyError] at [close[self.soxx]]: the classifier has
    answered its default 1, nothing is liquidated, ordered or logged, and the
    guard already holds the date, so the date is spent. *)
Theorem rebalance_missing_proxy cfg st env raw :
  IsWarmingUp env = false ->
  _last_rebalance_date st <> Some (Time_date env) ->
  History env = HistCloses raw ->
  has_column raw (soxx cfg) = false ->
  _compute_regime_score cfg (fill raw) = Ok 1%Z /\
  Rebalance cfg st env
  = {| state_after := {| _last_rebalance_date := Some (Time_date env) |};
       actions := [];
       raised := Some KeyError |}.
Proof.
  intros Hw Hg Hh Hno.
  assert (Hr : _compute_regime_score cfg (fill raw) = Ok 1%Z).
  { unfold _compute_regime_score. simpl existsb.
    by rewrite fill_has_column, Hno. }
  assert (Hget : getitem (fill raw) (soxx cfg) = Raise KeyError).
  { unfold getitem.
    destruct (dict_get _ _) as [c|] eqn:E; [|done].
    apply dict_get_Some_elem, (list_elem_of_fmap_2 fst) in E.
    rewrite fill_columns in E. unfold has_column in Hno.
    by apply bool_decide_eq_false_1 in Hno. }
  split; [exact Hr|].
  unfold Rebalance. rewrite Hw, decide_False, Hh by done.
  unfold compute_targets. by rewrite Hr, Hget.
Qed.

Lemma rebalance_missing_proxy_witness :
  has_column market_without_soxx (soxx initial_config) = false /\
  raised (Rebalance initial_config fresh_state no_proxy_env) = Some KeyError.
Proof.
  assert (H : has_column market_without_soxx (soxx initial_config) = false)
    by reflexivity.
  split; [exact H|].
  assert (Hg : _last_rebalance_date fresh_state
               <> Some (Time_date no_proxy_env)) by discriminate.
  exact (f_equal raised
           (proj2 (rebalance_missing_proxy initial_config fresh_state
                     no_proxy_env market_without_soxx eq_refl Hg eq_refl H))).
Defined.

Lemma regime_score_total cfg close :
  df_wf close -> (1 <= df_rows close)%nat ->
  exists r, _compute_regime_score cfg close = Ok r.
Proof.
  intros Hwf Hrows.
  destruct (existsb (fun sym => negb (has_column close sym))
              [soxx cfg; spy cfg; ief cfg; shy cfg]) eqn:E.
  { exists 1%Z. unfold _compute_regime_score. by rewrite E. }
  pose proof E as Hall. simpl in Hall.
  apply orb_false_elim in Hall as [H1 Hall].
  apply orb_false_elim in Hall as [H2 Hall].
  apply orb_false_elim in Hall as [H3 Hall].
  apply orb_false_elim in Hall as [H4 _].
  apply negb_false_iff in H1, H2, H3, H4.
  destruct (getitem_present close _ H1) as (a & Ha & Hina).
  destruct (getitem_present close _ H2) as (b & Hb & _).
  destruct (getitem_present close _ H3) as (i & Hi & _).
  destruct (getitem_present close _ H4) as (h & Hh & _).
  pose proof (column_length close _ a Hwf Hina) as Hlen.
  assert (Hne : a <> []) by (intros ->; simpl in Hlen; lia).
  destruct (regime_score_present cfg close a b i h Ha Hb Hi Hh E Hne)
    as (c1 & c2 & c3 & Hr & _).
  eauto.
Qed.

Lemma vol_target_scale_total cfg soxx_close :
  soxx_close <> [] -> exists s, _vol_target_scale cfg soxx_close = Ok s.
Proof.
  intros Hne. unfold _vol_target_scale, latest_target_vol, rolling_std_last.
  destruct (pct_change 1 soxx_close) as [|r rs] eqn:E.
  { apply (f_equal length) in E. rewrite pct_change_length in E.
    destruct soxx_close; done. }
  simpl. by eexists.
Qed.

(** On a well-formed table with rows and the proxy column the computation
    of the targets succeeds; it allocates to nothing when the rows are no
    more than [mom_lookback]. *)
Lemma compute_targets_total cfg secs close :
  df_wf close -> (1 <= df_rows close)%nat ->
  has_column close (soxx cfg) = true ->
  (1 <= min_names_each_side cfg)%nat ->
  exists regime gross target,
    compute_targets cfg secs close = Ok (regime, gross, target) /\
    ((df_rows close <= mom_lookback cfg)%nat -> target = []).
Proof.
  intros Hwf Hrows Hsoxx Hm.
  destruct (regime_score_total cfg close Hwf Hrows) as [r Hr].
  destruct (getitem_present close _ Hsoxx) as (c & Hc & Hin).
  pose proof (column_length close _ c Hwf Hin) as Hlen.
  assert (Hne : c <> []) by (intros ->; simpl in Hlen; lia).
  destruct (vol_target_scale_total cfg c Hne) as [sc Hsc].
  destruct (proj2 (alpha_scores_labels cfg (select_present close (semis cfg))))
    as (score & Hscore & _); [simpl; lia|].
  destruct (targets_total cfg secs score r (gross_budget cfg r sc) Hm)
    as [target Ht].
  exists r, (gross_budget cfg r sc), target.
  unfold compute_targets. rewrite Hr, Hc. cbn [mbind result_bind].
  rewrite Hsc. cbn [mbind result_bind].
  rewrite Hscore. cbn [mbind result_bind].
  rewrite Ht. split; [done|].
  intros Hshort.
  rewrite alpha_scores_unscored in Hscore.
  - injection Hscore as <-. unfold _build_targets in Ht.
    rewrite decide_True in Ht by (simpl; lia). by injection Ht.
  - apply select_present_lengths, Hwf.
  - simpl. lia.
  - simpl. lia.
Qed.

(** X21: a cycle on a well-formed price table with at least one row and a
    column for the proxy raises nothing ([min_names_each_side] being at
    least one): it runs to its log record, which is its last action. *)
Theorem rebalance_completes cfg st env raw :
  IsWarmingUp env = false ->
  _last_rebalance_date st <> Some (Time_date env) ->
  History env = HistCloses raw ->
  df_wf raw ->
  (1 <= df_rows raw)%nat ->
  has_column raw (soxx cfg) = true ->
  (1 <= min_names_each_side cfg)%nat ->
  raised (Rebalance cfg st env) = None /\
  exists r g n,
    last (actions (Rebalance cfg st env)) = Some (Log (Rebalanced r g n)).
Proof.
  intros Hw Hg Hh Hwf Hrows Hsoxx Hm.
  destruct (compute_targets_total cfg (Securities env) (fill raw))
    as (r & g & t & Hc & _);
    [by apply fill_wf | done | by rewrite fill_has_column | done |].
  unfold Rebalance. rewrite Hw, decide_False, Hh, Hc by done. simpl.
  split; [done|]. exists r, (format_2f g), (length t).
  by rewrite app_assoc, last_snoc.
Qed.

(** X22: a cycle on a well-formed table with the proxy column, at least one
    row and no more rows than [mom_lookback] scores no instrument, so that
    its target map is empty: it orders no weight and liquidates every
    invested holding. *)
Theorem rebalance_short_history cfg st env raw :
  IsWarmingUp env = false ->
  _last_rebalance_date st <> Some (Time_date env) ->
  History env = HistCloses raw ->
  df_wf raw ->
  (1 <= df_rows raw)%nat ->
  (df_rows raw <= mom_lookback cfg)%nat ->
  has_column raw (soxx cfg) = true ->
  (1 <= min_names_each_side cfg)%nat ->
  raised (Rebalance cfg st env) = None /\
  ordered_weights (actions (Rebalance cfg st env)) = [] /\
  liquidated (actions (Rebalance cfg st env)) = invested (Portfolio env).
Proof.
  intros Hw Hg Hh Hwf Hrows Hshort Hsoxx Hm.
  destruct (compute_targets_total cfg (Securities env) (fill raw))
    as (r & g & t & Hc & Ht);
    [by apply fill_wf | done | by rewrite fill_has_column | done |].
  rewrite Ht in Hc by done.
  unfold Rebalance. rewrite Hw, decide_False, Hh, Hc by done. simpl.
  split; [done|].
  destruct (completed_cycle_orders (Securities env) (Portfolio env) [] r
              (format_2f g))
    as [Ho Hl].
  { intros s Hs. by apply elem_of_nil in Hs. }
  simpl in Ho, Hl. rewrite Ho, Hl. split; [done|].
  apply filter_all, Forall_forall. intros s _. apply not_elem_of_nil.
Qed.

(** X23: a cycle that is not in the warm-up leaves the guard at its date,
    whether it places orders, aborts or raises; a second trigger on that
    date, whatever the engine then returns, does nothing. *)
Theorem rebalance_once_per_date cfg st env env' :
  IsWarmingUp env = false ->
  Time_date env' = Time_date env ->
  _last_rebalance_date (state_after (Rebalance cfg st env))
  = Some (Time_date env) /\
  Rebalance cfg (state_after (Rebalance cfg st env)) env'
  = {| state_after := state_after (Rebalance cfg st env);
       actions := [];
       raised := None |}.
Proof.
  intros Hw Hd.
  assert (Hguard : _last_rebalance_date (state_after (Rebalance cfg st env))
                   = Some (Time_date env)).
  { unfold Rebalance. rewrite Hw.
    destruct (decide _) as [Heq|_]; [done|].
    destruct (History env) as [|e|raw]; [done..|].
    by destruct (compute_targets _ _ _) as [[[? ?] ?]|]. }
  split; [exact Hguard|].
  set (st' := state_after _) in *.
  unfold Rebalance. destruct (IsWarmingUp env'); [done|].
  by rewrite decide_True by congruence.
Qed.

Lemma flat_market_wf : df_wf flat_market.
Proof.
  split.
  - apply (@bool_decide_unpack _ (NoDup_dec _)). vm_compute. exact I.
  - repeat constructor.
Qed.

Lemma rebalance_completes_witness :
  df_wf flat_market /\
  has_column flat_market (soxx two_day_config) = true /\
  raised (Rebalance two_day_config fresh_state flat_market_env) = None.
Proof.
  assert (Hg : _last_rebalance_date fresh_state
               <> Some (Time_date flat_market_env)) by discriminate.
  assert (H1 : (1 <= df_rows flat_market)%nat) by (simpl; lia).
  assert (H2 : has_column flat_market (soxx two_day_config) = true)
    by reflexivity.
  assert (H3 : (1 <= min_names_each_side two_day_config)%nat)
    by (simpl; lia).
  split; [exact flat_market_wf|]. split; [exact H2|].
  exact (proj1 (rebalance_completes two_day_config fresh_state
                  flat_market_env flat_market eq_refl Hg eq_refl
                  flat_market_wf H1 H2 H3)).
Defined.

Lemma rebalance_short_history_witness :
  (df_rows one_row <= mom_lookback initial_config)%nat /\
  liquidated (actions (Rebalance initial_config fresh_state first_cycle_env))
  = invested (Portfolio first_cycle_env).
Proof.
  assert (Hg : _last_rebalance_date fresh_state
               <> Some (Time_date first_cycle_env)) by discriminate.
  assert (H1 : (1 <= df_rows one_row)%nat) by (simpl; lia).
  assert (H2 : (df_rows one_row <= mom_lookback initial_config)%nat)
    by (simpl; lia).
  assert (H3 : has_column one_row (soxx initial_config) = true)
    by reflexivity.
  assert (H4 : (1 <= min_names_each_side initial_config)%nat)
    by (simpl; lia).
  split; [exact H2|].
  exact (proj2 (proj2
    (rebalance_short_history initial_config fresh_state first_cycle_env
       one_row eq_refl Hg eq_refl one_row_wf H1 H2 H3 H4))).
Defined.

Lemma rebalance_once_per_date_witness :
  IsWarmingUp first_cycle_env = false /\
  actions
    (Rebalance initial_config
       (state_after (Rebalance initial_config fresh_state first_cycle_env))
       first_cycle_env) = [].
Proof.
  split; [reflexivity|].
  exact (f_equal actions
           (proj2 (rebalance_once_per_date initial_config fresh_state
                     first_cycle_env first_cycle_env eq_refl eq_refl))).
Defined.

(** ** The attributes of [Initialize] *)

Lemma dict_set_length_le {V} (d : list (symbol * V)) k v :
  (length (dict_set d k v) <= S (length d))%nat.
Proof.
  induction d as [|[k0 v0] d IH]; simpl; [lia|].
  case_decide; simpl; lia.
Qed.

Lemma dict_set_all_length_le {V} (d : list (symbol * V)) ks v :
  (length (dict_set_all d ks v) <= length d + length ks)%nat.
Proof.
  unfold dict_set_all. revert d.
  induction ks as [|k ks IH]; intros d; simpl; [lia|].
  etrans; [apply IH|]. pose proof (dict_set_length_le d k v). lia.
Qed.

Lemma gross_exposure_le_cap (target : list (symbol * R)) cap :
  (forall s w, (s, w) ∈ target -> Rabs w <= cap) ->
  gross_exposure target <= INR (length target) * cap.
Proof.
  unfold gross_exposure.
  induction target as [|[s w] t IH]; intros Hall.
  - simpl. lra.
  - change (length ((s, w) :: t)) with (S (length t)). rewrite S_INR.
    simpl. pose proof (Hall s w (list_elem_of_here _ _)).
    assert (Rsum (map (fun e : symbol * R => Rabs e.2) t)
            <= INR (length t) * cap).
    { apply IH. intros s' w' Hin. apply (Hall s'). by right. }
    lra.
Qed.

Lemma select_present_width t labels :
  (length (df_columns (select_present t labels)) <= length labels)%nat.
Proof.
  simpl. induction labels as [|s labels IH]; csimpl; [done|].
  destruct (dict_get (df_columns t) s); csimpl; lia.
Qed.

Lemma alpha_scores_width cfg t score :
  _alpha_scores cfg t = Ok score ->
  (length score <= length (df_columns t))%nat.
Proof.
  intros Hok.
  destruct (decide (df_rows t = 0%nat)) as [H0|Hrows].
  { by rewrite (proj1 (alpha_scores_labels cfg t) H0) in Hok. }
  destruct (proj2 (alpha_scores_labels cfg t) Hrows) as (scores & Ha & Hsub).
  rewrite Hok in Ha. injection Ha as <-.
  apply sublist_length in Hsub. by rewrite !length_fmap in Hsub.
Qed.

(** Among sixteen scores at most, no branch selects more than eight names. *)
Lemma initial_targets_width secs score regime gross target :
  (length score <= 16)%nat ->
  _build_targets initial_config secs score regime gross = Ok target ->
  (length target <= 8)%nat.
Proof.
  intros Hlen Hok.
  pose proof (length_filter (fun p => _is_tradeable secs p.1 = true) score)
    as Hle.
  change (filter _ score) with (tradable_part secs score) in Hle.
  set (n := length (tradable_part secs score)) in *.
  destruct (decide (n < 8)%nat) as [Hlt|Hge].
  { rewrite build_targets_below_floor in Hok by exact Hlt.
    injection Hok as <-. simpl. lia. }
  destruct (build_targets_branches initial_config secs score regime gross)
    as (Hl & Hs & Heq); [simpl; lia | simpl; fold n; lia |].
  rewrite Heq in Hok. injection Hok as <-. fold n in Hl, Hs |- *.
  set (k := selection_k initial_config regime n) in *.
  assert (Hn : (n <= 16)%nat) by lia.
  assert (H40 : (int_frac 40 n < 7)%nat)
    by (apply Nat.Div0.div_lt_upper_bound; lia).
  assert (H30 : (int_frac 30 n < 5)%nat)
    by (apply Nat.Div0.div_lt_upper_bound; lia).
  assert (H25 : (int_frac 25 n < 5)%nat)
    by (apply Nat.Div0.div_lt_upper_bound; lia).
  assert (H50 : (int_frac 50 n < 9)%nat)
    by (apply Nat.Div0.div_lt_upper_bound; lia).
  assert (Hk : (k <= 8)%nat /\
               (regime = 2%Z \/ regime = 1%Z -> k <= 4)%nat).
  { unfold k, selection_k, regime_pct. simpl.
    repeat case_decide; lia. }
  destruct Hk as [Hk8 Hk4].
  pose proof (fun (d : list (symbol * R)) w =>
                dict_set_all_length_le d
                  (nlargest k (tradable_part secs score)).*1 w) as HL.
  pose proof (fun (d : list (symbol * R)) w =>
                dict_set_all_length_le d
                  (nsmallest k (tradable_part secs score)).*1 w) as HS.
  rewrite Hl in HL. rewrite Hs in HS.
  destruct (decide (regime = 3%Z)); [etrans; [apply HL|]; simpl; lia|].
  destruct (decide (regime = 2%Z \/ regime = 1%Z)) as [H21|];
    [|etrans; [apply HS|]; simpl; lia].
  etrans; [apply HS|]. specialize (Hk4 H21).
  match goal with
  | |- (length (dict_set_all [] _ ?w) + _ <= _)%nat =>
      pose proof (HL [] w) as Hw
  end.
  simpl in Hw. lia.
Qed.

(** X24: with the attributes that [Initialize] assigns (a basket of sixteen
    instruments, four names a side at least, a cap of 0.12 per name), no
    cycle, whatever the state and whatever the engine returns, gives a weight
    to more than eight instruments, and the absolute weights it orders sum to
    0.96 at most: the ceiling [max_gross = 1.30] and the bull preset 1.10 are
    out of reach of the orders. *)
Theorem initial_exposure_ceiling st env :
  let acts := actions (Rebalance initial_config st env) in
  (length (ordered_weights acts) <= 8)%nat /\
  gross_exposure (ordered_weights acts) <= 0.96.
Proof.
  intros acts. unfold acts.
  destruct (rebalance_cases initial_config st env)
    as [(-> & _)|(raw & regime & gross & target & _ & _ & _ & Hc & _ & ->)].
  { unfold gross_exposure. simpl. split; [lia | lra]. }
  assert (Hcap : 0 <= max_weight_per_name initial_config) by (simpl; lra).
  assert (Hmax : 0 <= max_gross initial_config) by (simpl; lra).
  destruct (computed_targets_sound _ _ _ _ _ _ Hcap Hmax Hc)
    as (_ & _ & _ & Hkeys & Hw & _).
  destruct (completed_cycle_orders (Securities env) (Portfolio env) target
              regime (format_2f gross)) as [-> _].
  { intros s Hs. by apply Hkeys. }
  apply compute_targets_inv in Hc
    as (c & scale & score & _ & _ & _ & _ & Ha & Hb).
  assert (Hwidth : (length target <= 8)%nat).
  { apply (initial_targets_width (Securities env) score regime gross);
      [|done].
    etrans; [by eapply alpha_scores_width|].
    etrans; [apply select_present_width|]. simpl. lia. }
  split; [done|].
  etrans; [apply (gross_exposure_le_cap target 0.12); exact Hw|].
  apply le_INR in Hwidth. simpl in Hwidth. lra.
Qed.

(** ** The volatility targeter on a history of positive closes *)

Lemma ffill_from_Fin prev cs : ffill_from prev (map Fin cs) = map Fin cs.
Proof.
  revert prev. induction cs as [|c cs IH]; intros prev; simpl; [done|].
  by rewrite IH.
Qed.

(** The return of one day, when both closes are positive and the quotient is
    within the range of binary64. *)
Lemma return_of_positive B cur prev :
  B <= 1e308 -> 0 < prev -> 0 < cur -> cur <= B * prev ->
  num_sub (float_range (num_div (Fin cur) (Fin prev))) (Fin 1)
  = Fin (cur / prev - 1).
Proof.
  intros HB Hp Hc Hr. simpl.
  rewrite (Rltb_true 0 prev) by done. rewrite orb_true_r.
  assert (Hq : 0 < cur / prev) by (by apply Rdiv_lt_0_compat).
  assert (Hq' : cur / prev <= B).
  { apply (Rmult_le_reg_r prev); [done|].
    replace (cur / prev * prev) with cur by (field; lra). done. }
  rewrite float_range_Fin by lra. reflexivity.
Qed.

Lemma returns_of_positive B (l k : list R) n :
  B <= 1e308 ->
  (length l <= n)%nat ->
  Forall (fun c => 0 < c) l -> Forall (fun c => 0 < c) k ->
  Forall (fun p => p.1 <= B * p.2) (zip l k) ->
  zip_with (fun cur prev => num_sub (float_range (num_div cur prev)) (Fin 1))
    (map Fin l) (take n (map Fin k))
  = map Fin (zip_with (fun cur prev => cur / prev - 1) l k).
Proof.
  intros HB. revert k n.
  induction l as [|a l IH]; intros k n Hn Hl Hk Hr; [done|].
  destruct k as [|b k]; [by destruct n|].
  destruct n as [|n]; [simpl in Hn; lia|].
  apply Forall_cons in Hl as [Ha Hl]. apply Forall_cons in Hk as [Hb Hk].
  simpl in Hr. apply Forall_cons in Hr as [Hab Hr].
  cbn [map take zip_with].
  rewrite (return_of_positive B) by done.
  rewrite IH; [done | simpl in Hn; lia | done..].
Qed.

(** The returns of a history of positive closes, none more than [B] times
    the one before, for a [B] in the range of binary64: no return is
    undefined but the first. *)
Lemma pct_change_closes B c cs :
  B <= 1e308 ->
  Forall (fun c => 0 < c) (c :: cs) ->
  Forall (fun p => p.1 <= B * p.2) (zip cs (c :: cs)) ->
  pct_change 1 (map Fin (c :: cs)) = NaN :: map Fin (returns (c :: cs)).
Proof.
  intros HB Hpos Hr. unfold pct_change, ffill. rewrite ffill_from_Fin.
  unfold shift, returns. rewrite length_map.
  cbn [replicate app map length take zip_with tail].
  f_equal. apply (returns_of_positive B cs (c :: cs)); [done|done| |done..].
  by apply Forall_cons in Hpos as [_ ?].
Qed.

Lemma returns_length cs : length (returns cs) = (length cs - 1)%nat.
Proof.
  unfold returns. rewrite length_zip_with. destruct cs; simpl; lia.
Qed.

(** The window of the last row: the [w] last returns. *)
Lemma window_of_returns w rs :
  (w <= length rs)%nat ->
  window_last w (NaN :: map Fin rs) = Some (drop (length rs - w) rs).
Proof.
  intros Hw. unfold window_last.
  replace (length (NaN :: map Fin rs) - w)%nat with (S (length rs - w))
    by (simpl; rewrite length_map; lia).
  cbn [drop]. change (map Fin rs) with (Fin <$> rs). rewrite <- fmap_drop.
  change (Fin <$> drop (length rs - w) rs)
    with (map Fin (drop (length rs - w) rs)).
  rewrite decide_True by (rewrite length_map, length_drop; lia).
  apply mapM_as_fin_map.
Qed.

Lemma Rsum_squares_shift mu rs :
  Rsum (map (fun x => (x - mu) * (x - mu)) rs)
  = Rsum (map (fun x => x * x) rs) - 2 * mu * Rsum rs
    + INR (length rs) * (mu * mu).
Proof.
  induction rs as [|r rs IH]; [simpl; lra|].
  change (Rsum (map (fun x => (x - mu) * (x - mu)) (r :: rs)))
    with ((r - mu) * (r - mu) + Rsum (map (fun x => (x - mu) * (x - mu)) rs)).
  change (Rsum (map (fun x => x * x) (r :: rs)))
    with (r * r + Rsum (map (fun x => x * x) rs)).
  change (Rsum (r :: rs)) with (r + Rsum rs).
  rewrite IH, length_cons, S_INR. lra.
Qed.

(** The squared deviations from the mean sum to no more than the squares. *)
Lemma sum_sq_dev_le_squares rs :
  sum_sq_dev rs <= Rsum (map (fun x => x * x) rs).
Proof.
  unfold sum_sq_dev. cbv zeta. rewrite Rsum_squares_shift.
  destruct rs as [|r rs]; [simpl; lra|].
  set (l := r :: rs). set (n := INR (length l)).
  assert (Hn : 0 < n) by (apply lt_0_INR; simpl; lia).
  assert (E : Rsum l = n * Rmean l) by (unfold Rmean; fold n; field; lra).
  rewrite E. pose proof (Rle_0_sqr (Rmean l)) as Hsq. unfold Rsqr in Hsq.
  nra.
Qed.

Lemma Rsum_squares_bound B rs :
  Forall (fun x => - B <= x <= B) rs ->
  Rsum (map (fun x => x * x) rs) <= INR (length rs) * (B * B).
Proof.
  induction 1 as [|r rs Hr _ IH]; [simpl; lra|].
  change (Rsum (map (fun x => x * x) (r :: rs)))
    with (r * r + Rsum (map (fun x => x * x) rs)).
  rewrite length_cons, S_INR. nra.
Qed.

(** A return of positive closes is above -1, and at most the bound on the
    quotient of the closes. *)
Lemma returns_bound B (l k : list R) :
  1 <= B ->
  Forall (fun c => 0 < c) l -> Forall (fun c => 0 < c) k ->
  Forall (fun p => p.1 <= B * p.2) (zip l k) ->
  Forall (fun x => - B <= x <= B)
    (zip_with (fun cur prev => cur / prev - 1) l k).
Proof.
  intros HB. revert k. induction l as [|a l IH]; intros k Hl Hk Hr;
    [constructor|].
  destruct k as [|b k]; [constructor|].
  apply Forall_cons in Hl as [Ha Hl]. apply Forall_cons in Hk as [Hb Hk].
  simpl in Hr. apply Forall_cons in Hr as [Hab Hr]. simpl in Hab.
  cbn [zip_with]. constructor; [|by apply IH].
  assert (Hq : 0 < a / b) by (by apply Rdiv_lt_0_compat).
  assert (Hq' : a / b <= B).
  { apply (Rmult_le_reg_r b); [done|].
    replace (a / b * b) with a by (field; lra). done. }
  lra.
Qed.

(** The latest deviation on a history of positive closes: the deviation of
    the [w] last returns, in the range of binary64. *)
Lemma latest_vol_of_closes cfg B cs :
  B <= 1e308 ->
  (vol_target_window cfg < length cs)%nat ->
  Forall (fun c => 0 < c) cs ->
  Forall (fun p => p.1 <= B * p.2) (zip (tail cs) cs) ->
  latest_target_vol cfg (map Fin cs)
  = Ok (if decide (vol_target_window cfg <= 1)%nat then NaN
        else float_std (drop (length cs - 1 - vol_target_window cfg)
                          (returns cs))).
Proof.
  intros HB Hlen Hpos Hr. destruct cs as [|c cs]; [simpl in Hlen; lia|].
  unfold latest_target_vol. rewrite (pct_change_closes B) by done.
  unfold rolling_std_last, rolling_std_at_last.
  rewrite window_of_returns by (rewrite returns_length; simpl in *; lia).
  by rewrite returns_length.
Qed.

(** C7, amended: on an empty sequence of closes the targeter raises
    [IndexError]. On every other sequence the latest rolling deviation [vol]
    of the daily returns exists, and: when [vol] is undefined ([NaN]), is
    [-inf] or is below [1e-8], the targeter returns exactly 1.0; when [vol]
    is a real of at least [1e-8] it returns
    [clip(T / max(vol * sqrt(252), 1e-3), min_gross, max_gross)]; when [vol]
    is [+inf] (the variance overflowed) the test does not catch it and it
    returns [clip(0, min_gross, max_gross)], not 1.0. On a history of
    [w + 1] positive closes, [w = vol_target_window] being at least 2, none
    more than [1e100] times the one before, the window of the last row is
    the first complete one and [vol] is the sample deviation of the [w]
    returns [c_i / c_(i-1) - 1]. And a volatility whose annualised value is
    exactly the target [T >= 1e-3] is outside the degenerate branch and gives
    the scale 1.0 before the clip. *)
Theorem C7_vol_target_scale cfg soxx_close :
  let T := target_annual_vol cfg in
  let w := vol_target_window cfg in
  (soxx_close = [] -> _vol_target_scale cfg soxx_close = Raise IndexError) /\
  (soxx_close <> [] ->
   exists vol,
     latest_target_vol cfg soxx_close = Ok vol /\
     (vol = NaN \/ vol = NInf \/ (exists x, vol = Fin x /\ x < 1e-8) ->
      _vol_target_scale cfg soxx_close = Ok 1.0) /\
     (forall x, vol = Fin x -> 1e-8 <= x ->
        _vol_target_scale cfg soxx_close
        = Ok (clip (T / Rmax (x * sqrt 252) 1e-3)
                (min_gross cfg) (max_gross cfg))) /\
     (vol = PInf ->
      _vol_target_scale cfg soxx_close
      = Ok (clip 0 (min_gross cfg) (max_gross cfg)))) /\
  (forall cs,
     soxx_close = map Fin cs ->
     (2 <= w)%nat -> length cs = S w -> INR w <= 1e100 ->
     Forall (fun c => 0 < c) cs ->
     Forall (fun p => p.1 <= 1e100 * p.2) (zip (tail cs) cs) ->
     latest_target_vol cfg soxx_close = Ok (Fin (Rstd (returns cs)))) /\
  (forall v, 1e-3 <= T -> v * sqrt 252 = T ->
     1e-8 <= v /\ vol_scale_raw cfg v = 1.0 /\
     scale_of_vol cfg (Fin v) = clip 1.0 (min_gross cfg) (max_gross cfg)).
Proof.
  intros T w. split_and!.
  - by intros ->.
  - intros Hne.
    unfold _vol_target_scale, latest_target_vol, rolling_std_last.
    destruct (pct_change 1 soxx_close) as [|r rs] eqn:E.
    { apply (f_equal length) in E. rewrite pct_change_length in E.
      destruct soxx_close; done. }
    eexists. split; [done|]. cbn [mbind result_bind]. split_and!.
    + intros [-> | [-> | (x & -> & Hx)]]; [done..|].
      unfold scale_of_vol. by rewrite Rltb_true.
    + intros x -> Hx. unfold scale_of_vol.
      by rewrite Rltb_false by lra.
    + by intros ->.
  - intros cs -> Hw Hlen HwR Hpos Hr.
    rewrite (latest_vol_of_closes cfg 1e100) by (done || lra || (fold w; lia)).
    fold w. rewrite decide_False by lia.
    replace (length cs - 1 - w)%nat with 0%nat by lia. rewrite drop_0.
    do 2 f_equal. apply float_std_Fin.
    set (win := returns cs).
    assert (Hwin : length win = w).
    { unfold win. rewrite returns_length. lia. }
    assert (Hb : Forall (fun x => Ropp 1e100 <= x <= 1e100) win).
    { unfold win, returns. apply returns_bound; [lra| |done..].
      destruct cs; [done|]. by apply Forall_cons in Hpos as [_ ?]. }
    etrans; [apply sum_sq_dev_le_squares|].
    etrans; [apply (Rsum_squares_bound 1e100); exact Hb|].
    rewrite Hwin. assert (0 <= INR w) by apply pos_INR. nra.
  - intros v HT Hv. pose proof sqrt_252_bounds as Hs.
    assert (H8 : 1e-8 <= v) by (fold T in Hv; nra).
    assert (Hraw : vol_scale_raw cfg v = 1.0).
    { unfold vol_scale_raw. rewrite Hv, Rmax_left by lra.
      replace 1.0 with 1 by lra. apply Rdiv_diag. lra. }
    split_and!; [done..|].
    unfold scale_of_vol. rewrite Rltb_false by lra. by rewrite Hraw.
Qed.

Lemma overflowing_closes_vol :
  latest_target_vol initial_config overflowing_closes = Ok PInf.
Proof.
  change overflowing_closes with (map Fin (replicate 20 1 ++ [1e200])).
  rewrite (latest_vol_of_closes initial_config 1e308).
  - rewrite decide_False by (simpl; lia). f_equal.
    apply float_std_overflow.
    unfold sum_sq_dev, Rmean, returns. simpl. lra.
  - lra.
  - simpl. lia.
  - simpl. repeat constructor; lra.
  - simpl. repeat constructor; simpl; lra.
Qed.

(** C7, as stated, fails: on twenty closes of 1 followed by a close of
    [1e200] the latest rolling deviation is not finite (the last return is in
    range, the variance of the window is not), and the targeter returns
    [min_gross = 0.20], not the neutral 1.0. *)
Lemma C7_counterexample :
  latest_target_vol initial_config overflowing_closes = Ok PInf /\
  isinf PInf = true /\
  _vol_target_scale initial_config overflowing_closes = Ok 0.20 /\
  _vol_target_scale initial_config overflowing_closes <> Ok 1.0.
Proof.
  assert (Hs : _vol_target_scale initial_config overflowing_closes = Ok 0.20).
  { unfold _vol_target_scale. rewrite overflowing_closes_vol.
    cbn [mbind result_bind]. f_equal. unfold scale_of_vol. simpl.
    rewrite clip_at_lo; lra. }
  split_and!; [exact overflowing_closes_vol | done | exact Hs |].
  rewrite Hs. intros [= E]. lra.
Qed.

(** The targeter on three closes, one percent up then one percent down, with
    a window of two returns: the deviation is the one of the two returns,
    [sqrt(0.0002)], above the threshold, and the scale is the one of the
    formula. *)
Lemma C7_vol_target_scale_witness :
  swing_closes <> [] /\
  latest_target_vol two_day_config swing_closes = Ok (Fin (sqrt 0.0002)) /\
  1e-8 <= sqrt 0.0002 /\
  _vol_target_scale two_day_config swing_closes
  = Ok (clip (target_annual_vol two_day_config
              / Rmax (sqrt 0.0002 * sqrt 252) 1e-3)
          (min_gross two_day_config) (max_gross two_day_config)).
Proof.
  destruct (C7_vol_target_scale two_day_config swing_closes)
    as (_ & Hcases & Hpin & _).
  assert (Hne : swing_closes <> []) by done.
  assert (Hvol : latest_target_vol two_day_config swing_closes
                 = Ok (Fin (sqrt 0.0002))).
  { rewrite (Hpin [100; 101; 99.99]).
    - change (returns [100; 101; 99.99])
        with [101 / 100 + - (1); 99.99 / 101 + - (1)].
      by rewrite swing_closes_std.
    - reflexivity.
    - simpl. lia.
    - reflexivity.
    - simpl. lra.
    - repeat constructor; lra.
    - simpl. repeat constructor; simpl; lra. }
  assert (Hsd : 1e-8 <= sqrt 0.0002).
  { assert (0.014 < sqrt 0.0002 < 0.015) by (apply sqrt_bounds; lra). lra. }
  destruct (Hcases Hne) as (vol & Hv & _ & Hreg & _).
  rewrite Hvol in Hv. injection Hv as <-.
  split_and!; [exact Hne | exact Hvol | exact Hsd |].
  exact (Hreg (sqrt 0.0002) eq_refl Hsd).
Defined.

(** ** The side budgets of the two-sided regimes *)








